(** * gamemovement.cpp: a heart moving inside a bordered box

    Shallow embedding of [src/gamemovement.cpp].

    - C++ [float] is IEEE-754 binary32; it is modelled by the Standard
      Library's executable specification [SpecFloat] at precision 24 and
      [emax = 128], every operation rounding to nearest-even once, as a
      compiler does that evaluates [float] expressions in single precision
      without contracting them.
    - C++ [int] is modelled by [Z]; signed overflow is undefined in C++ and
      nothing here relies on it.
    - [sqrt] is the correctly rounded square root; whether the call goes
      through [double] makes no difference to the [float] it is stored in.
    - The ncurses calls are effects: they are recorded, in order, in a log
      of [event]s.  [getch] reads from a list of pending key codes and
      answers [ERR] when the list is empty.  Terminal set-up and tear-down
      ([initscr] ... [endwin]) and the unused locals of [main] are left
      out. *)

From Stdlib Require Import String ZArith List Bool Lia QArith Permutation.
From Stdlib Require Import Floats.SpecFloat.
Import ListNotations.
Open Scope Z_scope.

(** ** Single-precision floats *)

Module F32.

Definition prec : Z := 24.
Definition emax : Z := 128.

Definition float := spec_float.

Definition add : float -> float -> float := SFadd prec emax.
Definition sub : float -> float -> float := SFsub prec emax.
Definition mul : float -> float -> float := SFmul prec emax.
Definition div : float -> float -> float := SFdiv prec emax.
Definition sqrt : float -> float := SFsqrt prec emax.

(** The comparison operators of C++: all false on NaN, except [!=]. *)
Definition ltb (a b : float) : bool := SFltb a b.
Definition gtb (a b : float) : bool := SFltb b a.
Definition leb (a b : float) : bool := SFleb a b.
Definition eqb (a b : float) : bool := SFeqb a b.
Definition neb (a b : float) : bool := negb (SFeqb a b).

(** [static_cast<float>(n)], and the implicit conversion of an [int]
    operand compared with a [float]. *)
Definition of_int (n : Z) : float := binary_normalize prec emax n 0 false.

Definition valid (a : float) : bool := valid_binary prec emax a.

Definition is_nan (a : float) : bool :=
  match a with S754_nan => true | _ => false end.

Definition is_finite (a : float) : bool :=
  match a with S754_zero _ | S754_finite _ _ _ => true | _ => false end.

(** The literals of the source. *)
Definition zero : float := S754_zero false.            (* 0.0f *)
Definition one : float := S754_finite false 8388608 (-23).      (* 1.0f *)
Definition m_one : float := S754_finite true 8388608 (-23).     (* -1.0f *)
Definition two : float := S754_finite false 8388608 (-22).      (* 2.0f *)
Definition five : float := S754_finite false 10485760 (-21).    (* 5.0f *)
Definition c0_2 : float := S754_finite false 13421773 (-26).    (* 0.2f *)
Definition c0_3 : float := S754_finite false 10066330 (-25).    (* 0.3f *)
Definition c0_05 : float := S754_finite false 13421773 (-28).   (* 0.05f *)

(** Structural equality: same class, sign, mantissa and exponent. *)
Definition same (a b : float) : bool :=
  match a, b with
  | S754_zero s, S754_zero t => Bool.eqb s t
  | S754_infinity s, S754_infinity t => Bool.eqb s t
  | S754_nan, S754_nan => true
  | S754_finite s m e, S754_finite t n f => Bool.eqb s t && Pos.eqb m n && Z.eqb e f
  | _, _ => false
  end.

Definition mem (a : float) (l : list float) : bool := existsb (same a) l.

(** The exact value of a finite float, as a rational. *)
Definition to_Q (a : float) : option Q :=
  match a with
  | S754_zero _ => Some 0%Q
  | S754_finite s m e =>
      let v := match e with
               | Zneg p => Qmake (Zpos m) (2 ^ p)
               | _ => inject_Z (Zpos m * 2 ^ e)
               end in
      Some (if s then Qopp v else v)
  | _ => None
  end.

(** [static_cast<int>(round(a))]: [round] goes to the nearest integer,
    halves away from zero.  The conversion is undefined in C++ when the
    result is not an [int]: for a finite [a] the model answers the integer
    itself, for NaN and the infinities [INT_MIN], as x86-64 does. *)
Definition round_to_int (a : float) : Z :=
  match a with
  | S754_zero _ => 0
  | S754_finite s m e =>
      let n := match e with
               | Zneg p => (Zpos m + 2 ^ (Zpos p - 1)) / 2 ^ Zpos p
               | _ => Zpos m * 2 ^ e
               end in
      if s then - n else n
  | _ => - 2147483648
  end.

End F32.

Abbreviation float := F32.float.

(** ** The terminal *)

Module Curses.

(** Values of <ncurses.h>. *)
Definition ERR : Z := -1.
Definition KEY_DOWN : Z := 258.   (* 0402 *)
Definition KEY_UP : Z := 259.     (* 0403 *)
Definition KEY_LEFT : Z := 260.   (* 0404 *)
Definition KEY_RIGHT : Z := 261.  (* 0405 *)

Inductive attr := A_REVERSE | COLOR_PAIR (n : Z).

(** One recorded call. [Mvaddch row col ch]. *)
Inductive event :=
| Attron (a : attr)
| Attroff (a : attr)
| Mvaddch (row col ch : Z)
| Mvprintw (row col : Z) (text : string)
| Refresh
| Usleep (us : Z).

Definition SPACE : Z := 32.      (* ' ' *)

End Curses.
Import Curses.

(** ** Movable entity: [class Heart] *)

Record Heart := mkHeart {
x : float;  y : float;
lastDrawnX : Z;  lastDrawnY : Z;
directionX : float;  directionY : float;
baseSpeed : float;
aspectRatio : float;
moving : bool;
symbol : Z
}.

Module Heart_.

(** [Heart::Heart(startX, startY)]; [acs_diamond] is the run-time value of
    [ACS_DIAMOND]. *)
Definition new (acs_diamond startX startY : Z) : Heart :=
  {| x := F32.of_int startX;  y := F32.of_int startY;
     lastDrawnX := startX;  lastDrawnY := startY;
     directionX := F32.zero;  directionY := F32.zero;
     baseSpeed := F32.c0_3;  aspectRatio := F32.two;
     moving := false;  symbol := acs_diamond |}.

Definition setPosition (newX newY : float) (h : Heart) : Heart :=
  {| x := newX;  y := newY;
     lastDrawnX := lastDrawnX h;  lastDrawnY := lastDrawnY h;
     directionX := directionX h;  directionY := directionY h;
     baseSpeed := baseSpeed h;  aspectRatio := aspectRatio h;
     moving := moving h;  symbol := symbol h |}.

Definition update (h : Heart) : Heart :=
  if moving h then
    setPosition
      (F32.add (x h) (F32.mul (F32.mul (directionX h) (baseSpeed h)) (aspectRatio h)))
      (F32.add (y h) (F32.mul (directionY h) (baseSpeed h)))
      h
  else h.

Definition setDirection (dx dy : float) (h : Heart) : Heart :=
  if F32.neb dx F32.zero || F32.neb dy F32.zero then
    let length := F32.sqrt (F32.add (F32.mul dx dx) (F32.mul dy dy)) in
    {| x := x h;  y := y h;
       lastDrawnX := lastDrawnX h;  lastDrawnY := lastDrawnY h;
       directionX := F32.div dx length;  directionY := F32.div dy length;
       baseSpeed := baseSpeed h;  aspectRatio := aspectRatio h;
       moving := true;  symbol := symbol h |}
  else h.

Definition setAspectRatio (ratio : float) (h : Heart) : Heart :=
  {| x := x h;  y := y h;
     lastDrawnX := lastDrawnX h;  lastDrawnY := lastDrawnY h;
     directionX := directionX h;  directionY := directionY h;
     baseSpeed := baseSpeed h;  aspectRatio := ratio;
     moving := moving h;  symbol := symbol h |}.

Definition setSpeed (speed : float) (h : Heart) : Heart :=
  {| x := x h;  y := y h;
     lastDrawnX := lastDrawnX h;  lastDrawnY := lastDrawnY h;
     directionX := directionX h;  directionY := directionY h;
     baseSpeed := speed;  aspectRatio := aspectRatio h;
     moving := moving h;  symbol := symbol h |}.

Definition set_moving (b : bool) (h : Heart) : Heart :=
  {| x := x h;  y := y h;
     lastDrawnX := lastDrawnX h;  lastDrawnY := lastDrawnY h;
     directionX := directionX h;  directionY := directionY h;
     baseSpeed := baseSpeed h;  aspectRatio := aspectRatio h;
     moving := b;  symbol := symbol h |}.

Definition stop : Heart -> Heart := set_moving false.
Definition start : Heart -> Heart := set_moving true.
Definition isMoving (h : Heart) : bool := moving h.

(** [clearPrevious]: one blank at the last drawn cell. *)
Definition clearPrevious (h : Heart) : list event :=
  [Mvaddch (lastDrawnY h) (lastDrawnX h) SPACE].

(** [draw]: the calls it makes, and the entity afterwards. *)
Definition draw (h : Heart) : list event * Heart :=
  let currentX := F32.round_to_int (x h) in
  let currentY := F32.round_to_int (y h) in
  let glyph := [Attron (COLOR_PAIR 1); Mvaddch currentY currentX (symbol h);
                Attroff (COLOR_PAIR 1)] in
  if negb (currentX =? lastDrawnX h) || negb (currentY =? lastDrawnY h) then
    (clearPrevious h ++ glyph,
     {| x := x h;  y := y h;
        lastDrawnX := currentX;  lastDrawnY := currentY;
        directionX := directionX h;  directionY := directionY h;
        baseSpeed := baseSpeed h;  aspectRatio := aspectRatio h;
        moving := moving h;  symbol := symbol h |})
  else (glyph, h).

End Heart_.

(** ** Bounded region: [class BattleBox] *)

Record BattleBox := mkBox {
box_x : Z;  box_y : Z;
width : Z;  height : Z;
needsRedraw : bool
}.

(** The values [lo, lo+1, ..., hi] of a [for (int i = lo; i <= hi; i++)]. *)
Definition for_range (lo hi : Z) : list Z :=
map (fun k => lo + Z.of_nat k) (seq 0 (Z.to_nat (hi + 1 - lo))).

Module BattleBox_.

Definition new (startX startY w h : Z) : BattleBox :=
  {| box_x := startX;  box_y := startY;  width := w;  height := h;
     needsRedraw := true |}.

Definition top_bottom (b : BattleBox) : list event :=
  flat_map (fun i => [Mvaddch (box_y b) (box_x b + i) SPACE;
                      Mvaddch (box_y b + height b) (box_x b + i) SPACE])
           (for_range (-1) (width b + 1)).

Definition left_right (b : BattleBox) : list event :=
  flat_map (fun i => [Mvaddch (box_y b + i) (box_x b) SPACE;
                      Mvaddch (box_y b + i) (box_x b + width b) SPACE;
                      Mvaddch (box_y b + i) (box_x b - 1) SPACE;
                      Mvaddch (box_y b + i) (box_x b + 1 + width b) SPACE])
           (for_range 0 (height b)).

Definition draw (b : BattleBox) : list event * BattleBox :=
  if negb (needsRedraw b) then ([], b)
  else
    ([Attron A_REVERSE] ++ top_bottom b ++ left_right b ++ [Attroff A_REVERSE],
     {| box_x := box_x b;  box_y := box_y b;
        width := width b;  height := height b;
        needsRedraw := false |}).

Definition setNeedsRedraw (b : BattleBox) : BattleBox :=
  {| box_x := box_x b;  box_y := box_y b;
     width := width b;  height := height b;
     needsRedraw := true |}.

End BattleBox_.

(** ** Loop controller: [main] *)

Module Main.

(** One key of the input-drain loop, other than the quit keys. *)
Definition handle_key (ch : Z) (h : Heart) : Heart :=
  if ch =? 32 (* ' ' *) then
    if Heart_.isMoving h then Heart_.stop h else Heart_.start h
  else if (ch =? 43 (* '+' *)) || (ch =? 61 (* '=' *)) then
    let a := F32.add (aspectRatio h) F32.c0_2 in
    let a := if F32.gtb a F32.five then F32.five else a in
    Heart_.setAspectRatio a h
  else if (ch =? 45 (* '-' *)) || (ch =? 95 (* '_' *)) then
    let a := F32.sub (aspectRatio h) F32.c0_2 in
    let a := if F32.ltb a F32.one then F32.one else a in
    Heart_.setAspectRatio a h
  else if ch =? 91 (* '[' *) then
    let s := F32.sub (baseSpeed h) F32.c0_05 in
    let s := if F32.ltb s F32.c0_05 then F32.c0_05 else s in
    Heart_.setSpeed s h
  else if ch =? 93 (* ']' *) then
    let s := F32.add (baseSpeed h) F32.c0_05 in
    let s := if F32.gtb s F32.one then F32.one else s in
    Heart_.setSpeed s h
  else if ch =? KEY_UP then Heart_.setDirection F32.zero F32.m_one h
  else if ch =? KEY_DOWN then Heart_.setDirection F32.zero F32.one h
  else if ch =? KEY_LEFT then Heart_.setDirection F32.m_one F32.zero h
  else if ch =? KEY_RIGHT then Heart_.setDirection F32.one F32.zero h
  else h.

Definition is_quit (ch : Z) : bool := (ch =? 113 (* 'q' *)) || (ch =? 81 (* 'Q' *)).

(** [while ((ch = getch()) != ERR) { ... }]: [pending] are the key codes
    [getch] has to deliver, [ERR] once there is none.  Answers the entity,
    the [running] flag and the keys left unread. *)
Fixpoint drain (pending : list Z) (h : Heart) (running : bool)
  : Heart * bool * list Z :=
  match pending with
  | [] => (h, running, [])
  | ch :: rest =>
      if ch =? ERR then (h, running, rest)
      else if is_quit ch then (h, false, rest)
      else drain rest (handle_key ch h) running
  end.

(** The four [if]s under "Constrain position".  [heartX] and [heartY] are
    read once, before the first [if]. *)
Definition constrain (b : BattleBox) (h : Heart) : Heart :=
  let heartX := x h in
  let heartY := y h in
  let h := if F32.ltb heartX (F32.of_int (box_x b + 1))
           then Heart_.setPosition (F32.of_int (box_x b + 1)) heartY h else h in
  let h := if F32.gtb heartX (F32.of_int (box_x b + width b - 1))
           then Heart_.setPosition (F32.of_int (box_x b + width b - 1)) heartY h else h in
  let h := if F32.ltb heartY (F32.of_int (box_y b + 1))
           then Heart_.setPosition heartX (F32.of_int (box_y b + 1)) h else h in
  let h := if F32.gtb heartY (F32.of_int (box_y b + height b - 1))
           then Heart_.setPosition heartX (F32.of_int (box_y b + height b - 1)) h else h in
  h.

Record World := mkWorld {
  heart : Heart;
  battleBox : BattleBox;
  running : bool;
  screen : list event    (* the calls made so far, oldest first *)
}.

(** What follows the drain in the loop body: update, constrain, draw,
    refresh, usleep. *)
Definition rest_of_frame (b : BattleBox) (h : Heart) : list event * Heart :=
  let h := Heart_.update h in
  let h := constrain b h in
  let '(evs, h) := Heart_.draw h in
  (evs ++ [Refresh; Usleep 16667], h).

(** One iteration of [while (running)]. *)
Definition frame (pending : list Z) (w : World) : World * list Z :=
  let '(h, run, unread) := drain pending (heart w) (running w) in
  let '(evs, h) := rest_of_frame (battleBox w) h in
  ({| heart := h;  battleBox := battleBox w;  running := run;
      screen := screen w ++ evs |}, unread).

(** The loop, over the keys that arrive during each successive iteration.
    Keys left unread by an iteration are still pending in the next. *)
Fixpoint game_loop (input : list (list Z)) (carry : list Z) (w : World) : World :=
  match input with
  | [] => w
  | keys :: later =>
      if running w then
        let '(w', unread) := frame (carry ++ keys) w in
        game_loop later unread w'
      else w
  end.

(** The state on entry to the loop, for a terminal of [maxY] rows and
    [maxX] columns.  C++ [/] truncates; the sizes [getmaxyx] reports are not
    negative, where [Z.quot] is that division. *)
Definition init (acs_diamond maxY maxX : Z) : World :=
  let '(evs, b) :=
    BattleBox_.draw (BattleBox_.new (Z.quot maxX 2 - 20) (Z.quot maxY 2 - 8) 40 16) in
  {| heart := Heart_.new acs_diamond (Z.quot maxX 2) (Z.quot maxY 2);
     battleBox := b;  running := true;
     screen := evs ++
       [Mvprintw (maxY - 3) 2 "Arrow keys to set direction, Space to stop/start";
        Mvprintw (maxY - 2) 2 "Q to quit"] |}.

End Main.

(** ** Observations the properties are stated with *)

Definition position (h : Heart) : float * float := (x h, y h).

Definition direction (h : Heart) : float * float := (directionX h, directionY h).

(** The keys of a list, handled in order (none of them a quit key). *)
Definition run_keys (ks : list Z) (h : Heart) : Heart :=
  fold_left (fun h k => Main.handle_key k h) ks h.

(** The cells addressed by the [mvaddch] calls of a log. *)
Definition cells (evs : list event) : list (Z * Z) :=
  flat_map (fun e => match e with Mvaddch r c _ => [(r, c)] | _ => [] end) evs.

Definition cols_on_row (r : Z) (evs : list event) : list Z :=
  map snd (filter (fun rc => fst rc =? r) (cells evs)).

Definition distinct_cols (r : Z) (evs : list event) : list Z :=
  nodup Z.eq_dec (cols_on_row r evs).

(** The stored direction has Euclidean length one, in exact arithmetic. *)
Definition unit_length (h : Heart) : Prop :=
  exists qx qy : Q,
    F32.to_Q (directionX h) = Some qx /\ F32.to_Q (directionY h) = Some qy /\
    (qx * qx + qy * qy == 1)%Q.

(** The four steps of the aspect-ratio and speed keys, as [handle_key]
    computes them. *)
Definition aspect_up (a : float) : float :=
  let a := F32.add a F32.c0_2 in if F32.gtb a F32.five then F32.five else a.
Definition aspect_down (a : float) : float :=
  let a := F32.sub a F32.c0_2 in if F32.ltb a F32.one then F32.one else a.
Definition speed_down (s : float) : float :=
  let s := F32.sub s F32.c0_05 in if F32.ltb s F32.c0_05 then F32.c0_05 else s.
Definition speed_up (s : float) : float :=
  let s := F32.add s F32.c0_05 in if F32.gtb s F32.one then F32.one else s.

(** Every value two steps [f] and [g] reach from the values of [todo]. *)
Fixpoint closure (fuel : nat) (f g : float -> float) (todo seen : list float)
  : list float :=
  match fuel with
  | O => seen
  | S k =>
      match todo with
      | [] => seen
      | a :: t =>
          if F32.mem a seen then closure k f g t seen
          else closure k f g (f a :: g a :: t) (a :: seen)
      end
  end.

(** The aspect ratios the keys reach from 2.0f, and the speeds from 0.3f. *)
Definition aspect_values : list float :=
  Eval vm_compute in closure 1000 aspect_up aspect_down [F32.two] [].
Definition speed_values : list float :=
  Eval vm_compute in closure 1000 speed_up speed_down [F32.c0_3] [].

Definition within (lo hi a : float) : bool := F32.leb lo a && F32.leb a hi.

(** The same with rational bounds and the exact value of the float. *)
Definition within_exact (lo hi : Q) (a : float) : bool :=
  match F32.to_Q a with
  | Some q => Qle_bool lo q && Qle_bool q hi
  | None => false
  end.

(** The keys that change the aspect ratio or the speed. *)
Definition tuning_key (ch : Z) : bool :=
  (ch =? 43) || (ch =? 61) || (ch =? 45) || (ch =? 95) || (ch =? 91) || (ch =? 93).

(** Space and the four arrow keys. *)
Definition steering_key (ch : Z) : bool :=
  (ch =? 32) || (ch =? KEY_UP) || (ch =? KEY_DOWN) || (ch =? KEY_LEFT) || (ch =? KEY_RIGHT).

(** The displacement one [update] adds on each axis. *)
Definition delta_x (h : Heart) : float :=
  F32.mul (F32.mul (directionX h) (baseSpeed h)) (aspectRatio h).
Definition delta_y (h : Heart) : float := F32.mul (directionY h) (baseSpeed h).

(** The four directions the arrow keys pass to [setDirection]. *)
Definition cardinal : list (float * float) :=
  [(F32.zero, F32.m_one); (F32.zero, F32.one); (F32.m_one, F32.zero); (F32.one, F32.zero)].

(** Aspect ratio and speed are among the values the keys reach. *)
Definition tuned (h : Heart) : Prop :=
  In (aspectRatio h) aspect_values /\ In (baseSpeed h) speed_values.

(** ** Rounding to nearest, on integers

    The definitions the facts about [SpecFloat]'s rounding are stated with. *)

Module Rounding.

(** Number of binary digits of a mantissa. *)
Definition dig (m : positive) : Z := Zpos (digits2_pos m).

(** The record [shr_1] has reached after shifting [M] right [n] times. *)
Definition shifted (M n : Z) (mrs : shr_record) : Prop :=
  shr_m mrs = M / 2 ^ n /\
  shr_r mrs = Z.odd (2 * M / 2 ^ n) /\
  shr_s mrs = negb (((2 * M) mod 2 ^ n) =? 0).

(** [M / 2^n] rounded to the nearest integer, ties to even. *)
Definition nearest (M n : Z) : Z :=
  let k := M / 2 ^ n in
  match 2 * (M mod 2 ^ n) ?= 2 ^ n with
  | Lt => k
  | Eq => if Z.even k then k else k + 1
  | Gt => k + 1
  end.

(** Sign bit set, and not NaN. *)
Definition negative (d : spec_float) : Prop :=
  match d with
  | S754_zero true | S754_infinity true | S754_finite true _ _ => True
  | _ => False
  end.

Definition finite (a : spec_float) : Prop :=
  match a with S754_zero _ | S754_finite _ _ _ => True | _ => False end.

(** Not NaN, with sign bit [s]. *)
Definition signed (s : bool) (r : spec_float) : Prop :=
  match r with
  | S754_zero t | S754_infinity t | S754_finite t _ _ => t = s
  | S754_nan => False
  end.

Section Format.
Variables prec emax : Z.

(** Finite floats are integer multiples of [2^emin]; [ord] is that integer,
    and the infinities sit at [top], the image of [2^emax]. *)
Definition top : Z := 2 ^ (emax - emin prec emax).

Definition ord (a : spec_float) : Z :=
  match a with
  | S754_zero _ | S754_nan => 0
  | S754_infinity s => if s then - top else top
  | S754_finite s m e =>
      let v := Zpos m * 2 ^ (e - emin prec emax) in if s then - v else v
  end.

(** The image of [binary_round false m e], before overflow is checked. *)
Definition rounded (m : positive) (e : Z) : Z :=
  if dig m <=? prec then Zpos m * 2 ^ (e - emin prec emax)
  else nearest (Zpos m) (dig m - prec) * 2 ^ (dig m - prec + e - emin prec emax).

Definition clip (v : Z) : Z := Z.min v top.

(** A valid float that is not NaN. *)
Definition number (a : spec_float) : Prop :=
  valid_binary prec emax a = true /\ a <> S754_nan.

(** The image of [binary_normalize z e _]. *)
Definition normalized (z e : Z) : Z :=
  match z with
  | Z0 => 0
  | Zpos m => clip (rounded m e)
  | Zneg m => - clip (rounded m e)
  end.

End Format.

End Rounding.

(** A float of the format that is finite and greater than zero. *)
Definition positive_float (a : float) : bool :=
  match a with
  | S754_finite false m e => bounded F32.prec F32.emax m e
  | _ => false
  end.


(** One iteration of the loop without input, as far as the entity goes:
    update, clamp, redraw. *)
Definition idle_frame (b : BattleBox) (h : Heart) : Heart :=
  snd (Main.rest_of_frame b h).

(** The box [main] builds around the centre of the terminal. *)
Definition centred (cx cy : Z) (b : BattleBox) : Prop :=
  box_x b = cx - 20 /\ box_y b = cy - 8 /\ width b = 40 /\ height b = 16.

(** The position is inside the interior of the box, bounds included, by the
    float comparisons of the code. *)
Definition in_box (b : BattleBox) (h : Heart) : Prop :=
  F32.leb (F32.of_int (box_x b + 1)) (x h) = true /\
  F32.leb (x h) (F32.of_int (box_x b + width b - 1)) = true /\
  F32.leb (F32.of_int (box_y b + 1)) (y h) = true /\
  F32.leb (y h) (F32.of_int (box_y b + height b - 1)) = true.

(** The directions the entity can have in a run: none yet, or the one of an
    arrow key. *)
Definition headings : list (float * float) := (F32.zero, F32.zero) :: cardinal.

Definition is_zero (a : float) : bool :=
  match a with S754_zero _ => true | _ => false end.

(** The two displacements of [update] are finite floats and one of them is
    a zero. *)
Definition axis_aligned (d : float * float) (s a : float) : bool :=
  let dx := F32.mul (F32.mul (fst d) s) a in
  let dy := F32.mul (snd d) s in
  F32.valid dx && F32.is_finite dx && F32.valid dy && F32.is_finite dy &&
  (is_zero dx || is_zero dy).

(** What holds of the entity at every iteration of the loop of [main]. *)
Definition well_placed (b : BattleBox) (h : Heart) : Prop :=
  tuned h /\ In (direction h) headings /\
  Rounding.number F32.prec F32.emax (x h) /\
  Rounding.number F32.prec F32.emax (y h) /\
  in_box b h.

(** ** What the log shows *)

(** The character an [mvaddch] call puts at row [r], column [c]. *)
Definition put (e : event) (r c : Z) : option Z :=
  match e with
  | Mvaddch r' c' ch => if (r =? r') && (c =? c') then Some ch else None
  | _ => None
  end.

(** The character of the last [mvaddch] of the log at a cell. *)
Fixpoint last_put (log : list event) (r c : Z) : option Z :=
  match log with
  | [] => None
  | e :: rest =>
      match last_put rest r c with
      | Some ch => Some ch
      | None => put e r c
      end
  end.

(** The cell [draw] computes from the position, and the cell the entity was
    last drawn at: row first, as [mvaddch] takes them. *)
Definition cell (h : Heart) : Z * Z := (F32.round_to_int (y h), F32.round_to_int (x h)).
Definition drawn (h : Heart) : Z * Z := (lastDrawnY h, lastDrawnX h).

Definition same_cell (p q : Z * Z) : bool := (fst p =? fst q) && (snd p =? snd q).

(** The three calls that put the glyph [d] at a cell. *)
Definition glyph (d : Z) (p : Z * Z) : list event :=
  [Attron (COLOR_PAIR 1); Mvaddch (fst p) (snd p) d; Attroff (COLOR_PAIR 1)].

(** What an iteration that redraws the glyph in place adds to the log. *)
Definition redraw_in_place (d : Z) (p : Z * Z) : list event :=
  glyph d p ++ [Refresh; Usleep 16667].

(** A cell strictly inside the border. *)
Definition interior (b : BattleBox) (p : Z * Z) : Prop :=
  box_y b + 1 <= fst p <= box_y b + height b - 1 /\
  box_x b + 1 <= snd p <= box_x b + width b - 1.

Definition arrow_key (ch : Z) : bool :=
  (ch =? KEY_UP) || (ch =? KEY_DOWN) || (ch =? KEY_LEFT) || (ch =? KEY_RIGHT).

(** The keys [main] reacts to. *)
Definition recognised (ch : Z) : bool :=
  Main.is_quit ch || steering_key ch || tuning_key ch.

(** A finite float of the format. *)
Definition finite_float (a : float) : bool := F32.valid a && F32.is_finite a.

(** The [mvaddch] calls of the border, between the two attribute calls. *)
Definition border (b : BattleBox) : list event :=
  BattleBox_.top_bottom b ++ BattleBox_.left_right b.

(** A float of the format that is not NaN. *)
Definition a_number (a : float) : bool := F32.valid a && negb (F32.is_nan a).

(** One coordinate is within the interior, bounds included, by the float
    comparisons of the code. *)
Definition inside_x (b : BattleBox) (h : Heart) : Prop :=
  F32.leb (F32.of_int (box_x b + 1)) (x h) = true /\
  F32.leb (x h) (F32.of_int (box_x b + width b - 1)) = true.
Definition inside_y (b : BattleBox) (h : Heart) : Prop :=
  F32.leb (F32.of_int (box_y b + 1)) (y h) = true /\
  F32.leb (y h) (F32.of_int (box_y b + height b - 1)) = true.

(** The entity heading in direction [(dx, dy)] and moving. *)
Definition headed (dx dy : float) (h : Heart) : Heart :=
  {| x := x h;  y := y h;
     lastDrawnX := lastDrawnX h;  lastDrawnY := lastDrawnY h;
     directionX := dx;  directionY := dy;
     baseSpeed := baseSpeed h;  aspectRatio := aspectRatio h;
     moving := true;  symbol := symbol h |}.

(** A float of the format strictly between -2^19 and 2^19. *)
Definition near (a : float) : bool :=
  F32.valid a && F32.ltb (F32.of_int (-524288)) a && F32.ltb a (F32.of_int 524288).

(** A finite float with sign bit [sd] and magnitude at least 2^-5. *)
Definition big_step (sd : bool) (d : float) : bool :=
  match d with
  | S754_finite s m e =>
      Bool.eqb s sd && bounded F32.prec F32.emax m e && (2 ^ 144 <=? Zpos m * 2 ^ (e + 149))
  | _ => false
  end.

(** One coordinate clamped to the interval of two [int]s, by the tests of
    the code. *)
Definition clamped (lo hi : Z) (c : float) : float :=
  if F32.ltb c (F32.of_int lo) then F32.of_int lo
  else if F32.gtb c (F32.of_int hi) then F32.of_int hi
  else c.

(** The cells a call writes, for a text that fits in its row: [mvprintw] is
    only called with texts free of conversions and line breaks. *)
Definition written_cells (e : event) : list (Z * Z) :=
  match e with
  | Mvaddch r c _ => [(r, c)]
  | Mvprintw r c s => map (fun i => (r, c + Z.of_nat i)) (seq 0 (String.length s))
  | _ => []
  end.

(** A cell of a terminal of [maxY] rows and [maxX] columns. *)
Definition on_screen (maxY maxX : Z) (p : Z * Z) : Prop :=
  0 <= fst p < maxY /\ 0 <= snd p < maxX.

(** The direction an arrow key sets, and the bound of the interior on the
    side it points to. *)
Definition arrow_direction (ch : Z) : float * float :=
  if ch =? KEY_UP then (F32.zero, F32.m_one)
  else if ch =? KEY_DOWN then (F32.zero, F32.one)
  else if ch =? KEY_LEFT then (F32.m_one, F32.zero)
  else (F32.one, F32.zero).

Definition wall (b : BattleBox) (ch : Z) : Z :=
  if ch =? KEY_UP then box_y b + 1
  else if ch =? KEY_DOWN then box_y b + height b - 1
  else if ch =? KEY_LEFT then box_x b + 1
  else box_x b + width b - 1.

Definition horizontal (ch : Z) : bool := (ch =? KEY_LEFT) || (ch =? KEY_RIGHT).

(** The entity is on the wall the arrow key [ch] points to, heading into it:
    the coordinate along the arrow equals the bound, the other one is
    inside. *)
Definition at_wall (b : BattleBox) (ch : Z) (h : Heart) : Prop :=
  moving h = true /\ direction h = arrow_direction ch /\
  a_number (x h) = true /\ a_number (y h) = true /\
  if horizontal ch
  then F32.eqb (x h) (F32.of_int (wall b ch)) = true /\ inside_y b h
  else F32.eqb (y h) (F32.of_int (wall b ch)) = true /\ inside_x b h.

(** ** Locations and full mantissas

    What the error bounds of the operations are stated with. *)

Module Rel.

(** The two bits a rounding location stands for. *)
Definition code (l : location) : Z :=
  match l with
  | loc_Exact => 0
  | loc_Inexact Lt => 1
  | loc_Inexact Eq => 2
  | loc_Inexact Gt => 3
  end.

(** A finite float with a full mantissa. *)
Definition normal (prec emax : Z) (a : spec_float) : Prop :=
  match a with
  | S754_finite _ m e => bounded prec emax m e = true /\ Rounding.dig m = prec
  | _ => False
  end.

End Rel.

(** ** The range [setDirection] normalises in *)

(** Zero, or a float of the format of magnitude at least 2^-60 and less
    than 2^60. *)
Definition moderate (a : float) : bool :=
  match a with
  | S754_zero _ => true
  | S754_finite _ m e =>
      bounded F32.prec F32.emax m e &&
      (2 ^ 89 <=? Zpos m * 2 ^ (e + 149)) && (Zpos m * 2 ^ (e + 149) <? 2 ^ 209)
  | _ => false
  end.

(** The square of the Euclidean length of the stored direction is within
    [tol] of one, in exact arithmetic. *)
Definition unit_within (tol : Q) (h : Heart) : Prop :=
  exists qx qy : Q,
    F32.to_Q (directionX h) = Some qx /\ F32.to_Q (directionY h) = Some qy /\
    (1 - tol <= qx * qx + qy * qy <= 1 + tol)%Q.

(** The unit vector along an axis in the sense of [a]: 1.0f or -1.0f for a
    finite non-zero [a]; a zero is left as it is. *)
Definition signum (a : float) : float :=
  match a with
  | S754_finite s _ _ => if s then F32.m_one else F32.one
  | _ => a
  end.

(** * Properties *)

(** ** Records and lists *)

Lemma same_eq (a b : float) : F32.same a b = true -> a = b.
Proof.
  destruct a as [s|s| |s m e], b as [t|t| |t n f]; simpl; try discriminate; intros H.
  - apply eqb_prop in H; now subst.
  - apply eqb_prop in H; now subst.
  - reflexivity.
  - apply andb_prop in H as [H He]; apply andb_prop in H as [Hs Hm].
    apply eqb_prop in Hs; apply Pos.eqb_eq in Hm; apply Z.eqb_eq in He; now subst.
Qed.

Lemma mem_In (a : float) (l : list float) : F32.mem a l = true -> In a l.
Proof.
  unfold F32.mem; intros H; apply existsb_exists in H as (b & Hb & Hab).
  apply same_eq in Hab; now subst.
Qed.

Lemma setPosition_same (h : Heart) : Heart_.setPosition (x h) (y h) h = h.
Proof. now destruct h. Qed.

Lemma in_for_range (lo hi i : Z) : In i (for_range lo hi) <-> lo <= i <= hi.
Proof.
  unfold for_range; rewrite in_map_iff; split.
  - intros (k & <- & Hk); apply in_seq in Hk; lia.
  - intros Hi; exists (Z.to_nat (i - lo)); split; [lia | apply in_seq; lia].
Qed.

Lemma NoDup_for_range (lo hi : Z) : NoDup (for_range lo hi).
Proof.
  unfold for_range; apply Finite.Injective_map_NoDup; [|apply seq_NoDup].
  intros a b Hab; lia.
Qed.

Lemma length_for_range (lo hi : Z) :
  List.length (for_range lo hi) = Z.to_nat (hi + 1 - lo).
Proof. unfold for_range; now rewrite length_map, length_seq. Qed.

(** A duplicate-free list holding exactly the integers of [lo..hi] has
    [hi + 1 - lo] elements. *)
Lemma length_exactly_range (l : list Z) (lo hi : Z) :
  NoDup l -> (forall c, In c l <-> lo <= c <= hi) ->
  List.length l = Z.to_nat (hi + 1 - lo).
Proof.
  intros Hnd Hin; rewrite <- length_for_range.
  apply Permutation_length, NoDup_Permutation; auto using NoDup_for_range.
  intros c; rewrite Hin; symmetry; apply in_for_range.
Qed.

(** ** The literals *)

(** Each decimal literal of the source is the float nearest to it: the
    correctly rounded quotient of two integers. *)
Lemma literals :
  F32.c0_2 = F32.div (F32.of_int 2) (F32.of_int 10) /\
  F32.c0_3 = F32.div (F32.of_int 3) (F32.of_int 10) /\
  F32.c0_05 = F32.div (F32.of_int 5) (F32.of_int 100) /\
  F32.one = F32.of_int 1 /\ F32.m_one = F32.of_int (-1) /\
  F32.two = F32.of_int 2 /\ F32.five = F32.of_int 5 /\ F32.zero = F32.of_int 0 /\
  forallb F32.valid [F32.c0_2; F32.c0_3; F32.c0_05; F32.one; F32.m_one; F32.two; F32.five]
  = true.
Proof. vm_compute; repeat split. Qed.

(** ** What each operation leaves alone *)

Module Frame.

Lemma update_keeps (h : Heart) :
  let h' := Heart_.update h in
  direction h' = direction h /\ baseSpeed h' = baseSpeed h /\
  aspectRatio h' = aspectRatio h /\ moving h' = moving h /\
  lastDrawnX h' = lastDrawnX h /\ lastDrawnY h' = lastDrawnY h /\ symbol h' = symbol h.
Proof. unfold Heart_.update; destruct (moving h) eqn:E; simpl; now rewrite ?E. Qed.

Lemma constrain_keeps (b : BattleBox) (h : Heart) :
  let h' := Main.constrain b h in
  direction h' = direction h /\ baseSpeed h' = baseSpeed h /\
  aspectRatio h' = aspectRatio h /\ moving h' = moving h /\
  lastDrawnX h' = lastDrawnX h /\ lastDrawnY h' = lastDrawnY h /\ symbol h' = symbol h.
Proof.
  unfold Main.constrain.
  destruct (F32.ltb _ _), (F32.gtb _ _), (F32.ltb _ _), (F32.gtb _ _); simpl; auto 10.
Qed.

Lemma draw_keeps (h : Heart) :
  let h' := snd (Heart_.draw h) in
  position h' = position h /\ direction h' = direction h /\
  baseSpeed h' = baseSpeed h /\ aspectRatio h' = aspectRatio h /\
  moving h' = moving h /\ symbol h' = symbol h.
Proof. unfold Heart_.draw; destruct (_ || _); simpl; auto 10. Qed.

Lemma setDirection_keeps (dx dy : float) (h : Heart) :
  let h' := Heart_.setDirection dx dy h in
  position h' = position h /\ baseSpeed h' = baseSpeed h /\
  aspectRatio h' = aspectRatio h /\
  lastDrawnX h' = lastDrawnX h /\ lastDrawnY h' = lastDrawnY h /\ symbol h' = symbol h.
Proof. unfold Heart_.setDirection; destruct (_ || _); simpl; auto 10. Qed.

(** The part of an iteration after the drain, in terms of its three steps. *)
Lemma rest_of_frame_eq (b : BattleBox) (h : Heart) :
  Main.rest_of_frame b h =
    (fst (Heart_.draw (Main.constrain b (Heart_.update h))) ++ [Refresh; Usleep 16667],
     snd (Heart_.draw (Main.constrain b (Heart_.update h)))).
Proof. unfold Main.rest_of_frame; now destruct (Heart_.draw _). Qed.

Lemma rest_of_frame_keeps (b : BattleBox) (h : Heart) :
  let h' := snd (Main.rest_of_frame b h) in
  direction h' = direction h /\ baseSpeed h' = baseSpeed h /\
  aspectRatio h' = aspectRatio h /\ moving h' = moving h /\ symbol h' = symbol h.
Proof.
  rewrite rest_of_frame_eq; cbn [snd].
  destruct (draw_keeps (Main.constrain b (Heart_.update h))) as (_ & -> & -> & -> & -> & ->).
  destruct (constrain_keeps b (Heart_.update h)) as (-> & -> & -> & -> & _ & _ & ->).
  destruct (update_keeps h) as (-> & -> & -> & -> & _ & _ & ->); auto.
Qed.

Lemma frame_eq (pending : list Z) (w : Main.World) :
  Main.frame pending w =
    (let d := Main.drain pending (Main.heart w) (Main.running w) in
     let r := Main.rest_of_frame (Main.battleBox w) (fst (fst d)) in
     ({| Main.heart := snd r;  Main.battleBox := Main.battleBox w;
         Main.running := snd (fst d);
         Main.screen := Main.screen w ++ fst r |}, snd d)).
Proof.
  unfold Main.frame.
  destruct (Main.drain _ _ _) as [[h run] unread]; cbn [fst snd].
  now destruct (Main.rest_of_frame _ _).
Qed.

End Frame.

(** ** The boundary clamp *)

(** When either vertical test fires, the last [setPosition] is given the
    [heartX] read before the clamp: the horizontal correction is lost. *)
Lemma constrain_vertical_restores_x (b : BattleBox) (h : Heart) :
  F32.ltb (y h) (F32.of_int (box_y b + 1)) = true \/
  F32.gtb (y h) (F32.of_int (box_y b + height b - 1)) = true ->
  x (Main.constrain b h) = x h.
Proof.
  unfold Main.constrain; intros [H|H].
  - rewrite H; destruct (F32.gtb (y h) _); reflexivity.
  - rewrite H; reflexivity.
Qed.



(** ** Quitting *)

Lemma is_quit_not_ERR (ch : Z) : Main.is_quit ch = true -> (ch =? ERR) = false.
Proof.
  unfold Main.is_quit, ERR; intros H; apply orb_prop in H as [H|H];
    apply Z.eqb_eq in H; subst; reflexivity.
Qed.

Lemma drain_quit (pre post : list Z) (ch : Z) (h : Heart) (run : bool) :
  Forall (fun k => k <> ERR /\ Main.is_quit k = false) pre ->
  Main.is_quit ch = true ->
  Main.drain (pre ++ ch :: post) h run = (run_keys pre h, false, post).
Proof.
  intros Hpre Hq; revert h; induction Hpre as [|k pre [Hk Hnq] _ IH]; intros h; simpl.
  - now rewrite (is_quit_not_ERR _ Hq), Hq.
  - apply Z.eqb_neq in Hk; rewrite Hk, Hnq; apply IH.
Qed.

Lemma game_loop_stopped (input : list (list Z)) (carry : list Z) (w : Main.World) :
  Main.running w = false -> Main.game_loop input carry w = w.
Proof. intros H; destruct input; simpl; [|rewrite H]; reflexivity. Qed.

(** C3 (counterexample). The entity is moving right; a frame whose only key
    is 'q' still advances it, redraws it, flushes and sleeps before the loop
    ends. *)
Lemma quit_frame_still_runs :
  let w := fst (Main.frame [KEY_RIGHT] (Main.init 96 24 80)) in
  let w' := Main.game_loop [[113]] [] w in
  Main.running w' = false /\
  x (Main.heart w') <> x (Main.heart w) /\
  Main.screen w' =
    Main.screen w ++ [Attron (COLOR_PAIR 1); Mvaddch 12 41 96; Attroff (COLOR_PAIR 1);
                      Refresh; Usleep 16667].
Proof. vm_compute; repeat split; try reflexivity; discriminate. Qed.

(** C3 (amended). When a quit key is read during the drain, the drain stops
    there: the keys behind it stay unread and [running] becomes false.  The
    rest of that iteration is still executed once, on the entity as the keys
    before the quit key left it: update, clamp, redraw, flush and sleep.  The
    loop ends after that iteration, whatever input follows. *)
Theorem quit_ends_loop_after_the_frame
  (pre post : list Z) (ch : Z) (later : list (list Z)) (w : Main.World) :
  Main.running w = true ->
  Forall (fun k => k <> ERR /\ Main.is_quit k = false) pre ->
  Main.is_quit ch = true ->
  let h := Heart_.draw (Main.constrain (Main.battleBox w)
                          (Heart_.update (run_keys pre (Main.heart w)))) in
  Main.game_loop ((pre ++ ch :: post) :: later) [] w =
    {| Main.heart := snd h;  Main.battleBox := Main.battleBox w;
       Main.running := false;
       Main.screen := Main.screen w ++ fst h ++ [Refresh; Usleep 16667] |}.
Proof.
  intros Hrun Hpre Hq h; cbn [Main.game_loop app]; rewrite Hrun.
  rewrite Frame.frame_eq, (drain_quit _ _ _ _ _ Hpre Hq); cbn [fst snd].
  rewrite Frame.rest_of_frame_eq; cbn [fst snd].
  now rewrite game_loop_stopped.
Qed.

Lemma quit_ends_loop_after_the_frame_witness :
  Main.game_loop (([KEY_RIGHT] ++ 113 :: [32]) :: [[KEY_UP]]) [] (Main.init 96 24 80) =
    {| Main.heart :=
         snd (Heart_.draw (Main.constrain (Main.battleBox (Main.init 96 24 80))
                (Heart_.update (run_keys [KEY_RIGHT] (Main.heart (Main.init 96 24 80))))));
       Main.battleBox := Main.battleBox (Main.init 96 24 80);
       Main.running := false;
       Main.screen :=
         Main.screen (Main.init 96 24 80) ++
         fst (Heart_.draw (Main.constrain (Main.battleBox (Main.init 96 24 80))
                (Heart_.update (run_keys [KEY_RIGHT] (Main.heart (Main.init 96 24 80)))))) ++
         [Refresh; Usleep 16667] |}.
Proof.
  apply (quit_ends_loop_after_the_frame [KEY_RIGHT] [32] 113 [[KEY_UP]] (Main.init 96 24 80)).
  - reflexivity.
  - repeat constructor; discriminate.
  - reflexivity.
Defined.

(** ** Drawing the region *)

Lemma in_cells (evs : list event) (r c : Z) :
  In (r, c) (cells evs) <-> exists ch, In (Mvaddch r c ch) evs.
Proof.
  unfold cells; rewrite in_flat_map; split.
  - intros (e & He & Hin); destruct e; simpl in Hin; try contradiction.
    destruct Hin as [[= <- <-]|[]]; eauto.
  - intros (ch & Hin); exists (Mvaddch r c ch); simpl; auto.
Qed.

Lemma in_cols_on_row (evs : list event) (r c : Z) :
  In c (cols_on_row r evs) <-> In (r, c) (cells evs).
Proof.
  unfold cols_on_row; rewrite in_map_iff; split.
  - intros ([r' c'] & <- & Hin); apply filter_In in Hin as [Hin Hr].
    simpl in Hr; apply Z.eqb_eq in Hr; now subst.
  - intros Hin; exists (r, c); split; [reflexivity|].
    apply filter_In; split; [assumption | apply Z.eqb_refl].
Qed.

Lemma in_top_bottom (b : BattleBox) (r c ch : Z) :
  In (Mvaddch r c ch) (BattleBox_.top_bottom b) <->
  ch = SPACE /\ (r = box_y b \/ r = box_y b + height b) /\
  box_x b - 1 <= c <= box_x b + width b + 1.
Proof.
  unfold BattleBox_.top_bottom; rewrite in_flat_map; split.
  - intros (i & Hi & Hin); apply in_for_range in Hi; simpl in Hin.
    destruct Hin as [[= <- <- <-]|[[= <- <- <-]|[]]]; repeat split; auto; lia.
  - intros (-> & Hr & Hc); exists (c - box_x b); split; [apply in_for_range; lia|].
    replace (box_x b + (c - box_x b)) with c by lia.
    simpl; destruct Hr as [-> | ->]; auto.
Qed.

Lemma in_left_right (b : BattleBox) (r c ch : Z) :
  In (Mvaddch r c ch) (BattleBox_.left_right b) <->
  ch = SPACE /\ box_y b <= r <= box_y b + height b /\
  (c = box_x b - 1 \/ c = box_x b \/ c = box_x b + width b \/ c = box_x b + width b + 1).
Proof.
  unfold BattleBox_.left_right; rewrite in_flat_map; split.
  - intros (i & Hi & Hin); apply in_for_range in Hi; simpl in Hin.
    destruct Hin as [[= <- <- <-]|[[= <- <- <-]|[[= <- <- <-]|[[= <- <- <-]|[]]]]];
      repeat split; auto; try lia.
  - intros (-> & Hr & Hc); exists (r - box_y b); split; [apply in_for_range; lia|].
    replace (box_y b + (r - box_y b)) with r by lia.
    simpl; destruct Hc as [-> | [-> | [-> | ->]]]; auto.
    do 3 right; left; f_equal; lia.
Qed.

Lemma box_cells (b : BattleBox) (r c : Z) :
  needsRedraw b = true ->
  In (r, c) (cells (fst (BattleBox_.draw b))) <->
  ((r = box_y b \/ r = box_y b + height b) /\
   box_x b - 1 <= c <= box_x b + width b + 1) \/
  (box_y b <= r <= box_y b + height b /\
   (c = box_x b - 1 \/ c = box_x b \/ c = box_x b + width b \/ c = box_x b + width b + 1)).
Proof.
  intros Hd; unfold BattleBox_.draw; rewrite Hd; cbn [negb fst].
  rewrite in_cells; split.
  - intros (ch & Hin); simpl in Hin; destruct Hin as [Hin|Hin]; [discriminate|].
    apply in_app_or in Hin as [Hin|Hin]; [left; now apply in_top_bottom in Hin|].
    apply in_app_or in Hin as [Hin|Hin]; [right; now apply in_left_right in Hin|].
    destruct Hin as [Hin|[]]; discriminate.
  - intros H; exists SPACE; simpl; right; apply in_or_app.
    destruct H as [H|H]; [left; now apply in_top_bottom|].
    right; apply in_or_app; left; now apply in_left_right.
Qed.

(** C4 (counterexample). For the box of [main] (40 wide, top row 4), the
    top border row is written at 43 distinct columns, not 42. *)
Lemma top_row_is_43_columns :
  let b := BattleBox_.new 20 4 40 16 in
  List.length (distinct_cols (box_y b) (fst (BattleBox_.draw b))) = 43%nat /\
  List.length (distinct_cols (box_y b) (fst (BattleBox_.draw b))) <>
    Z.to_nat (width b + 2).
Proof. vm_compute; split; [reflexivity | discriminate]. Qed.

(** C4 (amended). [draw] with the dirty flag set writes exactly these cells:
    the top row [y] and the bottom row [y + height] at every column from
    [x - 1] through [x + width + 1], that is [width + 3] columns each, and
    the four columns [x - 1], [x], [x + width], [x + width + 1] on every row
    from [y] through [y + height]; it clears the flag.  With the flag clear
    it makes no call at all and changes nothing. *)
Theorem draw_box_spec (b : BattleBox) :
  0 <= width b ->
  (needsRedraw b = true ->
   let evs := fst (BattleBox_.draw b) in
   (forall r c, In (r, c) (cells evs) <->
      ((r = box_y b \/ r = box_y b + height b) /\
       box_x b - 1 <= c <= box_x b + width b + 1) \/
      (box_y b <= r <= box_y b + height b /\
       (c = box_x b - 1 \/ c = box_x b \/
        c = box_x b + width b \/ c = box_x b + width b + 1))) /\
   List.length (distinct_cols (box_y b) evs) = Z.to_nat (width b + 3) /\
   List.length (distinct_cols (box_y b + height b) evs) = Z.to_nat (width b + 3) /\
   needsRedraw (snd (BattleBox_.draw b)) = false) /\
  (needsRedraw b = false -> BattleBox_.draw b = ([], b)).
Proof.
  intros Hw; split.
  - intros Hd evs; split; [intros r c; now apply box_cells|].
    assert (Hrow : forall r, r = box_y b \/ r = box_y b + height b ->
              List.length (distinct_cols r evs) = Z.to_nat (width b + 3)).
    { intros r Hr; unfold distinct_cols.
      replace (width b + 3) with (box_x b + width b + 1 + 1 - (box_x b - 1)) by lia.
      apply length_exactly_range; [apply NoDup_nodup|].
      intros c; rewrite nodup_In, in_cols_on_row; unfold evs; rewrite box_cells by assumption.
      split; [|now left]. intros [[_ H]|[_ H]]; lia. }
    repeat split; try (apply Hrow; auto).
    unfold BattleBox_.draw; now rewrite Hd.
  - intros Hd; unfold BattleBox_.draw; now rewrite Hd.
Qed.

Lemma draw_box_spec_witness :
  let b := BattleBox_.new 20 4 40 16 in
  List.length (distinct_cols (box_y b) (fst (BattleBox_.draw b))) = Z.to_nat (width b + 3) /\
  BattleBox_.draw (snd (BattleBox_.draw b)) = ([], snd (BattleBox_.draw b)).
Proof.
  intros b.
  assert (Hw : 0 <= width b) by (simpl; lia).
  assert (Hw' : 0 <= width (snd (BattleBox_.draw b))) by (simpl; lia).
  destruct (draw_box_spec b Hw) as [Hdirty _].
  destruct (Hdirty eq_refl) as (_ & Hcount & _ & _).
  destruct (draw_box_spec (snd (BattleBox_.draw b)) Hw') as [_ Hclean].
  split; [exact Hcount | exact (Hclean eq_refl)].
Defined.

(** ** Setting the direction *)

(** C5 (counterexample). 2^64 is a finite, non-zero float, but its square
    overflows: the computed length is infinite and the stored direction is
    (0, 0), of length 0.  The square of 2^-100 underflows to 0: the length
    is 0 and the stored direction is (+inf, NaN). *)
Lemma setDirection_overflow :
  let big := F32.of_int (2 ^ 64) in
  let tiny := F32.div F32.one (F32.of_int (2 ^ 100)) in
  let h := Heart_.new 96 40 12 in
  (F32.is_finite big = true /\ F32.neb big F32.zero = true /\
   direction (Heart_.setDirection big F32.zero h) = (F32.zero, F32.zero) /\
   ~ unit_length (Heart_.setDirection big F32.zero h)) /\
  (F32.is_finite tiny = true /\ F32.neb tiny F32.zero = true /\
   direction (Heart_.setDirection tiny F32.zero h) = (S754_infinity false, S754_nan) /\
   ~ unit_length (Heart_.setDirection tiny F32.zero h)).
Proof.
  split; (split; [reflexivity | split; [reflexivity | split; [reflexivity|]]]).
  - intros (qx & qy & Hx & Hy & Hq).
    vm_compute in Hx, Hy; injection Hx as <-; injection Hy as <-.
    vm_compute in Hq; discriminate.
  - intros (qx & qy & Hx & _); vm_compute in Hx; discriminate.
Qed.

(** ** Advancing the entity *)

(** C6 (counterexample). Heading up from (40, 12) at speed 0.3f: the
    per-call displacement is -0.3f, and 12 - 0.3f is not a float, so one
    [update] stores the rounded sum, which differs from the exact one; and
    after three calls [y] is not the float [12 + 3 * (-0.3f)] either. *)
Lemma update_sum_is_rounded :
  let h := Heart_.setDirection F32.zero F32.m_one (Heart_.new 96 40 12) in
  moving h = true /\
  (exists q0 qd q1 : Q,
     F32.to_Q (y h) = Some q0 /\ F32.to_Q (delta_y h) = Some qd /\
     F32.to_Q (y (Heart_.update h)) = Some q1 /\ ~ (q1 == q0 + qd)%Q) /\
  y (Nat.iter 3 Heart_.update h) <> F32.add (y h) (F32.mul (F32.of_int 3) (delta_y h)).
Proof.
  repeat split.
  - do 3 eexists; split; [reflexivity | split; [reflexivity | split; [reflexivity|]]].
    vm_compute; discriminate.
  - vm_compute; discriminate.
Qed.

Lemma update_moving (h : Heart) :
  moving h = true ->
  Heart_.update h =
    Heart_.setPosition (F32.add (x h) (delta_x h)) (F32.add (y h) (delta_y h)) h.
Proof. unfold Heart_.update; now intros ->. Qed.

Lemma update_stopped (n : nat) (h : Heart) :
  moving h = false -> Nat.iter n Heart_.update h = h.
Proof.
  intros Hm; induction n as [|n IH]; simpl; [reflexivity|].
  rewrite IH; unfold Heart_.update; now rewrite Hm.
Qed.

(** C6 (amended). While [moving] is true, each [update] replaces
    [position.x] by the single-precision sum of [position.x] and
    [direction.x * speed * aspectRatio], and [position.y] by that of
    [position.y] and [direction.y * speed]; the two displacements are the
    same at every call, so [n] calls add them [n] times, rounding after each
    addition.  While [moving] is false, [update] changes nothing. *)
Theorem update_repeated (n : nat) (h : Heart) :
  Nat.iter n Heart_.update h =
    if moving h then
      Heart_.setPosition (Nat.iter n (fun p => F32.add p (delta_x h)) (x h))
                         (Nat.iter n (fun p => F32.add p (delta_y h)) (y h)) h
    else h.
Proof.
  destruct (moving h) eqn:Hm; [|now apply update_stopped].
  induction n as [|n IH]; [simpl; now rewrite setPosition_same|].
  rewrite !Nat.iter_succ, IH, update_moving by exact Hm; reflexivity.
Qed.

(** ** Aspect ratio and speed *)

Module Tuning.

Lemma aspect_values_closed (a : float) :
  In a aspect_values ->
  In (aspect_up a) aspect_values /\ In (aspect_down a) aspect_values /\
  within F32.one F32.five a = true /\ within_exact 1 5 a = true.
Proof.
  assert (H : forallb (fun a => F32.mem (aspect_up a) aspect_values &&
                               F32.mem (aspect_down a) aspect_values &&
                               within F32.one F32.five a &&
                               within_exact 1 5 a) aspect_values = true)
    by (vm_compute; reflexivity).
  rewrite forallb_forall in H; intros Ha; specialize (H a Ha).
  apply andb_prop in H as [H He]; apply andb_prop in H as [H Hw];
    apply andb_prop in H as [Hu Hd].
  auto using mem_In.
Qed.

Lemma speed_values_closed (s : float) :
  In s speed_values ->
  In (speed_up s) speed_values /\ In (speed_down s) speed_values /\
  within F32.c0_05 F32.one s = true /\ within_exact (5 # 100) 1 s = true.
Proof.
  assert (H : forallb (fun s => F32.mem (speed_up s) speed_values &&
                               F32.mem (speed_down s) speed_values &&
                               within F32.c0_05 F32.one s &&
                               within_exact (5 # 100) 1 s) speed_values = true)
    by (vm_compute; reflexivity).
  rewrite forallb_forall in H; intros Hs; specialize (H s Hs).
  apply andb_prop in H as [H He]; apply andb_prop in H as [H Hw];
    apply andb_prop in H as [Hu Hd].
  auto using mem_In.
Qed.

Lemma new_tuned (d startX startY : Z) : tuned (Heart_.new d startX startY).
Proof. split; apply mem_In; vm_compute; reflexivity. Qed.

(** Splits [handle_key] along its chain of key tests. *)
Ltac key_cases :=
  unfold Main.handle_key, Heart_.isMoving, Heart_.stop, Heart_.start;
  repeat match goal with
         | |- context [if (?a =? ?b) then _ else _] => destruct (a =? b) eqn:?
         | |- context [if ((?a =? ?b) || ?c) then _ else _] =>
             destruct ((a =? b) || c) eqn:?
         | |- context [if moving ?h then _ else _] => destruct (moving h) eqn:?
         end.

Lemma handle_key_tuned (ch : Z) (h : Heart) : tuned h -> tuned (Main.handle_key ch h).
Proof.
  intros [Ha Hs].
  destruct (aspect_values_closed _ Ha) as (Hau & Had & _ & _).
  destruct (speed_values_closed _ Hs) as (Hsu & Hsd & _ & _).
  key_cases;
    try (split; [first [exact Ha | exact Hau | exact Had]
                | first [exact Hs | exact Hsu | exact Hsd]]);
    match goal with
    | |- tuned (Heart_.setDirection ?dx ?dy h) =>
        destruct (Frame.setDirection_keeps dx dy h) as (_ & Es & Ea & _);
        unfold tuned; now rewrite Es, Ea
    end.
Qed.

Lemma run_keys_tuned (ks : list Z) (h : Heart) : tuned h -> tuned (run_keys ks h).
Proof.
  revert h; induction ks as [|k ks IH]; intros h Hh; [exact Hh|].
  apply IH, handle_key_tuned, Hh.
Qed.

Lemma drain_tuned (pending : list Z) (h : Heart) (run : bool) :
  tuned h -> tuned (fst (fst (Main.drain pending h run))).
Proof.
  revert h; induction pending as [|k ks IH]; intros h Hh; simpl; [exact Hh|].
  destruct (k =? ERR); [exact Hh|]. destruct (Main.is_quit k); [exact Hh|].
  apply IH, handle_key_tuned, Hh.
Qed.

Lemma frame_tuned (pending : list Z) (w : Main.World) :
  tuned (Main.heart w) -> tuned (Main.heart (fst (Main.frame pending w))).
Proof.
  intros Hw; rewrite Frame.frame_eq; cbn [fst Main.heart].
  pose proof (drain_tuned pending _ (Main.running w) Hw) as [Ha Hs].
  destruct (Frame.rest_of_frame_keeps (Main.battleBox w)
              (fst (fst (Main.drain pending (Main.heart w) (Main.running w)))))
    as (_ & Es & Ea & _).
  unfold tuned; now rewrite Es, Ea.
Qed.

Lemma game_loop_tuned (input : list (list Z)) (carry : list Z) (w : Main.World) :
  tuned (Main.heart w) -> tuned (Main.heart (Main.game_loop input carry w)).
Proof.
  revert carry w; induction input as [|keys later IH]; intros carry w Hw; simpl; [exact Hw|].
  destruct (Main.running w); [|exact Hw].
  pose proof (frame_tuned (carry ++ keys) w Hw) as Hf.
  destruct (Main.frame (carry ++ keys) w) as [w' unread]; now apply IH.
Qed.

Lemma init_heart (d maxY maxX : Z) :
  Main.heart (Main.init d maxY maxX) = Heart_.new d (Z.quot maxX 2) (Z.quot maxY 2).
Proof. reflexivity. Qed.

Lemma tuned_within (h : Heart) :
  tuned h ->
  (within F32.one F32.five (aspectRatio h) = true /\
   within_exact 1 5 (aspectRatio h) = true) /\
  (within F32.c0_05 F32.one (baseSpeed h) = true /\
   within_exact (5 # 100) 1 (baseSpeed h) = true).
Proof.
  intros [Ha Hs]; split;
    [now apply aspect_values_closed in Ha | now apply speed_values_closed in Hs].
Qed.

Lemma tuning_key_cases (ch : Z) :
  tuning_key ch = true ->
  ch = 43 \/ ch = 61 \/ ch = 45 \/ ch = 95 \/ ch = 91 \/ ch = 93.
Proof.
  unfold tuning_key; intros H.
  repeat (apply orb_prop in H as [H|H]); apply Z.eqb_eq in H; auto 10.
Qed.

End Tuning.

(** C7. Starting from the entity as constructed (aspect ratio 2.0f, speed
    0.3f), after any sequence of keys, and at the end of any run of the
    loop, the aspect ratio is within [1.0, 5.0] and the speed within
    [0.05, 1.0], both by the float comparisons of the code (against 0.05f)
    and as exact values; a '+'/'=' step whose sum exceeds 5.0 stores 5.0, a '-'/'_'
    step whose difference is below 1.0 stores 1.0, a '[' step below 0.05f
    stores 0.05f and a ']' step above 1.0 stores 1.0; and these six keys
    leave position, direction and the moving flag alone. *)
Theorem aspect_and_speed_stay_in_range :
  (forall (d startX startY : Z) (ks : list Z),
     let h := run_keys ks (Heart_.new d startX startY) in
     (within F32.one F32.five (aspectRatio h) = true /\
      within_exact 1 5 (aspectRatio h) = true) /\
     (within F32.c0_05 F32.one (baseSpeed h) = true /\
      within_exact (5 # 100) 1 (baseSpeed h) = true)) /\
  (forall (d maxY maxX : Z) (input : list (list Z)),
     let h := Main.heart (Main.game_loop input [] (Main.init d maxY maxX)) in
     (within F32.one F32.five (aspectRatio h) = true /\
      within_exact 1 5 (aspectRatio h) = true) /\
     (within F32.c0_05 F32.one (baseSpeed h) = true /\
      within_exact (5 # 100) 1 (baseSpeed h) = true)) /\
  (forall (h : Heart) (ch : Z),
     tuning_key ch = true ->
     position (Main.handle_key ch h) = position h /\
     direction (Main.handle_key ch h) = direction h /\
     moving (Main.handle_key ch h) = moving h) /\
  (forall (h : Heart) (ch : Z),
     (ch = 43 \/ ch = 61 ->
      F32.gtb (F32.add (aspectRatio h) F32.c0_2) F32.five = true ->
      aspectRatio (Main.handle_key ch h) = F32.five) /\
     (ch = 45 \/ ch = 95 ->
      F32.ltb (F32.sub (aspectRatio h) F32.c0_2) F32.one = true ->
      aspectRatio (Main.handle_key ch h) = F32.one) /\
     (ch = 91 ->
      F32.ltb (F32.sub (baseSpeed h) F32.c0_05) F32.c0_05 = true ->
      baseSpeed (Main.handle_key ch h) = F32.c0_05) /\
     (ch = 93 ->
      F32.gtb (F32.add (baseSpeed h) F32.c0_05) F32.one = true ->
      baseSpeed (Main.handle_key ch h) = F32.one)).
Proof.
  split; [|split; [|split]].
  - intros d sx sy ks h; apply Tuning.tuned_within, Tuning.run_keys_tuned, Tuning.new_tuned.
  - intros d maxY maxX input h; apply Tuning.tuned_within, Tuning.game_loop_tuned.
    rewrite Tuning.init_heart; apply Tuning.new_tuned.
  - intros h ch Hk; apply Tuning.tuning_key_cases in Hk.
    destruct Hk as [-> | [-> | [-> | [-> | [-> | ->]]]]]; repeat split.
  - intros h ch; repeat split.
    + intros [-> | ->] H; unfold Main.handle_key; simpl; now rewrite H.
    + intros [-> | ->] H; unfold Main.handle_key; simpl; now rewrite H.
    + intros -> H; unfold Main.handle_key; simpl; now rewrite H.
    + intros -> H; unfold Main.handle_key; simpl; now rewrite H.
Qed.

Lemma aspect_and_speed_stay_in_range_witness :
  let h := Heart_.setAspectRatio F32.five (Heart_.new 96 40 12) in
  position (Main.handle_key 43 h) = position h /\
  aspectRatio (Main.handle_key 43 h) = F32.five.
Proof.
  intros h.
  destruct aspect_and_speed_stay_in_range as (_ & _ & Hkeep & Hsat).
  split.
  - exact (proj1 (Hkeep h 43 eq_refl)).
  - exact (proj1 (Hsat h 43) (or_introl eq_refl) eq_refl).
Defined.

(** ** Toggling motion *)

(** C9 (counterexample). After Right and Space the entity is stopped but
    still heading right.  Space starts it again, an [update] before the
    next Space moves it; the second Space then restores [moving = false]. *)
Lemma space_twice_moves_a_stopped_heart :
  let h := run_keys [KEY_RIGHT; 32] (Heart_.new 96 40 12) in
  let h1 := Main.handle_key 32 h in
  let h2 := Heart_.update h1 in
  moving h = false /\ moving (Main.handle_key 32 h2) = moving h /\
  position h2 <> position h1.
Proof. vm_compute; repeat split; discriminate. Qed.

Lemma handle_space (h : Heart) :
  Main.handle_key 32 h = Heart_.set_moving (negb (moving h)) h.
Proof.
  unfold Main.handle_key, Heart_.isMoving, Heart_.stop, Heart_.start.
  change (32 =? 32) with true; cbv iota; now destruct (moving h).
Qed.

(** C9 (amended). Handling Space twice returns [moving] to its original
    value, also with any number of [update] calls in between.  If the entity
    was moving before the first Space, those calls change nothing, so its
    position is the same at both toggles. *)
Theorem space_twice (n : nat) (h : Heart) :
  moving (Main.handle_key 32 (Nat.iter n Heart_.update (Main.handle_key 32 h))) = moving h /\
  (moving h = true ->
   Nat.iter n Heart_.update (Main.handle_key 32 h) = Main.handle_key 32 h /\
   position (Main.handle_key 32 h) = position h).
Proof.
  assert (Hm : forall k, moving (Nat.iter k Heart_.update (Main.handle_key 32 h))
                         = negb (moving h)).
  { induction k as [|k IH]; [now rewrite handle_space|].
    rewrite Nat.iter_succ.
    now destruct (Frame.update_keeps (Nat.iter k Heart_.update (Main.handle_key 32 h)))
      as (_ & _ & _ & -> & _). }
  split.
  - rewrite (handle_space (Nat.iter n _ _)), Hm; simpl; apply negb_involutive.
  - intros Ht; split.
    + apply update_stopped; rewrite handle_space; simpl; now rewrite Ht.
    + now rewrite handle_space.
Qed.

Lemma space_twice_witness :
  let h := Main.handle_key KEY_RIGHT (Heart_.new 96 40 12) in
  Nat.iter 5 Heart_.update (Main.handle_key 32 h) = Main.handle_key 32 h /\
  position (Main.handle_key 32 h) = position h.
Proof. intros h; exact (proj2 (space_twice 5 h) eq_refl). Defined.

(** ** Facts about rounding in [SpecFloat] *)

Module RoundingFacts.
Import Rounding.

Lemma dig_pos (m : positive) : 0 < dig m.
Proof. unfold dig; lia. Qed.

Lemma dig_bounds (m : positive) : 2 ^ (dig m - 1) <= Zpos m < 2 ^ dig m.
Proof.
  unfold dig; induction m as [p IH|p IH|]; cbn [digits2_pos].
  - rewrite Pos2Z.inj_succ, Z.pow_succ_r by lia.
    replace (Z.succ (Zpos (digits2_pos p)) - 1) with (Z.succ (Zpos (digits2_pos p) - 1)) by lia.
    rewrite Z.pow_succ_r by lia; lia.
  - rewrite Pos2Z.inj_succ, Z.pow_succ_r by lia.
    replace (Z.succ (Zpos (digits2_pos p)) - 1) with (Z.succ (Zpos (digits2_pos p) - 1)) by lia.
    rewrite Z.pow_succ_r by lia; lia.
  - simpl; lia.
Qed.

Lemma dig_unique (m : positive) (d : Z) :
  2 ^ (d - 1) <= Zpos m < 2 ^ d -> dig m = d.
Proof.
  intros [Hlo Hhi]; pose proof (dig_bounds m) as [Dlo Dhi]; pose proof (dig_pos m).
  destruct (Z.lt_trichotomy (dig m) d) as [Hlt|[Heq|Hgt]]; [exfalso|assumption|exfalso].
  - assert (2 ^ dig m <= 2 ^ (d - 1)) by (apply Z.pow_le_mono_r; lia). lia.
  - assert (0 <= d \/ d < 0) as [Hd|Hd] by lia.
    + assert (2 ^ d <= 2 ^ (dig m - 1)) by (apply Z.pow_le_mono_r; lia). lia.
    + rewrite (Z.pow_neg_r 2 d) in Hhi by assumption. lia.
Qed.

Lemma dig_le_mono (m1 m2 : positive) : (m1 <= m2)%positive -> dig m1 <= dig m2.
Proof.
  intros H; pose proof (dig_bounds m1) as [L1 _]; pose proof (dig_bounds m2) as [_ U2].
  pose proof (dig_pos m1); pose proof (dig_pos m2).
  destruct (Z_le_gt_dec (dig m1) (dig m2)) as [|Hgt]; [assumption|exfalso].
  assert (2 ^ dig m2 <= 2 ^ (dig m1 - 1)) by (apply Z.pow_le_mono_r; lia). lia.
Qed.

(** Shifting a mantissa left. *)
Lemma iter_xO (m d : positive) : Zpos (Pos.iter xO m d) = Zpos m * 2 ^ Zpos d.
Proof.
  induction d as [|d IH] using Pos.peano_ind.
  - simpl. lia.
  - rewrite Pos.iter_succ, Pos2Z.inj_xO, IH, Pos2Z.inj_succ, Z.pow_succ_r by lia. lia.
Qed.

Lemma dig_shift (m d : positive) : dig (Pos.iter xO m d) = dig m + Zpos d.
Proof.
  apply dig_unique; rewrite iter_xO; pose proof (dig_bounds m) as [L U]; pose proof (dig_pos m).
  replace (dig m + Zpos d - 1) with ((dig m - 1) + Zpos d) by lia.
  rewrite !Z.pow_add_r by lia.
  assert (0 < 2 ^ Zpos d) by (apply Z.pow_pos_nonneg; lia). nia.
Qed.

(** [iter_pos] carries an invariant indexed by the number of steps. *)
Lemma iter_pos_invariant {A : Type} (f : A -> A) (P : Z -> A -> Prop) :
  (forall n a, 0 <= n -> P n a -> P (n + 1) (f a)) ->
  forall p n a, 0 <= n -> P n a -> P (n + Zpos p) (iter_pos f p a).
Proof.
  intros Hstep; induction p as [p IH|p IH|]; intros n a Hn Ha; cbn [iter_pos].
  - replace (n + Zpos p~1) with (n + 1 + Zpos p + Zpos p) by lia.
    apply IH; [lia|]. apply IH; [lia|]. now apply Hstep.
  - replace (n + Zpos p~0) with (n + Zpos p + Zpos p) by lia.
    apply IH; [lia|]. now apply IH.
  - now apply Hstep.
Qed.

Lemma shr_1_spec (m : Z) (r s : bool) :
  0 <= m ->
  shr_1 {| shr_m := m; shr_r := r; shr_s := s |} =
    {| shr_m := m / 2; shr_r := Z.odd m; shr_s := r || s |}.
Proof.
  intros Hm; destruct m as [|[p|p|]|p]; try lia; cbn [shr_1].
  - reflexivity.
  - f_equal. rewrite Pos2Z.inj_xI. apply Z.div_unique with (r:=1); lia.
  - f_equal. rewrite Pos2Z.inj_xO. apply Z.div_unique with (r:=0); lia.
  - reflexivity.
Qed.


Lemma shifted_0 (M : Z) : shifted M 0 (shr_record_of_loc M loc_Exact).
Proof.
  unfold shifted; cbn [shr_record_of_loc shr_m shr_r shr_s].
  rewrite Z.pow_0_r, !Z.div_1_r, Z.mod_1_r, Z.odd_mul; repeat split.
Qed.

Lemma shifted_step (M n : Z) (mrs : shr_record) :
  0 <= M -> 0 <= n -> shifted M n mrs -> shifted M (n + 1) (shr_1 mrs).
Proof.
  intros HM Hn (Hm & Hr & Hs); destruct mrs as [m r s]; cbn [shr_m shr_r shr_s] in *.
  assert (Hp : 0 < 2 ^ n) by (apply Z.pow_pos_nonneg; lia).
  rewrite shr_1_spec by (subst m; apply Z.div_pos; lia).
  unfold shifted; cbn [shr_m shr_r shr_s].
  rewrite Z.pow_add_r, Z.pow_1_r by lia.
  repeat split.
  - subst m. rewrite Z.div_div by lia. reflexivity.
  - subst m. f_equal. rewrite (Z.mul_comm (2 ^ n) 2), Z.div_mul_cancel_l by lia. reflexivity.
  - subst r s. rewrite Z.rem_mul_r by lia.
    pose proof (Z.mod_pos_bound (2 * M) (2 ^ n) Hp) as Hb.
    pose proof (Z.mod_pos_bound (2 * M / 2 ^ n) 2 ltac:(lia)) as Hb2.
    rewrite Zmod_odd.
    destruct (Z.eqb_spec ((2 * M) mod 2 ^ n) 0) as [E0|N0];
      destruct (Z.odd (2 * M / 2 ^ n)); cbn [negb orb];
      match goal with |- _ = negb (?a =? 0) => destruct (Z.eqb_spec a 0) end;
      cbn [negb]; try reflexivity; exfalso; nia.
Qed.

Lemma shifted_iter (M : Z) (p : positive) :
  0 <= M ->
  shifted M (Zpos p) (iter_pos shr_1 p (shr_record_of_loc M loc_Exact)).
Proof.
  intros HM.
  apply (iter_pos_invariant shr_1 (fun n mrs => shifted M n mrs)
           (fun n a Hn Ha => shifted_step M n a HM Hn Ha) p 0); [lia|apply shifted_0].
Qed.

Lemma round_shifted (M n : Z) (mrs : shr_record) :
  0 <= M -> 0 <= n -> shifted M n mrs ->
  round_nearest_even (shr_m mrs) (loc_of_shr_record mrs) = nearest M n.
Proof.
  intros HM Hn (Hm & Hr & Hs); destruct mrs as [m r s]; cbn [shr_m shr_r shr_s] in *.
  assert (Hp : 0 < 2 ^ n) by (apply Z.pow_pos_nonneg; lia).
  assert (H2 : 2 * (M mod 2 ^ n) =
               (2 * M) mod 2 ^ n + 2 ^ n * (if Z.odd (2 * M / 2 ^ n) then 1 else 0)).
  { rewrite <- Z.mul_mod_distr_l, (Z.mul_comm 2 (2 ^ n)), Z.rem_mul_r, Zmod_odd by lia.
    reflexivity. }
  pose proof (Z.mod_pos_bound (2 * M) (2 ^ n) Hp) as Hb.
  unfold nearest; rewrite H2, <- Hm, <- Hr.
  destruct (Z.eqb_spec ((2 * M) mod 2 ^ n) 0) as [E0|N0]; cbn [negb] in Hs; subst s;
    destruct r; cbn [loc_of_shr_record round_nearest_even].
  - rewrite E0; replace (0 + 2 ^ n * 1 ?= 2 ^ n) with Eq; [reflexivity|].
    symmetry; apply Z.compare_eq_iff; lia.
  - rewrite E0; replace (0 + 2 ^ n * 0 ?= 2 ^ n) with Lt; [reflexivity|].
    symmetry; apply Z.compare_lt_iff; lia.
  - match goal with |- _ = match ?c with _ => _ end => replace c with Gt end; [reflexivity|].
    symmetry; apply Z.compare_gt_iff; lia.
  - match goal with |- _ = match ?c with _ => _ end => replace c with Lt end; [reflexivity|].
    symmetry; apply Z.compare_lt_iff; lia.
Qed.

Lemma nearest_between (M n : Z) :
  0 <= n -> M / 2 ^ n <= nearest M n <= M / 2 ^ n + 1.
Proof.
  intros Hn; unfold nearest.
  destruct (2 * (M mod 2 ^ n) ?= 2 ^ n); [destruct (Z.even (M / 2 ^ n))| |]; lia.
Qed.

Lemma nearest_exact (k n : Z) : 0 <= n -> nearest (k * 2 ^ n) n = k.
Proof.
  intros Hn; assert (Hp : 0 < 2 ^ n) by (apply Z.pow_pos_nonneg; lia).
  unfold nearest; rewrite Z.mod_mul, Z.div_mul by lia.
  destruct (Z.compare_spec (2 * 0) (2 ^ n)); [lia | reflexivity | lia].
Qed.

Lemma nearest_mono (M1 M2 n : Z) :
  0 <= n -> M1 <= M2 -> nearest M1 n <= nearest M2 n.
Proof.
  intros Hn HM; assert (Hp : 0 < 2 ^ n) by (apply Z.pow_pos_nonneg; lia).
  pose proof (Z.div_le_mono M1 M2 (2 ^ n) Hp HM) as Hk.
  pose proof (nearest_between M1 n Hn) as B1; pose proof (nearest_between M2 n Hn) as B2.
  destruct (Z.eq_dec (M1 / 2 ^ n) (M2 / 2 ^ n)) as [Ek|Nk]; [|lia].
  assert (Hr : M1 mod 2 ^ n <= M2 mod 2 ^ n).
  { pose proof (Z.div_mod M1 (2 ^ n) ltac:(lia)); pose proof (Z.div_mod M2 (2 ^ n) ltac:(lia)).
    rewrite Ek in *. lia. }
  unfold nearest; rewrite Ek.
  destruct (Z.compare_spec (2 * (M1 mod 2 ^ n)) (2 ^ n));
    destruct (Z.compare_spec (2 * (M2 mod 2 ^ n)) (2 ^ n));
    destruct (Z.even (M2 / 2 ^ n)); lia.
Qed.

(** *** Comparison *)

Lemma compare_antisym (a b : spec_float) :
  SFcompare b a = option_map CompOpp (SFcompare a b).
Proof.
  destruct a as [sa|sa| |sa ma ea], b as [sb|sb| |sb mb eb]; cbn [SFcompare option_map];
    try reflexivity;
    repeat match goal with s : bool |- _ => destruct s end; try reflexivity;
    rewrite (Z.compare_antisym ea eb);
    destruct (ea ?= eb); cbn [CompOpp]; try reflexivity;
    now rewrite (Pos.compare_cont_antisym ma mb Eq), ?CompOpp_involutive.
Qed.

Lemma leb_not_ltb (a b : spec_float) : SFleb a b = true -> SFltb b a = false.
Proof.
  unfold SFleb, SFltb; rewrite (compare_antisym a b).
  now destruct (SFcompare a b) as [[| |]|].
Qed.



(** Floats that compare equal are the same float, or are both zeros. *)
Lemma compare_Eq (a b : spec_float) :
  SFcompare a b = Some Eq ->
  a = b \/ exists s t, a = S754_zero s /\ b = S754_zero t.
Proof.
  destruct a as [sa|sa| |sa ma ea], b as [sb|sb| |sb mb eb]; cbn [SFcompare];
    try discriminate; repeat match goal with s : bool |- _ => destruct s end;
    try discriminate; eauto;
    destruct (Z.compare_spec ea eb) as [->|L|G]; try discriminate;
    rewrite Pos.compare_cont_spec; cbn [Pos.switch_Eq];
    destruct (Pos.compare_spec ma mb) as [->|L|G]; try discriminate; auto.
Qed.

Section Format.
Variables prec emax : Z.
Hypothesis Hprec : 0 < prec.
Hypothesis Hemax : prec < emax.

Local Abbreviation emin := (SpecFloat.emin prec emax).
Local Abbreviation fexp := (SpecFloat.fexp prec emax).
Local Abbreviation top := (Rounding.top prec emax).
Local Abbreviation ord := (Rounding.ord prec emax).
Local Abbreviation rounded := (Rounding.rounded prec emax).
Local Abbreviation clip := (Rounding.clip prec emax).
Local Abbreviation normalized := (Rounding.normalized prec emax).
Local Abbreviation number := (Rounding.number prec emax).

Lemma binary_round_aux_exact (s : bool) (mz : positive) (ez : Z) :
  fexp (dig mz + ez) = ez ->
  binary_round_aux prec emax s (Zpos mz) ez loc_Exact =
    if ez <=? emax - prec then S754_finite s mz ez else S754_infinity s.
Proof.
  intros H; unfold binary_round_aux, shr_fexp.
  cbn [Zdigits2]; fold (dig mz); rewrite H, Z.sub_diag.
  cbn [shr shr_record_of_loc loc_of_shr_record round_nearest_even shr_m].
  cbn [Zdigits2]; fold (dig mz); rewrite H, Z.sub_diag. reflexivity.
Qed.

Lemma pow2_pos (n : Z) : 0 <= n -> 0 < 2 ^ n.
Proof. intros; apply Z.pow_pos_nonneg; lia. Qed.

Lemma pow2_le (a b : Z) : 0 <= a <= b -> 2 ^ a <= 2 ^ b.
Proof. intros; apply Z.pow_le_mono_r; lia. Qed.

(** A scaled mantissa lies between the powers of two its digits give. *)
Lemma scaled_bounds (m : positive) (c : Z) :
  0 <= c -> 2 ^ (dig m - 1 + c) <= Zpos m * 2 ^ c < 2 ^ (dig m + c).
Proof.
  intros Hc; pose proof (dig_bounds m) as [L U]; pose proof (dig_pos m).
  rewrite !Z.pow_add_r by lia. pose proof (pow2_pos c Hc). nia.
Qed.

Lemma binary_round_small (m : positive) (e : Z) :
  emin <= e -> dig m <= prec ->
  exists mz, Zpos mz * 2 ^ (fexp (dig m + e) - emin) = Zpos m * 2 ^ (e - emin) /\
             dig mz + fexp (dig m + e) = dig m + e /\
             binary_round prec emax false m e =
               if fexp (dig m + e) <=? emax - prec
               then S754_finite false mz (fexp (dig m + e)) else S754_infinity false.
Proof.
  intros He Hd; unfold binary_round; fold (dig m).
  set (E := fexp (dig m + e)).
  assert (HE : emin <= E <= e) by (unfold E, SpecFloat.fexp; lia).
  unfold shl_align; destruct (E - e) as [|d|d] eqn:Hs; try lia.
  - assert (E = e) by lia. exists m; repeat split; try congruence.
    rewrite binary_round_aux_exact by (unfold E in *; congruence).
    replace e with E by assumption; reflexivity.
  - exists (Pos.iter xO m d).
    assert (Hq : Zpos d = e - E) by lia.
    split; [|split].
    + rewrite iter_xO, Hq, <- Z.mul_assoc, <- Z.pow_add_r by lia. f_equal; f_equal; lia.
    + rewrite dig_shift, Hq; lia.
    + apply binary_round_aux_exact. rewrite dig_shift, Hq.
      replace (dig m + (e - E) + E) with (dig m + e) by lia. reflexivity.
Qed.

Lemma quotient_bounds (m : positive) :
  prec < dig m ->
  2 ^ (prec - 1) <= Zpos m / 2 ^ (dig m - prec) < 2 ^ prec.
Proof.
  intros Hd; pose proof (dig_bounds m) as [L U].
  assert (Hn : 0 < 2 ^ (dig m - prec)) by (apply pow2_pos; lia).
  split.
  - apply Z.div_le_lower_bound; [lia|].
    rewrite <- Z.pow_add_r by lia. replace (dig m - prec + (prec - 1)) with (dig m - 1) by lia.
    exact L.
  - apply Z.div_lt_upper_bound; [lia|].
    rewrite <- Z.pow_add_r by lia. replace (dig m - prec + prec) with (dig m) by lia.
    exact U.
Qed.

Lemma nearest_bounds (m : positive) :
  prec < dig m -> 2 ^ (prec - 1) <= nearest (Zpos m) (dig m - prec) <= 2 ^ prec.
Proof.
  intros Hd; pose proof (quotient_bounds m Hd).
  pose proof (nearest_between (Zpos m) (dig m - prec) ltac:(lia)). lia.
Qed.

(** What [binary_round_aux] answers when it has to shift right. *)
Lemma binary_round_aux_shift (s : bool) (m : positive) (e : Z) :
  e < fexp (dig m + e) ->
  let E := fexp (dig m + e) in
  let k := nearest (Zpos m) (E - e) in
  let r := binary_round_aux prec emax s (Zpos m) e loc_Exact in
  (k = 0 /\ r = S754_zero s) \/
  (exists mz ez,
     Zpos mz * 2 ^ (ez - E) = k /\ E <= ez /\ fexp (dig mz + ez) = ez /\
     r = if ez <=? emax - prec then S754_finite s mz ez else S754_infinity s).
Proof.
  intros HE E k r.
  assert (Hn : 0 < E - e) by (unfold E; lia).
  assert (HEmin : emin <= E) by (unfold E, SpecFloat.fexp; lia).
  assert (HEd : dig m + e - prec <= E) by (unfold E, SpecFloat.fexp; lia).
  pose proof (dig_bounds m) as [Lm Um]; pose proof (dig_pos m) as Hdm.
  pose proof (nearest_between (Zpos m) (E - e) ltac:(lia)) as Hk; fold k in Hk.
  assert (Hp : 0 < 2 ^ (E - e)) by (apply pow2_pos; lia).
  assert (Hq0 : 0 <= Zpos m / 2 ^ (E - e)) by (apply Z.div_pos; lia).
  assert (Hq1 : Zpos m / 2 ^ (E - e) < 2 ^ prec).
  { apply Z.div_lt_upper_bound; [lia|]. rewrite <- Z.pow_add_r by lia.
    eapply Z.lt_le_trans; [exact Um|]. apply pow2_le; lia. }
  assert (Hr : r = let '(mrs'', e'') := shr_fexp prec emax k E loc_Exact in
                   match shr_m mrs'' with
                   | Z0 => S754_zero s
                   | Zpos mz =>
                       if e'' <=? emax - prec then S754_finite s mz e'' else S754_infinity s
                   | Zneg _ => S754_nan
                   end).
  { unfold r, binary_round_aux, shr_fexp at 1; cbn [Zdigits2]; fold (dig m); fold E.
    destruct (E - e) as [|p|p] eqn:Hs; try lia. cbn [shr].
    pose proof (shifted_iter (Zpos m) p ltac:(lia)) as Hsh.
    rewrite (round_shifted (Zpos m) (Zpos p)) by (assumption || lia). fold k.
    replace (e + Zpos p) with E by lia. reflexivity. }
  rewrite Hr; clear Hr.
  destruct k as [|q|q] eqn:Ek; try lia.
  - (* rounded to zero *)
    left; split; [reflexivity|]. unfold shr_fexp; cbn [Zdigits2 shr_record_of_loc].
    destruct (fexp (0 + E) - E) as [|p'|p'] eqn:Hs'; [reflexivity | exfalso | reflexivity].
    unfold SpecFloat.fexp in Hs'; lia.
  - right. destruct (Z_lt_le_dec (Zpos q) (2 ^ prec)) as [Hlt|Hge].
    + (* the rounded mantissa fits *)
      assert (Hdq : dig q <= prec).
      { pose proof (dig_bounds q) as [Lq _]; pose proof (dig_pos q).
        destruct (Z_le_gt_dec (dig q) prec) as [|Hgt]; [assumption|exfalso].
        assert (2 ^ prec <= 2 ^ (dig q - 1)) by (apply pow2_le; lia). lia. }
      assert (Hdq' : emin < E -> dig q = prec).
      { intros HE'. assert (HEq : E = dig m + e - prec) by (unfold E, SpecFloat.fexp in *; lia).
        assert (Hd : prec < dig m) by lia.
        pose proof (quotient_bounds m Hd) as [Lq _].
        replace (dig m - prec) with (E - e) in Lq by lia.
        pose proof (dig_bounds q) as [_ Uq].
        destruct (Z_le_gt_dec prec (dig q)) as [|Hgt]; [lia|exfalso].
        assert (2 ^ dig q <= 2 ^ (prec - 1)) by (apply pow2_le; pose proof (dig_pos q); lia).
        lia. }
      assert (Hf : fexp (dig q + E) = E) by (unfold SpecFloat.fexp in *; lia).
      exists q, E; rewrite Z.sub_diag, Z.pow_0_r, Z.mul_1_r.
      repeat split; try lia; try assumption.
      unfold shr_fexp; cbn [Zdigits2]; fold (dig q); rewrite Hf, Z.sub_diag.
      reflexivity.
    + (* the rounded mantissa is 2^prec: one more shift *)
      assert (Hq2 : Zpos q = 2 ^ prec) by lia.
      assert (Hdq : dig q = prec + 1).
      { apply dig_unique. replace (prec + 1 - 1) with prec by lia.
        rewrite Z.pow_add_r, Z.pow_1_r by lia. lia. }
      assert (Hhalf : Zpos q / 2 = 2 ^ (prec - 1)).
      { rewrite Hq2. replace prec with (prec - 1 + 1) at 1 by lia.
        rewrite Z.pow_add_r, Z.pow_1_r by lia. apply Z.div_mul; lia. }
      pose proof (pow2_pos (prec - 1) ltac:(lia)) as Hpp.
      destruct (2 ^ (prec - 1)) as [|q'|q'] eqn:Eq'; try lia.
      assert (Hdq' : dig q' = prec).
      { apply dig_unique. rewrite <- Eq'. split; [lia|]. apply Z.pow_lt_mono_r; lia. }
      assert (Hf : fexp (dig q' + (E + 1)) = E + 1)
        by (rewrite Hdq'; unfold SpecFloat.fexp in *; lia).
      exists q', (E + 1). split.
      { rewrite <- Eq', Hq2. replace (E + 1 - E) with 1 by lia.
        rewrite <- Z.pow_add_r by lia. f_equal; lia. }
      split; [lia|]. split; [exact Hf|].
      unfold shr_fexp; cbn [Zdigits2]; fold (dig q); rewrite Hdq.
      replace (fexp (prec + 1 + E) - E) with 1 by (unfold SpecFloat.fexp in *; lia).
      cbn [shr iter_pos shr_record_of_loc]. rewrite shr_1_spec by lia.
      cbn [shr_m]. rewrite Hhalf. reflexivity.
Qed.

Lemma binary_round_large (m : positive) (e : Z) :
  emin <= e -> prec < dig m ->
  exists mz ez,
    Zpos mz * 2 ^ (ez - emin) =
      nearest (Zpos m) (dig m - prec) * 2 ^ (dig m - prec + e - emin) /\
    fexp (dig mz + ez) = ez /\ e < ez /\
    binary_round prec emax false m e =
      if ez <=? emax - prec then S754_finite false mz ez else S754_infinity false.
Proof.
  intros He Hd.
  assert (HE : fexp (dig m + e) = e + (dig m - prec)) by (unfold SpecFloat.fexp; lia).
  pose proof (nearest_bounds m Hd) as [Lk _].
  pose proof (pow2_pos (prec - 1) ltac:(lia)) as Hpp.
  destruct (binary_round_aux_shift false m e ltac:(lia))
    as [[Hk _]|(mz & ez & Hv & HEz & Hc & Hr)];
    rewrite HE in *; replace (e + (dig m - prec) - e) with (dig m - prec) in * by lia;
    [lia|].
  exists mz, ez; split; [|split; [exact Hc|split; [lia|]]].
  - rewrite <- Hv. replace (ez - emin) with (ez - (e + (dig m - prec)) + (dig m - prec + e - emin)) by lia.
    rewrite Z.pow_add_r by lia. ring.
  - rewrite <- Hr. unfold binary_round; fold (dig m); rewrite HE.
    unfold shl_align; destruct (e + (dig m - prec) - e) eqn:Hs; (reflexivity || lia).
Qed.

Lemma emin_le_emax : emin <= emax - prec.
Proof. unfold SpecFloat.emin; lia. Qed.

(** Canonical mantissas have at most [prec] digits, exactly [prec] above
    [emin]. *)
Lemma canonical_digits (m : positive) (e : Z) :
  fexp (dig m + e) = e -> emin <= e /\ dig m <= prec /\ (emin < e -> dig m = prec).
Proof. unfold SpecFloat.fexp; lia. Qed.

Lemma bounded_canonical (m : positive) (e : Z) :
  bounded prec emax m e = true -> fexp (dig m + e) = e /\ e <= emax - prec.
Proof.
  unfold bounded, canonical_mantissa; fold (dig m); intros H.
  apply andb_prop in H as [H1 H2]; split; [now apply Z.eqb_eq | now apply Z.leb_le].
Qed.

Lemma canonical_below_top (m : positive) (e : Z) :
  fexp (dig m + e) = e -> e <= emax - prec -> 0 < Zpos m * 2 ^ (e - emin) < top.
Proof.
  intros Hc He; destruct (canonical_digits m e Hc) as (H1 & H2 & _).
  pose proof (scaled_bounds m (e - emin) ltac:(lia)) as [L U].
  pose proof (pow2_pos (e - emin) ltac:(lia)).
  split; [nia|]. eapply Z.lt_le_trans; [exact U|]. unfold top; apply pow2_le.
  pose proof (dig_pos m); lia.
Qed.

Theorem round_pos_spec (m : positive) (e : Z) :
  emin <= e ->
  let r := binary_round prec emax false m e in
  valid_binary prec emax r = true /\ ord r = clip (rounded m e) /\ 0 < ord r /\
  (r = S754_infinity false \/ exists mz ez, r = S754_finite false mz ez).
Proof.
  intros He r.
  assert (H : exists mz ez,
             Zpos mz * 2 ^ (ez - emin) = rounded m e /\ fexp (dig mz + ez) = ez /\
             r = if ez <=? emax - prec then S754_finite false mz ez
                 else S754_infinity false).
  { unfold rounded; destruct (Z.leb_spec (dig m) prec) as [Hd|Hd].
    - destruct (binary_round_small m e He Hd) as (mz & Hv & Hdg & Hr).
      exists mz, (fexp (dig m + e)); repeat split; try assumption. now rewrite Hdg.
    - destruct (binary_round_large m e He Hd) as (mz & ez & Hv & Hc & _ & Hr).
      exists mz, ez; auto. }
  destruct H as (mz & ez & Hv & Hc & Hr).
  destruct (canonical_digits mz ez Hc) as (H1 & H2 & H3).
  assert (Htop : 0 < top) by (apply pow2_pos; pose proof emin_le_emax; lia).
  destruct (Z.leb_spec ez (emax - prec)) as [Hle|Hgt]; rewrite Hr.
  - pose proof (canonical_below_top mz ez Hc Hle) as [L U].
    cbn [valid_binary ord]; unfold bounded, canonical_mantissa; fold (dig mz).
    rewrite Hc, Z.eqb_refl, (proj2 (Z.leb_le _ _) Hle), <- Hv; unfold clip.
    repeat split; eauto; lia.
  - cbn [valid_binary ord]; rewrite <- Hv; unfold clip.
    pose proof emin_le_emax.
    pose proof (scaled_bounds mz (ez - emin) ltac:(lia)) as [L _].
    assert (top <= 2 ^ (dig mz - 1 + (ez - emin))) by (apply pow2_le; lia).
    repeat split; auto; lia.
Qed.

Lemma binary_round_opp (m : positive) (e : Z) :
  binary_round prec emax true m e = SFopp (binary_round prec emax false m e).
Proof.
  unfold binary_round; destruct (shl_align _ _ _) as [mz ez].
  unfold binary_round_aux.
  destruct (shr_fexp _ _ _ _ _) as [mrs' e']. destruct (shr_fexp _ _ _ _ _) as [mrs'' e''].
  destruct (shr_m mrs''); [reflexivity| |reflexivity].
  now destruct (_ <=? _).
Qed.

Lemma ord_opp (a : spec_float) : ord (SFopp a) = - ord a.
Proof. destruct a as [s|s| |s m e]; cbn [SFopp ord]; try destruct s; cbn [negb]; lia. Qed.

Lemma valid_opp (a : spec_float) :
  valid_binary prec emax (SFopp a) = valid_binary prec emax a.
Proof. now destruct a. Qed.

Lemma ord_finite (s : bool) (m : positive) (e : Z) :
  bounded prec emax m e = true ->
  0 < Zpos m * 2 ^ (e - emin) < top.
Proof. intros H; apply bounded_canonical in H as [Hc He]; now apply canonical_below_top. Qed.

Lemma canonical_order (m1 m2 : positive) (e1 e2 : Z) :
  bounded prec emax m1 e1 = true -> bounded prec emax m2 e2 = true ->
  e1 < e2 -> Zpos m1 * 2 ^ (e1 - emin) < Zpos m2 * 2 ^ (e2 - emin).
Proof.
  intros H1 H2 Hlt.
  apply bounded_canonical in H1 as [C1 _]; apply bounded_canonical in H2 as [C2 _].
  destruct (canonical_digits m1 e1 C1) as (A1 & A2 & _).
  destruct (canonical_digits m2 e2 C2) as (B1 & _ & B3).
  pose proof (scaled_bounds m1 (e1 - emin) ltac:(lia)) as [_ U].
  pose proof (scaled_bounds m2 (e2 - emin) ltac:(lia)) as [L _].
  assert (2 ^ (dig m1 + (e1 - emin)) <= 2 ^ (dig m2 - 1 + (e2 - emin)))
    by (apply pow2_le; pose proof (dig_pos m1); lia).
  lia.
Qed.

Theorem compare_ord (a b : spec_float) :
  number a -> number b -> SFcompare a b = Some (ord a ?= ord b).
Proof.
  intros [Va Na] [Vb Nb].
  assert (Htop : 0 < top) by (apply pow2_pos; pose proof emin_le_emax; lia).
  destruct a as [sa|sa| |sa ma ea], b as [sb|sb| |sb mb eb]; try congruence;
    cbn [valid_binary] in Va, Vb; cbn [SFcompare ord];
    try pose proof (ord_finite sa ma ea Va) as [La Ua];
    try pose proof (ord_finite sb mb eb Vb) as [Lb Ub];
    f_equal; symmetry;
    repeat match goal with s : bool |- _ => destruct s end;
    try (first [ apply Z.compare_eq_iff; lia | apply Z.compare_lt_iff; lia
               | apply Z.compare_gt_iff; lia ]).
  all: pose proof (pow2_pos (ea - emin));
    pose proof (proj1 (canonical_digits ma ea (proj1 (bounded_canonical ma ea Va))));
    destruct (Z.compare_spec ea eb) as [E|L|G];
    [ subst eb; rewrite Pos.compare_cont_spec;
      destruct (Pos.compare_spec ma mb) as [E|L|G]; cbn [CompOpp Pos.switch_Eq];
      [ subst; apply Z.compare_eq_iff; reflexivity | |]
    | pose proof (canonical_order _ _ _ _ Va Vb L)
    | pose proof (canonical_order _ _ _ _ Vb Va G) ];
    first [ apply Z.compare_lt_iff; nia | apply Z.compare_gt_iff; nia ].
Qed.

Corollary leb_ord (a b : spec_float) :
  number a -> number b -> SFleb a b = true <-> ord a <= ord b.
Proof.
  intros Ha Hb; unfold SFleb; rewrite (compare_ord a b Ha Hb).
  destruct (Z.compare_spec (ord a) (ord b)); split; intros; (reflexivity || lia || discriminate).
Qed.

Corollary ltb_ord (a b : spec_float) :
  number a -> number b -> SFltb a b = true <-> ord a < ord b.
Proof.
  intros Ha Hb; unfold SFltb; rewrite (compare_ord a b Ha Hb).
  destruct (Z.compare_spec (ord a) (ord b)); split; intros; (reflexivity || lia || discriminate).
Qed.

(** *** Rounding is monotone and fixes the floats *)

Lemma rounded_bounds (m : positive) (e : Z) :
  emin <= e ->
  2 ^ (dig m - 1 + (e - emin)) <= rounded m e <= 2 ^ (dig m + (e - emin)).
Proof.
  intros He; unfold rounded; destruct (Z.leb_spec (dig m) prec) as [Hd|Hd].
  - pose proof (scaled_bounds m (e - emin) ltac:(lia)); lia.
  - pose proof (nearest_bounds m Hd) as [L U].
    pose proof (pow2_pos (dig m - prec + e - emin) ltac:(lia)) as Hp.
    replace (dig m - 1 + (e - emin)) with ((prec - 1) + (dig m - prec + e - emin)) by lia.
    replace (dig m + (e - emin)) with (prec + (dig m - prec + e - emin)) by lia.
    rewrite !Z.pow_add_r by lia. nia.
Qed.

Lemma rounded_mono (m1 m2 : positive) (e : Z) :
  emin <= e -> (m1 <= m2)%positive -> rounded m1 e <= rounded m2 e.
Proof.
  intros He Hm; pose proof (dig_le_mono m1 m2 Hm) as Hd.
  destruct (Z.eq_dec (dig m1) (dig m2)) as [Ed|Nd].
  - unfold rounded; rewrite Ed; destruct (Z.leb_spec (dig m2) prec) as [H|H].
    + pose proof (pow2_pos (e - emin) ltac:(lia)). nia.
    + pose proof (pow2_pos (dig m2 - prec + e - emin) ltac:(lia)).
      pose proof (nearest_mono (Zpos m1) (Zpos m2) (dig m2 - prec) ltac:(lia) ltac:(lia)).
      nia.
  - pose proof (rounded_bounds m1 e He) as [_ U]; pose proof (rounded_bounds m2 e He) as [L _].
    assert (2 ^ (dig m1 + (e - emin)) <= 2 ^ (dig m2 - 1 + (e - emin)))
      by (apply pow2_le; pose proof (dig_pos m1); lia).
    lia.
Qed.

Lemma rounded_fix (mx m' : positive) (ex k : Z) :
  bounded prec emax mx ex = true -> 0 <= k -> emin <= ex - k ->
  Zpos m' = Zpos mx * 2 ^ k ->
  rounded m' (ex - k) = Zpos mx * 2 ^ (ex - emin).
Proof.
  intros Hb Hk He Hm'.
  apply bounded_canonical in Hb as [Hc _]; destruct (canonical_digits mx ex Hc) as (A1 & A2 & A3).
  assert (Hd : dig m' = dig mx + k).
  { apply dig_unique; rewrite Hm'. pose proof (scaled_bounds mx k Hk).
    replace (dig mx + k - 1) with (dig mx - 1 + k) by lia. assumption. }
  unfold rounded; rewrite Hd, Hm'; destruct (Z.leb_spec (dig mx + k) prec) as [H|H].
  - rewrite <- Z.mul_assoc, <- Z.pow_add_r by lia. f_equal; f_equal; lia.
  - assert (dig mx = prec) by (apply A3; lia).
    replace (dig mx + k - prec) with k by lia.
    rewrite nearest_exact by lia. f_equal; f_equal; lia.
Qed.

Lemma clip_rounded_pos (m : positive) (e : Z) : emin <= e -> 0 < clip (rounded m e).
Proof.
  intros He; pose proof (rounded_bounds m e He) as [L _].
  pose proof (pow2_pos (dig m - 1 + (e - emin)) ltac:(pose proof (dig_pos m); lia)).
  assert (0 < top) by (apply pow2_pos; pose proof emin_le_emax; lia).
  unfold clip; lia.
Qed.

Lemma normalized_mono (z1 z2 e : Z) :
  emin <= e -> z1 <= z2 -> normalized z1 e <= normalized z2 e.
Proof.
  intros He Hz; destruct z1 as [|m1|m1], z2 as [|m2|m2]; cbn [normalized]; try lia;
    try pose proof (clip_rounded_pos m1 e He); try pose proof (clip_rounded_pos m2 e He);
    try lia.
  - pose proof (rounded_mono m1 m2 e He ltac:(lia)). unfold clip; lia.
  - pose proof (rounded_mono m2 m1 e He ltac:(lia)). unfold clip; lia.
Qed.

Theorem normalize_spec (z e : Z) (szero : bool) :
  emin <= e ->
  number (binary_normalize prec emax z e szero) /\
  ord (binary_normalize prec emax z e szero) = normalized z e.
Proof.
  intros He; destruct z as [|m|m]; cbn [binary_normalize normalized].
  - repeat split; discriminate.
  - destruct (round_pos_spec m e He) as (V & O & _ & [R|(mz & ez & R)]);
      repeat split; auto; rewrite R; discriminate.
  - rewrite binary_round_opp, ord_opp.
    destruct (round_pos_spec m e He) as (V & O & _ & [R|(mz & ez & R)]);
      (split; [split; [now rewrite valid_opp | rewrite R; discriminate] | now rewrite O]).
Qed.

(** *** Adding a negative number does not increase *)

Lemma shl_align_value (mx : positive) (ex ez : Z) :
  ez <= ex -> Zpos (fst (shl_align mx ex ez)) = Zpos mx * 2 ^ (ex - ez).
Proof.
  intros H; unfold shl_align; destruct (ez - ex) as [|d|d] eqn:Hs; try lia; cbn [fst].
  - replace (ex - ez) with 0 by lia. lia.
  - rewrite iter_xO. f_equal; f_equal; lia.
Qed.

Lemma normalized_fix (s : bool) (m : positive) (e ez : Z) :
  bounded prec emax m e = true -> emin <= ez <= e ->
  normalized (cond_Zopp s (Zpos m * 2 ^ (e - ez))) ez = ord (S754_finite s m e).
Proof.
  intros Hb He; pose proof (ord_finite s m e Hb) as [L U].
  pose proof (pow2_pos (e - ez) ltac:(lia)) as Hp.
  destruct (Zpos m * 2 ^ (e - ez)) as [|p|p] eqn:Ep; try lia.
  pose proof (rounded_fix m p e (e - ez) Hb ltac:(lia) ltac:(lia) (eq_sym Ep)) as Hf.
  replace (e - (e - ez)) with ez in Hf by lia.
  destruct s; cbn [cond_Zopp Z.opp normalized ord]; rewrite Hf; unfold clip; lia.
Qed.

Theorem add_negative_le (a d : spec_float) :
  number a -> finite a -> number d -> negative d ->
  number (SFadd prec emax a d) /\ ord (SFadd prec emax a d) <= ord a.
Proof.
  intros Ha Fa Hd Nd.
  assert (Htop : 0 < top) by (apply pow2_pos; pose proof emin_le_emax; lia).
  destruct a as [sa|sa| |sa ma ea]; try contradiction;
    destruct d as [[|]|[|]| |[|] md ed]; try contradiction; cbn [SFadd].
  - destruct sa; (split; [split; [reflexivity | discriminate] | reflexivity]).
  - split; [exact Hd | cbn [ord]; lia].
  - split; [exact Hd|]. destruct Hd as [Vd _]. pose proof (ord_finite true md ed Vd).
    cbn [ord]; lia.
  - split; [exact Ha | lia].
  - split; [exact Hd|]. destruct Ha as [Va _]. pose proof (ord_finite sa ma ea Va).
    cbn [ord]; destruct sa; lia.
  - destruct Ha as [Va _], Hd as [Vd _]; cbn [valid_binary] in Va, Vd.
    destruct (bounded_canonical ma ea Va) as [Ca _], (bounded_canonical md ed Vd) as [Cd _].
    apply canonical_digits in Ca, Cd.
    assert (He : emin <= Z.min ea ed) by lia.
    destruct (normalize_spec
                (cond_Zopp sa (Zpos (fst (shl_align ma ea (Z.min ea ed)))) +
                 cond_Zopp true (Zpos (fst (shl_align md ed (Z.min ea ed)))))
                (Z.min ea ed) false He) as [Hn Ho].
    split; [exact Hn|]. rewrite Ho.
    rewrite <- (normalized_fix sa ma ea (Z.min ea ed) Va) by lia.
    apply normalized_mono; [exact He|].
    rewrite !shl_align_value by lia. cbn [cond_Zopp].
    pose proof (pow2_pos (ed - Z.min ea ed) ltac:(lia)). nia.
Qed.

Corollary add_negative_leb (a d : spec_float) :
  number a -> finite a -> number d -> negative d ->
  SFleb (SFadd prec emax a d) a = true.
Proof.
  intros Ha Fa Hd Nd; destruct (add_negative_le a d Ha Fa Hd Nd) as [Hn Ho].
  now apply leb_ord.
Qed.

(** *** Conversion of integers *)

Corollary of_int_mono (z1 z2 : Z) :
  z1 <= z2 ->
  SFleb (binary_normalize prec emax z1 0 false) (binary_normalize prec emax z2 0 false) = true.
Proof.
  intros Hz; assert (He : emin <= 0) by (unfold SpecFloat.emin; lia).
  destruct (normalize_spec z1 0 false He) as [N1 O1], (normalize_spec z2 0 false He) as [N2 O2].
  apply leb_ord; auto. rewrite O1, O2. now apply normalized_mono.
Qed.

(** *** Products *)

Lemma canonical_number (s : bool) (m : positive) (e : Z) :
  fexp (dig m + e) = e ->
  let r := if e <=? emax - prec then S754_finite s m e else S754_infinity s in
  number r /\ signed s r.
Proof.
  intros Hc r; unfold r; destruct (Z.leb_spec e (emax - prec)) as [H|H].
  - repeat split; [|discriminate]. cbn [valid_binary]; unfold bounded, canonical_mantissa.
    fold (dig m); rewrite Hc, Z.eqb_refl; now apply Z.leb_le.
  - repeat split; discriminate.
Qed.

Theorem round_aux_number (s : bool) (m : positive) (e : Z) :
  e <= fexp (dig m + e) ->
  let r := binary_round_aux prec emax s (Zpos m) e loc_Exact in
  number r /\ signed s r.
Proof.
  intros He r; destruct (Z.eq_dec (fexp (dig m + e)) e) as [Hc|Hc].
  - unfold r; rewrite binary_round_aux_exact by exact Hc. now apply canonical_number.
  - destruct (binary_round_aux_shift s m e ltac:(lia)) as [[_ Hr]|(mz & ez & _ & _ & Hz & Hr)];
      fold r in Hr; rewrite Hr.
    + repeat split; discriminate.
    + now apply canonical_number.
Qed.

Lemma dig_mul (m1 m2 : positive) : dig m1 + dig m2 - 1 <= dig (m1 * m2).
Proof.
  pose proof (dig_bounds m1) as [L1 _]; pose proof (dig_bounds m2) as [L2 _].
  pose proof (dig_bounds (m1 * m2)) as [_ U]; rewrite Pos2Z.inj_mul in U.
  pose proof (dig_pos m1); pose proof (dig_pos m2); pose proof (dig_pos (m1 * m2)).
  destruct (Z_le_gt_dec (dig m1 + dig m2 - 1) (dig (m1 * m2))) as [|Hgt]; [assumption|exfalso].
  assert (2 ^ dig (m1 * m2) <= 2 ^ ((dig m1 - 1) + (dig m2 - 1))) by (apply pow2_le; lia).
  rewrite Z.pow_add_r in * by lia.
  pose proof (pow2_pos (dig m1 - 1) ltac:(lia)); pose proof (pow2_pos (dig m2 - 1) ltac:(lia)).
  nia.
Qed.

Theorem mul_finite_number (s1 s2 : bool) (m1 m2 : positive) (e1 e2 : Z) :
  bounded prec emax m1 e1 = true -> bounded prec emax m2 e2 = true ->
  let r := SFmul prec emax (S754_finite s1 m1 e1) (S754_finite s2 m2 e2) in
  number r /\ signed (xorb s1 s2) r.
Proof.
  intros H1 H2; cbn [SFmul]; apply round_aux_number.
  apply bounded_canonical in H1 as [C1 _]; apply bounded_canonical in H2 as [C2 _].
  pose proof (dig_mul m1 m2); pose proof (dig_pos m1); pose proof (dig_pos m2).
  unfold SpecFloat.fexp, SpecFloat.emin in *; lia.
Qed.

(** *** Sums of finite numbers *)

Lemma add_number (a d : spec_float) :
  number a -> finite a -> number d -> finite d -> number (SFadd prec emax a d).
Proof.
  intros Ha Fa Hd Fd.
  destruct a as [sa|sa| |sa ma ea]; try contradiction;
    destruct d as [sd|sd| |sd md ed]; try contradiction; cbn [SFadd]; auto.
  - destruct sa, sd; split; (reflexivity || discriminate).
  - destruct Ha as [Va _], Hd as [Vd _]; cbn [valid_binary] in Va, Vd.
    destruct (bounded_canonical ma ea Va) as [Ca _], (bounded_canonical md ed Vd) as [Cd _].
    apply canonical_digits in Ca, Cd.
    apply normalize_spec; lia.
Qed.

Lemma in_range_finite (lo c hi : spec_float) :
  finite lo -> finite hi -> c <> S754_nan ->
  SFleb lo c = true -> SFleb c hi = true -> finite c.
Proof.
  intros Fl Fh Hn H1 H2; destruct c as [s|[|]| |s m e]; cbn [finite]; auto.
  - destruct lo as [sl|sl| |sl ml el]; try contradiction; discriminate.
  - destruct hi as [sh|sh| |sh mh eh]; try contradiction; discriminate.
Qed.

(** *** Adding a zero *)

Lemma add_zero_compare (a z : spec_float) (s : bool) :
  SFcompare (SFadd prec emax a (S754_zero s)) z = SFcompare a z /\
  SFcompare z (SFadd prec emax a (S754_zero s)) = SFcompare z a.
Proof.
  destruct a as [sa|sa| |sa ma ea]; cbn [SFadd]; auto.
  destruct sa, s; auto; destruct z as [sz|sz| |sz mz ez]; auto.
Qed.

(** *** Integers that do not overflow *)

Lemma normalize_finite (z e : Z) (szero : bool) :
  emin <= e -> Z.abs z < 2 ^ (emax - 1 - e) ->
  finite (binary_normalize prec emax z e szero).
Proof.
  intros He Hz.
  assert (Hd : forall m, Zpos m < 2 ^ (emax - 1 - e) -> rounded m e < top).
  { intros m Hm; pose proof (dig_bounds m) as [L _]; pose proof (dig_pos m).
    assert (0 <= emax - 1 - e \/ emax - 1 - e < 0) as [Hn|Hn] by lia;
      [|rewrite Z.pow_neg_r in Hm by assumption; lia].
    assert (dig m <= emax - 1 - e).
    { destruct (Z_le_gt_dec (dig m) (emax - 1 - e)) as [|Hgt]; [assumption|exfalso].
      assert (2 ^ (emax - 1 - e) <= 2 ^ (dig m - 1)) by (apply pow2_le; lia). lia. }
    pose proof (rounded_bounds m e He) as [_ U].
    eapply Z.le_lt_trans; [exact U|]. unfold Rounding.top.
    apply Z.pow_lt_mono_r; lia. }
  destruct z as [|m|m]; cbn [binary_normalize]; [exact I| |].
  - destruct (round_pos_spec m e He) as (_ & O & _ & [R|(mz & ez & R)]); rewrite R in *;
      [|exact I].
    cbn [Rounding.ord] in O. specialize (Hd m ltac:(lia)). unfold Rounding.clip in O. lia.
  - rewrite binary_round_opp.
    destruct (round_pos_spec m e He) as (_ & O & _ & [R|(mz & ez & R)]); rewrite R in *;
      [|exact I].
    cbn [Rounding.ord] in O. specialize (Hd m ltac:(lia)). unfold Rounding.clip in O. lia.
Qed.

(** Numbers with the same non-zero image are the same float. *)
Lemma ord_inj (a b : spec_float) :
  number a -> number b -> ord a = ord b -> ord a <> 0 -> a = b.
Proof.
  intros Ha Hb Ho Hnz; pose proof (compare_ord a b Ha Hb) as Hc.
  rewrite Ho, Z.compare_refl in Hc.
  destruct (compare_Eq a b Hc) as [E|(s & t & -> & ->)]; [exact E|].
  now cbn [Rounding.ord] in Hnz.
Qed.

End Format.

End RoundingFacts.

(** ** Single precision *)

Module F32Facts.
Import Rounding RoundingFacts.

Abbreviation number := (Rounding.number F32.prec F32.emax).
Abbreviation ord := (Rounding.ord F32.prec F32.emax).

Lemma prec_pos : 0 < F32.prec.
Proof. reflexivity. Qed.

Lemma prec_lt_emax : F32.prec < F32.emax.
Proof. reflexivity. Qed.

Lemma emin_le_0 : emin F32.prec F32.emax <= 0.
Proof. discriminate. Qed.

Lemma of_int_number (z : Z) : number (F32.of_int z).
Proof. apply (normalize_spec _ _ prec_pos prec_lt_emax z 0 false emin_le_0). Qed.

Lemma of_int_le (z1 z2 : Z) :
  z1 <= z2 -> F32.leb (F32.of_int z1) (F32.of_int z2) = true.
Proof. apply (of_int_mono _ _ prec_pos prec_lt_emax). Qed.

Lemma of_int_not_lt (z1 z2 : Z) :
  z1 <= z2 -> F32.ltb (F32.of_int z2) (F32.of_int z1) = false.
Proof. intros H; apply leb_not_ltb, of_int_le, H. Qed.

Lemma of_int_finite (z : Z) :
  - 2147483648 <= z <= 2147483647 -> finite (F32.of_int z).
Proof.
  intros Hz; apply (normalize_finite _ _ prec_pos prec_lt_emax z 0 false emin_le_0).
  change (2 ^ (F32.emax - 1 - 0)) with 170141183460469231731687303715884105728; lia.
Qed.

Lemma of_int_zero (z : Z) (t : bool) : F32.of_int z = S754_zero t -> t = false.
Proof.
  unfold F32.of_int; destruct z as [|m|m]; cbn [binary_normalize].
  - now intros [= <-].
  - destruct (round_pos_spec _ _ prec_pos prec_lt_emax m 0 emin_le_0)
      as (_ & _ & _ & [R|(mz & ez & R)]); rewrite R; discriminate.
  - rewrite binary_round_opp.
    destruct (round_pos_spec _ _ prec_pos prec_lt_emax m 0 emin_le_0)
      as (_ & _ & _ & [R|(mz & ez & R)]); rewrite R; discriminate.
Qed.

Lemma positive_float_inv (a : float) :
  positive_float a = true ->
  exists m e, a = S754_finite false m e /\ bounded F32.prec F32.emax m e = true.
Proof. destruct a as [s|s| |[|] m e]; try discriminate; eauto. Qed.

Lemma signed_negative (r : float) : signed true r -> negative r.
Proof. destruct r as [s|s| |s m e]; cbn; try intros ->; auto. Qed.


Lemma delta_y_zero (h : Heart) :
  positive_float (baseSpeed h) = true -> directionY h = F32.zero ->
  delta_y h = F32.zero.
Proof.
  intros Hs Hd; apply positive_float_inv in Hs as (ms & es & Es & _).
  unfold delta_y; now rewrite Hd, Es.
Qed.

End F32Facts.

(** ** Pinned against the left boundary *)

Module Pinned.
Import Rounding RoundingFacts F32Facts.

Lemma idle_frame_eq (b : BattleBox) (h : Heart) :
  idle_frame b h = snd (Heart_.draw (Main.constrain b (Heart_.update h))).
Proof. unfold idle_frame; now rewrite Frame.rest_of_frame_eq. Qed.




End Pinned.


(** ** At rest after start-up *)

Module Rest.
Import F32Facts.

Lemma steering_key_false (ch : Z) :
  steering_key ch = false ->
  (ch =? 32) = false /\ (ch =? KEY_UP) = false /\ (ch =? KEY_DOWN) = false /\
  (ch =? KEY_LEFT) = false /\ (ch =? KEY_RIGHT) = false.
Proof.
  unfold steering_key; intros H.
  repeat (apply orb_false_elim in H as [H ?]); auto.
Qed.

Lemma handle_key_idle (ch : Z) (h : Heart) :
  steering_key ch = false ->
  position (Main.handle_key ch h) = position h /\
  moving (Main.handle_key ch h) = moving h.
Proof.
  intros H; apply steering_key_false in H as (H1 & H2 & H3 & H4 & H5).
  unfold Main.handle_key; rewrite H1, H2, H3, H4, H5.
  repeat match goal with
         | |- context [if ?c then _ else _] => destruct c
         end; split; reflexivity.
Qed.

Lemma drain_idle (pending : list Z) (h : Heart) (run : bool) :
  Forall (fun k => steering_key k = false) pending ->
  position (fst (fst (Main.drain pending h run))) = position h /\
  moving (fst (fst (Main.drain pending h run))) = moving h /\
  Forall (fun k => steering_key k = false) (snd (Main.drain pending h run)).
Proof.
  intros Hp; revert h; induction Hp as [|k ks Hk Hks IH]; intros h; cbn [Main.drain].
  - auto.
  - destruct (k =? ERR); [auto|]. destruct (Main.is_quit k); [auto|].
    destruct (IH (Main.handle_key k h)) as (Ep & Em & Hf).
    destruct (handle_key_idle k h Hk) as [Ep' Em'].
    repeat split; [congruence | congruence | exact Hf].
Qed.

Lemma constrain_centre (cx cy : Z) (b : BattleBox) (h : Heart) :
  centred cx cy b -> position h = (F32.of_int cx, F32.of_int cy) ->
  Main.constrain b h = h.
Proof.
  intros (Bx & By & Bw & Bh) Hp; injection Hp as Hx Hy.
  unfold Main.constrain, F32.gtb; rewrite Hx, Hy, Bx, By, Bw, Bh.
  fold (F32.ltb (F32.of_int (cx - 20 + 40 - 1)) (F32.of_int cx)).
  fold (F32.ltb (F32.of_int (cy - 8 + 16 - 1)) (F32.of_int cy)).
  now rewrite !of_int_not_lt by lia.
Qed.

Lemma rest_of_frame_idle (cx cy : Z) (b : BattleBox) (h : Heart) :
  centred cx cy b -> position h = (F32.of_int cx, F32.of_int cy) -> moving h = false ->
  position (snd (Main.rest_of_frame b h)) = position h /\
  moving (snd (Main.rest_of_frame b h)) = false.
Proof.
  intros Hb Hp Hm; rewrite Frame.rest_of_frame_eq; cbn [snd].
  replace (Heart_.update h) with h by (unfold Heart_.update; now rewrite Hm).
  rewrite (constrain_centre cx cy b h Hb Hp).
  destruct (Frame.draw_keeps h) as (Ep & _ & _ & _ & Em & _); split; congruence.
Qed.

Lemma game_loop_idle (cx cy : Z) (input : list (list Z)) (carry : list Z) (w : Main.World) :
  centred cx cy (Main.battleBox w) ->
  position (Main.heart w) = (F32.of_int cx, F32.of_int cy) ->
  moving (Main.heart w) = false ->
  Forall (fun k => steering_key k = false) carry ->
  Forall (Forall (fun k => steering_key k = false)) input ->
  position (Main.heart (Main.game_loop input carry w)) = (F32.of_int cx, F32.of_int cy) /\
  moving (Main.heart (Main.game_loop input carry w)) = false.
Proof.
  intros Hb Hp Hm Hc Hi; revert carry w Hb Hp Hm Hc.
  induction Hi as [|keys later Hk Hl IH]; intros carry w Hb Hp Hm Hc; cbn [Main.game_loop].
  - auto.
  - destruct (Main.running w) eqn:Hrun; [|auto].
    rewrite Frame.frame_eq; cbv beta iota zeta.
    assert (Hall : Forall (fun k => steering_key k = false) (carry ++ keys))
      by (apply Forall_app; auto).
    destruct (drain_idle (carry ++ keys) (Main.heart w) (Main.running w) Hall)
      as (Ep & Em & Hf).
    set (d := Main.drain (carry ++ keys) (Main.heart w) (Main.running w)) in *.
    destruct (rest_of_frame_idle cx cy (Main.battleBox w) (fst (fst d)) Hb)
      as [Ep' Em']; try congruence.
    apply IH; cbn [Main.heart Main.battleBox]; try assumption; congruence.
Qed.

Lemma init_centred (d maxY maxX : Z) :
  centred (Z.quot maxX 2) (Z.quot maxY 2) (Main.battleBox (Main.init d maxY maxX)).
Proof. repeat split. Qed.

End Rest.

(** C10. The entity is constructed with [moving = false], direction (0, 0),
    speed 0.3f and aspect ratio 2.0f, at the centre of the terminal.  Any
    number of [update] calls leaves it unchanged, and so does any run of the
    loop whose keys include neither Space nor an arrow key: its position is
    still the starting one and it is still not moving. *)
Theorem starts_at_rest (d maxY maxX : Z) :
  let h0 := Heart_.new d (Z.quot maxX 2) (Z.quot maxY 2) in
  (Main.heart (Main.init d maxY maxX) = h0 /\
   moving h0 = false /\ direction h0 = (F32.zero, F32.zero) /\
   baseSpeed h0 = F32.c0_3 /\ aspectRatio h0 = F32.two /\
   position h0 = (F32.of_int (Z.quot maxX 2), F32.of_int (Z.quot maxY 2))) /\
  (forall n : nat, Nat.iter n Heart_.update h0 = h0) /\
  (forall input : list (list Z),
     Forall (Forall (fun k => steering_key k = false)) input ->
     let h := Main.heart (Main.game_loop input [] (Main.init d maxY maxX)) in
     position h = position h0 /\ moving h = false).
Proof.
  intros h0; split; [repeat split|split].
  - intros n; now apply update_stopped.
  - intros input Hi h.
    apply (Rest.game_loop_idle _ _ input [] (Main.init d maxY maxX));
      auto using Rest.init_centred.
Qed.

Lemma starts_at_rest_witness :
  let h := Main.heart (Main.game_loop [[43; 93]; []; [45]] [] (Main.init 96 24 80)) in
  position h = (F32.of_int 40, F32.of_int 12) /\ moving h = false.
Proof.
  intros h.
  refine (proj2 (proj2 (starts_at_rest 96 24 80)) [[43; 93]; []; [45]] _).
  repeat constructor.
Defined.

(** ** Where the clamp is right *)

Module Clamp.
Import Rounding RoundingFacts F32Facts.

(** Inside the box no test fires. *)
Lemma constrain_in_box (b : BattleBox) (h : Heart) :
  in_box b h -> Main.constrain b h = h.
Proof.
  intros (X1 & X2 & Y1 & Y2); unfold Main.constrain, F32.gtb, F32.ltb.
  rewrite (leb_not_ltb _ _ X1), (leb_not_ltb _ _ X2), (leb_not_ltb _ _ Y1),
    (leb_not_ltb _ _ Y2). reflexivity.
Qed.

Lemma leb_refl (a : float) : number a -> F32.leb a a = true.
Proof. intros Ha; apply (leb_ord _ _ prec_pos prec_lt_emax); auto; lia. Qed.

Lemma not_ltb_leb (a c : float) :
  number a -> number c -> F32.ltb a c = false -> F32.leb c a = true.
Proof.
  intros Ha Hc H; apply (leb_ord _ _ prec_pos prec_lt_emax); auto.
  destruct (Z_le_gt_dec (ord c) (ord a)) as [|Hgt]; [assumption|exfalso].
  assert (F32.ltb a c = true) by (apply (ltb_ord _ _ prec_pos prec_lt_emax); auto; lia).
  congruence.
Qed.

(** One coordinate, with the two tests of its axis: the result is between
    the bounds. *)
Lemma clamp_axis (lo hi : Z) (c : float) :
  lo <= hi -> number c ->
  let c' := if F32.gtb c (F32.of_int hi) then F32.of_int hi
            else if F32.ltb c (F32.of_int lo) then F32.of_int lo else c in
  F32.leb (F32.of_int lo) c' = true /\ F32.leb c' (F32.of_int hi) = true.
Proof.
  intros Hl Hc c'; unfold c', F32.gtb.
  pose proof (of_int_number lo) as Nlo; pose proof (of_int_number hi) as Nhi.
  destruct (SFltb (F32.of_int hi) c) eqn:C2.
  - split; [now apply of_int_le | now apply leb_refl].
  - destruct (F32.ltb c (F32.of_int lo)) eqn:C1.
    + split; [now apply leb_refl | now apply of_int_le].
    + split; now apply not_ltb_leb.
Qed.

(** When the first test of an axis fires, the second does not. *)
Lemma below_not_above (lo hi : Z) (c : float) :
  lo <= hi -> number c ->
  F32.ltb c (F32.of_int lo) = true -> F32.gtb c (F32.of_int hi) = false.
Proof.
  intros Hl Hc H; unfold F32.gtb.
  pose proof (of_int_number lo) as Nlo; pose proof (of_int_number hi) as Nhi.
  apply leb_not_ltb, (leb_ord _ _ prec_pos prec_lt_emax); auto.
  apply (ltb_ord _ _ prec_pos prec_lt_emax) in H; auto.
  pose proof (of_int_le lo hi Hl) as Hle.
  apply (leb_ord _ _ prec_pos prec_lt_emax) in Hle; auto. lia.
Qed.

(** With at most one coordinate outside, the step brings the position
    inside and does not touch the coordinate that was inside. *)
Theorem constrain_single_axis (b : BattleBox) (h : Heart) :
  2 <= width b -> 2 <= height b -> number (x h) -> number (y h) ->
  (F32.leb (F32.of_int (box_x b + 1)) (x h) = true /\
   F32.leb (x h) (F32.of_int (box_x b + width b - 1)) = true) \/
  (F32.leb (F32.of_int (box_y b + 1)) (y h) = true /\
   F32.leb (y h) (F32.of_int (box_y b + height b - 1)) = true) ->
  in_box b (Main.constrain b h) /\
  (x (Main.constrain b h) = x h \/ y (Main.constrain b h) = y h).
Proof.
  intros Hw Hh Nx Ny Hin.
  pose proof (clamp_axis (box_x b + 1) (box_x b + width b - 1) (x h) ltac:(lia) Nx) as Cx.
  pose proof (clamp_axis (box_y b + 1) (box_y b + height b - 1) (y h) ltac:(lia) Ny) as Cy.
  pose proof (below_not_above (box_x b + 1) (box_x b + width b - 1) (x h) ltac:(lia) Nx) as Bx.
  pose proof (below_not_above (box_y b + 1) (box_y b + height b - 1) (y h) ltac:(lia) Ny) as By.
  cbv zeta in Cx, Cy.
  unfold Main.constrain, in_box; unfold F32.gtb, F32.ltb in *.
  destruct Hin as [[X1 X2]|[Y1 Y2]].
  - (* x inside: only the vertical tests can fire *)
    rewrite (leb_not_ltb _ _ X1), (leb_not_ltb _ _ X2).
    destruct (SFltb (y h) (F32.of_int (box_y b + 1))) eqn:C3.
    + rewrite (By eq_refl) in *; cbn [x y Heart_.setPosition]; destruct Cx, Cy; auto 10.
    + destruct (SFltb (F32.of_int (box_y b + height b - 1)) (y h)) eqn:C4;
        cbn [x y Heart_.setPosition]; destruct Cx, Cy; auto 10.
  - (* y inside: only the horizontal tests can fire *)
    rewrite (leb_not_ltb _ _ Y1), (leb_not_ltb _ _ Y2).
    destruct (SFltb (x h) (F32.of_int (box_x b + 1))) eqn:C1.
    + rewrite (Bx eq_refl) in *; cbn [x y Heart_.setPosition]; destruct Cx, Cy; auto 10.
    + destruct (SFltb (F32.of_int (box_x b + width b - 1)) (x h)) eqn:C2;
        cbn [x y Heart_.setPosition]; destruct Cx, Cy; auto 10.
Qed.


End Clamp.

(** ** The entity stays in the box *)

Module Run.
Import Rounding RoundingFacts F32Facts.

Lemma deltas_axis_aligned (d : float * float) (s a : float) :
  In d headings -> In s speed_values -> In a aspect_values ->
  axis_aligned d s a = true.
Proof.
  assert (H : forallb (fun d => forallb (fun s => forallb (axis_aligned d s) aspect_values)
                                 speed_values) headings = true)
    by (vm_compute; reflexivity).
  intros Hd Hs Ha; rewrite forallb_forall in H; specialize (H d Hd).
  rewrite forallb_forall in H; specialize (H s Hs).
  rewrite forallb_forall in H; exact (H a Ha).
Qed.

Lemma valid_finite_number (a : float) :
  F32.valid a = true -> F32.is_finite a = true -> number a /\ finite a.
Proof. intros V F; destruct a; try discriminate; repeat split; auto; discriminate. Qed.

Lemma add_zero_same (c z : float) :
  is_zero z = true ->
  (forall w, F32.leb (F32.add c z) w = F32.leb c w) /\
  (forall w, F32.leb w (F32.add c z) = F32.leb w c) /\
  (number c -> number (F32.add c z)).
Proof.
  destruct z as [s| | |]; try discriminate; intros _.
  split; [|split].
  - intros w; unfold F32.leb, SFleb, F32.add.
    now rewrite (proj1 (add_zero_compare F32.prec F32.emax c w s)).
  - intros w; unfold F32.leb, SFleb, F32.add.
    now rewrite (proj2 (add_zero_compare F32.prec F32.emax c w s)).
  - intros [Vc Nc]; destruct c as [sc|sc| |sc mc ec]; try congruence;
      cbn [F32.add SFadd].
    + destruct sc, s; split; (reflexivity || discriminate).
    + split; [reflexivity | discriminate].
    + split; [exact Vc | discriminate].
Qed.

Lemma in_box_finite (b : BattleBox) (h : Heart) :
  - 2147483648 <= box_x b + 1 -> box_x b + width b - 1 <= 2147483647 ->
  - 2147483648 <= box_y b + 1 -> box_y b + height b - 1 <= 2147483647 ->
  2 <= width b -> 2 <= height b ->
  number (x h) -> number (y h) -> in_box b h -> finite (x h) /\ finite (y h).
Proof.
  intros ? ? ? ? ? ? [_ Nx] [_ Ny] (X1 & X2 & Y1 & Y2); split.
  - apply (in_range_finite (F32.of_int (box_x b + 1)) _ (F32.of_int (box_x b + width b - 1)));
      auto; apply of_int_finite; lia.
  - apply (in_range_finite (F32.of_int (box_y b + 1)) _ (F32.of_int (box_y b + height b - 1)));
      auto; apply of_int_finite; lia.
Qed.

(** After [update], both coordinates are numbers and one of them is still
    inside. *)
Lemma update_one_axis (b : BattleBox) (h : Heart) :
  - 2147483648 <= box_x b + 1 -> box_x b + width b - 1 <= 2147483647 ->
  - 2147483648 <= box_y b + 1 -> box_y b + height b - 1 <= 2147483647 ->
  2 <= width b -> 2 <= height b ->
  well_placed b h ->
  let h' := Heart_.update h in
  number (x h') /\ number (y h') /\
  ((F32.leb (F32.of_int (box_x b + 1)) (x h') = true /\
    F32.leb (x h') (F32.of_int (box_x b + width b - 1)) = true) \/
   (F32.leb (F32.of_int (box_y b + 1)) (y h') = true /\
    F32.leb (y h') (F32.of_int (box_y b + height b - 1)) = true)).
Proof.
  intros R1 R2 R3 R4 Hw Hh ([Ha Hs] & Hd & Nx & Ny & Hin) h'.
  destruct (in_box_finite b h R1 R2 R3 R4 Hw Hh Nx Ny Hin) as [Fx Fy].
  destruct Hin as (X1 & X2 & Y1 & Y2).
  unfold h', Heart_.update; destruct (moving h); [|auto 10].
  cbn [x y Heart_.setPosition].
  pose proof (deltas_axis_aligned _ _ _ Hd Hs Ha) as Hal.
  unfold axis_aligned, direction in Hal; cbn [fst snd] in Hal.
  fold (delta_x h) in Hal |- *; fold (delta_y h) in Hal |- *.
  apply andb_prop in Hal as [Hal Hz]; apply andb_prop in Hal as [Hal Fdy];
    apply andb_prop in Hal as [Hal Vdy]; apply andb_prop in Hal as [Vdx Fdx].
  destruct (valid_finite_number _ Vdx Fdx) as [Ndx Fdx'].
  destruct (valid_finite_number _ Vdy Fdy) as [Ndy Fdy'].
  split; [apply (add_number _ _ prec_pos prec_lt_emax); assumption|].
  split; [apply (add_number _ _ prec_pos prec_lt_emax); assumption|].
  apply orb_prop in Hz as [Hz|Hz].
  - left; destruct (add_zero_same (x h) (delta_x h) Hz) as (L1 & L2 & _).
    now rewrite L1, L2.
  - right; destruct (add_zero_same (y h) (delta_y h) Hz) as (L1 & L2 & _).
    now rewrite L1, L2.
Qed.

(** The coordinates the clamp returns are the old ones or bounds. *)
Lemma constrain_numbers (b : BattleBox) (h : Heart) :
  number (x h) -> number (y h) ->
  number (x (Main.constrain b h)) /\ number (y (Main.constrain b h)).
Proof.
  intros Nx Ny; unfold Main.constrain.
  destruct (F32.ltb _ _), (F32.gtb _ _), (F32.ltb _ _), (F32.gtb _ _);
    cbn [x y Heart_.setPosition]; auto using of_int_number.
Qed.

Lemma handle_key_position (ch : Z) (h : Heart) :
  position (Main.handle_key ch h) = position h.
Proof.
  Tuning.key_cases; try reflexivity;
    match goal with
    | |- position (Heart_.setDirection ?dx ?dy h) = _ =>
        now destruct (Frame.setDirection_keeps dx dy h) as (-> & _)
    end.
Qed.

Lemma handle_key_heading (ch : Z) (h : Heart) :
  In (direction h) headings -> In (direction (Main.handle_key ch h)) headings.
Proof.
  intros Hd; Tuning.key_cases; try exact Hd; unfold headings, cardinal; cbn; auto 10.
Qed.

Lemma handle_key_well_placed (b : BattleBox) (ch : Z) (h : Heart) :
  well_placed b h -> well_placed b (Main.handle_key ch h).
Proof.
  intros (Ht & Hd & Nx & Ny & Hin).
  pose proof (handle_key_position ch h) as Hp; injection Hp as Hx Hy.
  unfold well_placed, in_box; rewrite Hx, Hy.
  auto using Tuning.handle_key_tuned, handle_key_heading.
Qed.

Lemma drain_well_placed (b : BattleBox) (pending : list Z) (h : Heart) (run : bool) :
  well_placed b h -> well_placed b (fst (fst (Main.drain pending h run))).
Proof.
  revert h; induction pending as [|k ks IH]; intros h Hh; cbn [Main.drain fst]; [exact Hh|].
  destruct (k =? ERR); [exact Hh|]. destruct (Main.is_quit k); [exact Hh|].
  apply IH, handle_key_well_placed, Hh.
Qed.

Lemma rest_of_frame_well_placed (b : BattleBox) (h : Heart) :
  - 2147483648 <= box_x b + 1 -> box_x b + width b - 1 <= 2147483647 ->
  - 2147483648 <= box_y b + 1 -> box_y b + height b - 1 <= 2147483647 ->
  2 <= width b -> 2 <= height b ->
  well_placed b h -> well_placed b (snd (Main.rest_of_frame b h)).
Proof.
  intros R1 R2 R3 R4 Hw Hh Hwp.
  destruct (update_one_axis b h R1 R2 R3 R4 Hw Hh Hwp) as (Nx & Ny & Hone).
  destruct (Clamp.constrain_single_axis b (Heart_.update h) Hw Hh Nx Ny Hone) as [Hin _].
  destruct (constrain_numbers b (Heart_.update h) Nx Ny) as [Nx' Ny'].
  destruct Hwp as ([Ha Hs] & Hd & _).
  destruct (Frame.rest_of_frame_keeps b h) as (Ed & Es & Ea & _).
  rewrite Frame.rest_of_frame_eq in *; cbn [snd] in *.
  destruct (Frame.draw_keeps (Main.constrain b (Heart_.update h))) as (Ep & _).
  injection Ep as Ex Ey.
  unfold well_placed, tuned, in_box; rewrite Ed, Es, Ea, Ex, Ey; auto 10.
Qed.

Lemma game_loop_well_placed (input : list (list Z)) (carry : list Z) (w : Main.World) :
  let b := Main.battleBox w in
  - 2147483648 <= box_x b + 1 -> box_x b + width b - 1 <= 2147483647 ->
  - 2147483648 <= box_y b + 1 -> box_y b + height b - 1 <= 2147483647 ->
  2 <= width b -> 2 <= height b ->
  well_placed b (Main.heart w) ->
  Main.battleBox (Main.game_loop input carry w) = b /\
  well_placed b (Main.heart (Main.game_loop input carry w)).
Proof.
  revert carry w; induction input as [|keys later IH];
    intros carry w b R1 R2 R3 R4 Hw Hh Hwp; cbn [Main.game_loop]; [auto|].
  destruct (Main.running w); [|auto].
  rewrite Frame.frame_eq; cbv beta iota zeta.
  apply IH; cbn [Main.battleBox Main.heart]; try assumption.
  apply rest_of_frame_well_placed; try assumption.
  apply drain_well_placed, Hwp.
Qed.

(** In every run of [main] on a terminal whose size is an [int], the entity
    is inside the box at the end of every iteration. *)
Theorem heart_stays_in_box (d maxY maxX : Z) (input : list (list Z)) :
  0 <= maxX <= 2147483647 -> 0 <= maxY <= 2147483647 ->
  let w := Main.game_loop input [] (Main.init d maxY maxX) in
  in_box (Main.battleBox w) (Main.heart w).
Proof.
  intros Hx Hy w.
  assert (Qx : 0 <= Z.quot maxX 2 < 1073741824)
    by (split; [apply Z.quot_pos; lia | apply Z.quot_lt_upper_bound; lia]).
  assert (Qy : 0 <= Z.quot maxY 2 < 1073741824)
    by (split; [apply Z.quot_pos; lia | apply Z.quot_lt_upper_bound; lia]).
  destruct (game_loop_well_placed input [] (Main.init d maxY maxX)) as [Eb Hwp];
    cbn [Main.init Main.battleBox Main.heart BattleBox_.draw BattleBox_.new needsRedraw
         negb box_x box_y width height snd]; try lia.
  - (* the start *)
    split; [apply Tuning.new_tuned|]. split; [left; reflexivity|].
    split; [apply of_int_number|]. split; [apply of_int_number|].
    unfold in_box; cbn [x y Heart_.new box_x box_y width height].
    repeat split; apply of_int_le; lia.
  - unfold w; rewrite Eb; apply Hwp.
Qed.

End Run.

(** ** More facts about rounding *)

Module RoundingMore.
Import Rounding RoundingFacts.

Section Format.
Variables prec emax : Z.
Hypothesis Hprec : 0 < prec.
Hypothesis Hemax : prec < emax.

Local Abbreviation emin := (SpecFloat.emin prec emax).
Local Abbreviation top := (Rounding.top prec emax).
Local Abbreviation ord := (Rounding.ord prec emax).
Local Abbreviation normalized := (Rounding.normalized prec emax).
Local Abbreviation number := (Rounding.number prec emax).

(** Adding a number that is not negative does not decrease. *)
Lemma add_nonnegative_ge (a d : spec_float) :
  number a -> finite a -> number d -> signed false d ->
  number (SFadd prec emax a d) /\ ord a <= ord (SFadd prec emax a d).
Proof.
  intros Ha Fa Hd Sd.
  assert (Htop : 0 < top)
    by (apply pow2_pos; pose proof (emin_le_emax prec emax Hprec Hemax); lia).
  destruct a as [sa|sa| |sa ma ea]; try contradiction;
    destruct d as [sd|sd| |sd md ed]; cbn [signed] in Sd; try contradiction; subst sd;
    cbn [SFadd].
  - destruct sa; (split; [split; [reflexivity | discriminate] | reflexivity]).
  - split; [exact Hd | cbn [Rounding.ord]; lia].
  - split; [exact Hd|]. destruct Hd as [Vd _].
    pose proof (ord_finite prec emax Hprec Hemax false md ed Vd). cbn [Rounding.ord]; lia.
  - split; [exact Ha | lia].
  - split; [exact Hd|]. destruct Ha as [Va _].
    pose proof (ord_finite prec emax Hprec Hemax sa ma ea Va).
    cbn [Rounding.ord]; destruct sa; lia.
  - destruct Ha as [Va _], Hd as [Vd _]; cbn [valid_binary] in Va, Vd.
    destruct (bounded_canonical prec emax ma ea Va) as [Ca _],
             (bounded_canonical prec emax md ed Vd) as [Cd _].
    apply (canonical_digits prec emax) in Ca, Cd.
    assert (He : emin <= Z.min ea ed) by lia.
    destruct (normalize_spec prec emax Hprec Hemax
                (cond_Zopp sa (Zpos (fst (shl_align ma ea (Z.min ea ed)))) +
                 cond_Zopp false (Zpos (fst (shl_align md ed (Z.min ea ed)))))
                (Z.min ea ed) false He) as [Hn Ho].
    split; [exact Hn|]. rewrite Ho.
    rewrite <- (normalized_fix prec emax Hprec Hemax sa ma ea (Z.min ea ed) Va) by lia.
    apply (normalized_mono prec emax Hprec Hemax); [exact He|].
    rewrite !shl_align_value by lia. cbn [cond_Zopp].
    pose proof (pow2_pos (ed - Z.min ea ed) ltac:(lia)). nia.
Qed.

(** Integers of at most [prec] bits are converted exactly. *)
Lemma normalized_exact (z : Z) :
  Z.abs z < 2 ^ prec -> normalized z 0 = z * 2 ^ (- emin).
Proof.
  intros Hz.
  assert (He : emin <= 0) by (unfold SpecFloat.emin; lia).
  assert (Hm : forall m, Zpos m < 2 ^ prec ->
                 Rounding.clip prec emax (Rounding.rounded prec emax m 0)
                 = Zpos m * 2 ^ (- emin)).
  { intros m Hlt; pose proof (dig_bounds m) as [L _]; pose proof (dig_pos m).
    assert (Hd : dig m <= prec).
    { destruct (Z_le_gt_dec (dig m) prec) as [|Hgt]; [assumption|exfalso].
      assert (2 ^ prec <= 2 ^ (dig m - 1)) by (apply pow2_le; lia). lia. }
    pose proof (rounded_bounds prec emax Hprec m 0 He) as [_ U].
    assert (2 ^ (dig m + (0 - emin)) < top)
      by (unfold Rounding.top; apply Z.pow_lt_mono_r; lia).
    unfold Rounding.clip; rewrite Z.min_l by lia.
    unfold Rounding.rounded; rewrite (proj2 (Z.leb_le _ _) Hd). reflexivity. }
  destruct z as [|m|m]; cbn [Rounding.normalized]; [reflexivity| |].
  - apply Hm; lia.
  - rewrite Hm by lia. lia.
Qed.

End Format.

(** The value [round] gives lies between the integers that bound the
    float. *)
Lemma round_to_int_between (a : spec_float) (k lo hi : Z) :
  0 <= k ->
  (forall s m e, a = S754_finite s m e -> - k <= e) ->
  finite a ->
  let v := match a with
           | S754_finite s m e => cond_Zopp s (Zpos m * 2 ^ (e + k))
           | _ => 0
           end in
  lo * 2 ^ k <= v -> v <= hi * 2 ^ k ->
  lo <= F32.round_to_int a <= hi.
Proof.
  intros Hk He Fa v Hlo Hhi.
  assert (HK : 0 < 2 ^ k) by (apply pow2_pos; lia).
  destruct a as [s|s| |s m e]; try contradiction; unfold v in *; cbn [F32.round_to_int].
  - nia.
  - specialize (He s m e eq_refl).
    destruct e as [|p|p].
    + rewrite Z.add_0_l in *. rewrite Z.pow_0_r, Z.mul_1_r.
      destruct s; cbn [cond_Zopp] in *; nia.
    + rewrite Z.pow_add_r in * by lia.
      pose proof (pow2_pos (Zpos p) ltac:(lia)).
      destruct s; cbn [cond_Zopp] in *; nia.
    + assert (Hs : 2 ^ k = 2 ^ (Zneg p + k) * 2 ^ Zpos p)
        by (rewrite <- Z.pow_add_r by lia; f_equal; lia).
      pose proof (pow2_pos (Zneg p + k) ltac:(lia)) as Hq.
      pose proof (pow2_pos (Zpos p) ltac:(lia)) as Hp.
      assert (Hh : 2 ^ Zpos p = 2 * 2 ^ (Zpos p - 1)).
      { replace (Zpos p) with (Z.succ (Zpos p - 1)) at 1 by lia.
        rewrite Z.pow_succ_r by lia. reflexivity. }
      pose proof (pow2_pos (Zpos p - 1) ltac:(lia)) as Hp1.
      set (n := (Zpos m + 2 ^ (Zpos p - 1)) / 2 ^ Zpos p).
      assert (Hn : 2 ^ Zpos p * n <= Zpos m + 2 ^ (Zpos p - 1) < 2 ^ Zpos p * (n + 1)).
      { unfold n. pose proof (Z.div_mod (Zpos m + 2 ^ (Zpos p - 1)) (2 ^ Zpos p) ltac:(lia)).
        pose proof (Z.mod_pos_bound (Zpos m + 2 ^ (Zpos p - 1)) (2 ^ Zpos p) Hp). lia. }
      rewrite Hs in Hlo, Hhi.
      destruct s; cbn [cond_Zopp] in *; split; nia.
Qed.

End RoundingMore.

(** ** What is put on the screen *)

Module Screen.

Lemma last_put_app (l1 l2 : list event) (r c : Z) :
  last_put (l1 ++ l2) r c =
    match last_put l2 r c with
    | Some ch => Some ch
    | None => last_put l1 r c
    end.
Proof.
  induction l1 as [|e l1 IH]; cbn [app last_put].
  - now destruct (last_put l2 r c).
  - rewrite IH; now destruct (last_put l2 r c).
Qed.

Lemma last_put_In (log : list event) (r c ch : Z) :
  last_put log r c = Some ch -> In (Mvaddch r c ch) log.
Proof.
  induction log as [|e log IH]; cbn [last_put]; [discriminate|].
  destruct (last_put log r c) as [ch'|].
  - intros [= ->]; right; now apply IH.
  - destruct e; cbn [put]; try discriminate.
    destruct ((r =? row) && (c =? col)) eqn:E; [|discriminate].
    apply andb_prop in E as [Er Ec]; apply Z.eqb_eq in Er, Ec; subst.
    intros [= ->]; now left.
Qed.

Lemma same_cell_eq (p q : Z * Z) : same_cell p q = true <-> p = q.
Proof.
  destruct p as [r c], q as [r' c']; unfold same_cell; cbn [fst snd].
  rewrite andb_true_iff, !Z.eqb_eq; split; [intros [-> ->]; reflexivity|].
  intros [= -> ->]; auto.
Qed.

Lemma last_put_glyph (d : Z) (p : Z * Z) (r c : Z) :
  last_put (glyph d p) r c = if same_cell (r, c) p then Some d else None.
Proof. unfold glyph, same_cell; cbn [last_put put fst snd]. now destruct (_ && _). Qed.

Lemma draw_eq (h : Heart) :
  Heart_.draw h =
    ((if same_cell (cell h) (drawn h) then [] else Heart_.clearPrevious h) ++
     glyph (symbol h) (cell h),
     snd (Heart_.draw h)) /\
  drawn (snd (Heart_.draw h)) = cell h.
Proof.
  unfold Heart_.draw, same_cell, cell, drawn; cbn [fst snd].
  destruct (F32.round_to_int (x h) =? lastDrawnX h) eqn:Ex,
           (F32.round_to_int (y h) =? lastDrawnY h) eqn:Ey;
    cbn [negb orb andb fst snd lastDrawnX lastDrawnY]; split; try reflexivity.
  apply Z.eqb_eq in Ex, Ey; now rewrite Ex, Ey.
Qed.

(** The screen after [draw]: the glyph at the cell of the position, a blank
    at the cell drawn before if it is another one, the rest as it was. *)
Lemma draw_last_put (h : Heart) (log : list event) (r c : Z) :
  last_put (log ++ fst (Heart_.draw h)) r c =
    if same_cell (r, c) (cell h) then Some (symbol h)
    else if same_cell (r, c) (drawn h) then Some SPACE
    else last_put log r c.
Proof.
  destruct (draw_eq h) as [E _]; rewrite E; cbn [fst].
  rewrite !last_put_app, last_put_glyph.
  destruct (same_cell (r, c) (cell h)) eqn:E1; [reflexivity|].
  destruct (same_cell (cell h) (drawn h)) eqn:E2.
  - apply same_cell_eq in E2; rewrite <- E2, E1. reflexivity.
  - unfold Heart_.clearPrevious, drawn, same_cell; cbn [last_put put fst snd].
    now destruct (_ && _).
Qed.

Lemma draw_in_place (h : Heart) :
  cell h = drawn h -> Heart_.draw h = (glyph (symbol h) (cell h), h).
Proof.
  intros E; unfold Heart_.draw.
  change (F32.round_to_int (x h)) with (snd (cell h)).
  change (F32.round_to_int (y h)) with (fst (cell h)).
  rewrite E; unfold drawn; cbn [fst snd]; now rewrite !Z.eqb_refl.
Qed.

End Screen.

(** X3. [Heart::draw] on the screen.  Afterwards the entity is recorded as
    drawn at the cell its position rounds to; the last character put at that
    cell is the glyph; the cell it was drawn at before, if it is another one,
    has been blanked; no other cell is touched.  Drawing again at once puts
    the glyph again and changes nothing. *)
Theorem draw_on_screen (h : Heart) (log : list event) :
  let evs := fst (Heart_.draw h) in
  let h' := snd (Heart_.draw h) in
  drawn h' = cell h /\
  (forall r c,
     last_put (log ++ evs) r c =
       if same_cell (r, c) (cell h) then Some (symbol h)
       else if same_cell (r, c) (drawn h) then Some SPACE
       else last_put log r c) /\
  Heart_.draw h' = (glyph (symbol h) (cell h), h').
Proof.
  intros evs h'; destruct (Screen.draw_eq h) as [_ D]; fold h' in D.
  split; [exact D|]. split; [intros r c; apply Screen.draw_last_put|].
  destruct (Frame.draw_keeps h) as (Ep & _ & _ & _ & _ & Es); fold h' in Ep, Es.
  injection Ep as Ex Ey.
  assert (Ec : cell h' = cell h) by (unfold cell; now rewrite Ex, Ey).
  rewrite <- Ec, <- Es. apply Screen.draw_in_place. congruence.
Qed.

(** ** The input drain *)

Module Drain.

Lemma drain_all (pending : list Z) (h : Heart) (run : bool) :
  Forall (fun k => k <> ERR /\ Main.is_quit k = false) pending ->
  Main.drain pending h run = (run_keys pending h, run, []).
Proof.
  intros Hp; revert h; induction Hp as [|k ks [Hk Hq] _ IH]; intros h; cbn [Main.drain].
  - reflexivity.
  - apply Z.eqb_neq in Hk; rewrite Hk, Hq; apply IH.
Qed.

Lemma drain_ERR (pre post : list Z) (h : Heart) (run : bool) :
  Forall (fun k => k <> ERR /\ Main.is_quit k = false) pre ->
  Main.drain (pre ++ ERR :: post) h run = (run_keys pre h, run, post).
Proof.
  intros Hp; revert h; induction Hp as [|k ks [Hk Hq] _ IH]; intros h;
    cbn [Main.drain app].
  - reflexivity.
  - apply Z.eqb_neq in Hk; rewrite Hk, Hq; apply IH.
Qed.

Lemma handle_key_unknown (ch : Z) (h : Heart) :
  recognised ch = false -> Main.handle_key ch h = h.
Proof.
  unfold recognised, steering_key, tuning_key; intros H.
  repeat (apply orb_false_elim in H as [H ?]).
  repeat match goal with
         | E : _ || _ = false |- _ => apply orb_false_elim in E as [? ?]
         end.
  unfold Main.handle_key.
  repeat match goal with
         | E : (ch =? ?k) = false |- _ => rewrite E; clear E
         end.
  reflexivity.
Qed.

Lemma drain_unread (P : Z -> Prop) (pending : list Z) (h : Heart) (run : bool) :
  Forall P pending -> Forall P (snd (Main.drain pending h run)).
Proof.
  intros Hp; revert h; induction Hp as [|k ks Hk Hks IH]; intros h; cbn [Main.drain].
  - constructor.
  - destruct (k =? ERR); [exact Hks|]. destruct (Main.is_quit k); [exact Hks|]. apply IH.
Qed.

Lemma drain_filter (pending : list Z) (h : Heart) (run : bool) :
  Forall (fun k => k <> ERR) pending ->
  Main.drain (filter recognised pending) h run =
    (fst (Main.drain pending h run), filter recognised (snd (Main.drain pending h run))).
Proof.
  intros Hp; revert h; induction Hp as [|k ks Hk _ IH]; intros h;
    cbn [Main.drain filter]; [reflexivity|].
  apply Z.eqb_neq in Hk.
  destruct (recognised k) eqn:Hr; cbn [Main.drain]; rewrite Hk.
  - destruct (Main.is_quit k); [reflexivity | apply IH].
  - assert (Hq : Main.is_quit k = false)
      by (unfold recognised in Hr; now apply orb_false_elim in Hr as [Hr _];
          apply orb_false_elim in Hr as [Hr _]).
    rewrite Hq, (handle_key_unknown k h Hr); apply IH.
Qed.

Lemma game_loop_filter (input : list (list Z)) (carry : list Z) (w : Main.World) :
  Forall (fun k => k <> ERR) carry ->
  Forall (Forall (fun k => k <> ERR)) input ->
  Main.game_loop (map (filter recognised) input) (filter recognised carry) w =
  Main.game_loop input carry w.
Proof.
  intros Hc Hi; revert carry w Hc; induction Hi as [|keys later Hk _ IH]; intros carry w Hc;
    cbn [Main.game_loop map]; [reflexivity|].
  destruct (Main.running w) eqn:Hrun; [|reflexivity].
  assert (Hall : Forall (fun k => k <> ERR) (carry ++ keys)) by (apply Forall_app; auto).
  rewrite !Frame.frame_eq; cbv beta iota zeta.
  rewrite <- filter_app, (drain_filter _ _ _ Hall); cbn [fst snd].
  apply IH, drain_unread, Hall.
Qed.

End Drain.

(** X8. The input drain of one iteration.  Keys that are neither a quit key
    nor the [ERR] of an empty queue are all handled, in the order they
    arrived, and none is left; the drain stops at the first [ERR], or at the
    first quit key, which also clears [running]; what was queued behind
    either stays unread. *)
Theorem drain_handles_keys_in_order (pre post : list Z) (h : Heart) (run : bool) :
  Forall (fun k => k <> ERR /\ Main.is_quit k = false) pre ->
  Main.drain pre h run = (run_keys pre h, run, []) /\
  Main.drain (pre ++ ERR :: post) h run = (run_keys pre h, run, post) /\
  (forall q, Main.is_quit q = true ->
     Main.drain (pre ++ q :: post) h run = (run_keys pre h, false, post)).
Proof.
  intros Hp; split; [now apply Drain.drain_all|].
  split; [now apply Drain.drain_ERR|].
  intros q Hq; now apply drain_quit.
Qed.

Lemma drain_handles_keys_in_order_witness :
  Main.drain ([KEY_LEFT; 43] ++ ERR :: [KEY_UP]) (Heart_.new 96 40 12) true =
    (run_keys [KEY_LEFT; 43] (Heart_.new 96 40 12), true, [KEY_UP]).
Proof.
  refine (proj1 (proj2 (drain_handles_keys_in_order [KEY_LEFT; 43] [KEY_UP]
                          (Heart_.new 96 40 12) true _))).
  repeat constructor; discriminate.
Defined.

(** X7. Keys [main] has no branch for are ignored: a run on an input from
    which they have been removed ends in the same state, with the same log,
    as the run on the input itself. *)
Theorem unknown_keys_are_ignored (input : list (list Z)) (w : Main.World) :
  Forall (Forall (fun k => k <> ERR)) input ->
  Main.game_loop (map (filter recognised) input) [] w = Main.game_loop input [] w.
Proof. intros Hi; now apply (Drain.game_loop_filter input [] w). Qed.

Lemma unknown_keys_are_ignored_witness :
  Main.game_loop (map (filter recognised) [[120; KEY_LEFT; 9]; [7]; [113]]) []
    (Main.init 96 24 80) =
  Main.game_loop [[120; KEY_LEFT; 9]; [7]; [113]] [] (Main.init 96 24 80).
Proof.
  apply (unknown_keys_are_ignored [[120; KEY_LEFT; 9]; [7]; [113]] (Main.init 96 24 80)).
  repeat constructor; discriminate.
Defined.

(** ** The border, again *)

Module Border.

Lemma top_bottom_blanks (b : BattleBox) :
  Forall (fun e => exists r c, e = Mvaddch r c SPACE) (BattleBox_.top_bottom b).
Proof.
  apply Forall_forall; intros e He; unfold BattleBox_.top_bottom in He.
  apply in_flat_map in He as (i & _ & [<-|[<-|[]]]); eauto.
Qed.

Lemma left_right_blanks (b : BattleBox) :
  Forall (fun e => exists r c, e = Mvaddch r c SPACE) (BattleBox_.left_right b).
Proof.
  apply Forall_forall; intros e He; unfold BattleBox_.left_right in He.
  apply in_flat_map in He as (i & _ & [<-|[<-|[<-|[<-|[]]]]]); eauto.
Qed.

Lemma length_flat_map_const {A B : Type} (f : A -> list B) (k : nat) (l : list A) :
  (forall a, List.length (f a) = k) -> List.length (flat_map f l) = (k * List.length l)%nat.
Proof.
  intros Hf; induction l as [|a l IH]; cbn [flat_map List.length]; [lia|].
  rewrite length_app, Hf, IH; lia.
Qed.

End Border.

(** X10. [BattleBox::setNeedsRedraw] and [draw].  After a request the next
    [draw] switches reverse video on, puts
    [2 * (width + 3) + 4 * (height + 1)] blanks and nothing else, and
    switches reverse video off; it clears the request, so that a further
    [draw] makes no call; and a new request makes [draw] repeat the same
    calls. *)
Theorem border_is_redrawn_on_request (b : BattleBox) :
  let b' := BattleBox_.setNeedsRedraw b in
  fst (BattleBox_.draw b') = [Attron A_REVERSE] ++ border b ++ [Attroff A_REVERSE] /\
  Forall (fun e => exists r c, e = Mvaddch r c SPACE) (border b) /\
  List.length (border b) = (2 * Z.to_nat (width b + 3) + 4 * Z.to_nat (height b + 1))%nat /\
  BattleBox_.draw (snd (BattleBox_.draw b')) = ([], snd (BattleBox_.draw b')) /\
  BattleBox_.draw (BattleBox_.setNeedsRedraw (snd (BattleBox_.draw b'))) = BattleBox_.draw b'.
Proof.
  intros b'; split; [|split; [|split; [|split]]].
  - unfold b', BattleBox_.draw, border; cbn [needsRedraw BattleBox_.setNeedsRedraw negb fst].
    now rewrite <- app_assoc.
  - apply Forall_app; split; [apply Border.top_bottom_blanks | apply Border.left_right_blanks].
  - unfold border, BattleBox_.top_bottom, BattleBox_.left_right.
    rewrite length_app, (Border.length_flat_map_const _ 2), (Border.length_flat_map_const _ 4)
      by reflexivity.
    rewrite !length_for_range.
    replace (width b + 1 + 1 - -1) with (width b + 3) by lia.
    replace (height b + 1 - 0) with (height b + 1) by lia. reflexivity.
  - reflexivity.
  - reflexivity.
Qed.

(** ** The clamp with one coordinate out *)

Module ClampMore.
Import Rounding RoundingFacts F32Facts.

Lemma a_number_number (a : float) : a_number a = true -> number a.
Proof.
  unfold a_number; intros H; apply andb_prop in H as [V N]; split; [exact V|].
  intros ->; discriminate.
Qed.

Lemma constrain_keeps_x (b : BattleBox) (h : Heart) :
  inside_x b h -> x (Main.constrain b h) = x h.
Proof.
  intros [X1 X2]; unfold Main.constrain, F32.gtb, F32.ltb.
  rewrite (leb_not_ltb _ _ X1), (leb_not_ltb _ _ X2).
  destruct (SFltb (y h) _), (SFltb _ (y h)); reflexivity.
Qed.

Lemma constrain_keeps_y (b : BattleBox) (h : Heart) :
  inside_y b h -> y (Main.constrain b h) = y h.
Proof.
  intros [Y1 Y2]; unfold Main.constrain, F32.gtb, F32.ltb.
  rewrite (leb_not_ltb _ _ Y1), (leb_not_ltb _ _ Y2).
  destruct (SFltb (x h) _), (SFltb _ (x h)); reflexivity.
Qed.

Lemma constrain_clamped (b : BattleBox) (h : Heart) :
  2 <= width b -> 2 <= height b -> number (x h) -> number (y h) ->
  inside_x b h \/ inside_y b h ->
  position (Main.constrain b h) =
    (clamped (box_x b + 1) (box_x b + width b - 1) (x h),
     clamped (box_y b + 1) (box_y b + height b - 1) (y h)).
Proof.
  intros Hw Hh Nx Ny Hin.
  pose proof (Clamp.below_not_above (box_x b + 1) (box_x b + width b - 1) (x h)
                ltac:(lia) Nx) as Bx.
  pose proof (Clamp.below_not_above (box_y b + 1) (box_y b + height b - 1) (y h)
                ltac:(lia) Ny) as By.
  assert (Hin' : (F32.ltb (x h) (F32.of_int (box_x b + 1)) = false /\
                  F32.gtb (x h) (F32.of_int (box_x b + width b - 1)) = false) \/
                 (F32.ltb (y h) (F32.of_int (box_y b + 1)) = false /\
                  F32.gtb (y h) (F32.of_int (box_y b + height b - 1)) = false)).
  { destruct Hin as [[A B]|[A B]]; [left|right]; split; now apply leb_not_ltb. }
  unfold Main.constrain, clamped, position.
  destruct (F32.ltb (x h) (F32.of_int (box_x b + 1))) eqn:T1;
    destruct (F32.gtb (x h) (F32.of_int (box_x b + width b - 1))) eqn:T2;
    destruct (F32.ltb (y h) (F32.of_int (box_y b + 1))) eqn:T3;
    destruct (F32.gtb (y h) (F32.of_int (box_y b + height b - 1))) eqn:T4;
    cbn [x y Heart_.setPosition]; try reflexivity; exfalso;
    try (specialize (Bx eq_refl); discriminate);
    try (specialize (By eq_refl); discriminate);
    destruct Hin' as [[? ?]|[? ?]]; discriminate.
Qed.

End ClampMore.

(** X1. The boundary clamp where [main] uses it: a position with at most one
    coordinate outside the interior (of a box at least 2 wide and high,
    neither coordinate NaN).  The step clamps each coordinate to its own
    interval; it brings the position inside, bounds included, leaves a
    coordinate that was inside as it is, and applying it again changes
    nothing. *)
Theorem constrain_one_axis_out (b : BattleBox) (h : Heart) :
  2 <= width b -> 2 <= height b ->
  a_number (x h) = true -> a_number (y h) = true ->
  inside_x b h \/ inside_y b h ->
  let h' := Main.constrain b h in
  position h' = (clamped (box_x b + 1) (box_x b + width b - 1) (x h),
                 clamped (box_y b + 1) (box_y b + height b - 1) (y h)) /\
  in_box b h' /\
  (inside_x b h -> x h' = x h) /\ (inside_y b h -> y h' = y h) /\
  Main.constrain b h' = h'.
Proof.
  intros Hw Hh Nx Ny Hin h'.
  apply ClampMore.a_number_number in Nx, Ny.
  assert (Hbox : in_box b h') by (now apply Clamp.constrain_single_axis).
  split; [now apply ClampMore.constrain_clamped|].
  split; [exact Hbox|].
  split; [apply ClampMore.constrain_keeps_x|].
  split; [apply ClampMore.constrain_keeps_y|].
  now apply Clamp.constrain_in_box.
Qed.

Lemma constrain_one_axis_out_witness :
  let b := BattleBox_.new 20 4 40 16 in
  let h := Heart_.setPosition (F32.of_int 70) (F32.of_int 12) (Heart_.new 96 40 12) in
  in_box b (Main.constrain b h) /\ y (Main.constrain b h) = y h.
Proof.
  intros b h.
  assert (Hy : inside_y b h) by (split; reflexivity).
  destruct (constrain_one_axis_out b h ltac:(simpl; lia) ltac:(simpl; lia)
              eq_refl eq_refl (or_intror Hy)) as (_ & Hin & _ & Ky & _).
  split; [exact Hin | exact (Ky Hy)].
Defined.

(** ** The cell a position is drawn at *)

Module Cells.
Import Rounding RoundingFacts F32Facts.

(** An [int] of at most 24 bits is converted exactly. *)
Lemma of_int_ord (z : Z) : Z.abs z < 16777216 -> ord (F32.of_int z) = z * 2 ^ 149.
Proof.
  intros Hz; unfold F32.of_int.
  rewrite (proj2 (normalize_spec _ _ prec_pos prec_lt_emax z 0 false emin_le_0)).
  apply (RoundingMore.normalized_exact _ _ prec_pos prec_lt_emax z Hz).
Qed.

Lemma round_to_int_ord (a : float) (lo hi : Z) :
  number a -> finite a ->
  lo * 2 ^ 149 <= ord a <= hi * 2 ^ 149 -> lo <= F32.round_to_int a <= hi.
Proof.
  intros [Va _] Fa [Hlo Hhi].
  apply (RoundingMore.round_to_int_between a 149 lo hi); [lia| |exact Fa| |].
  - intros s m e ->; cbn [valid_binary] in Va.
    destruct (bounded_canonical _ _ m e Va) as [Ca _].
    apply canonical_digits in Ca as [He _]. exact He.
  - destruct a as [s|s| |s m e]; try contradiction; cbn [Rounding.ord] in Hlo; [lia|].
    change (e - emin F32.prec F32.emax) with (e - -149) in Hlo.
    replace (e + 149) with (e - -149) by lia. now destruct s.
  - destruct a as [s|s| |s m e]; try contradiction; cbn [Rounding.ord] in Hhi; [lia|].
    change (e - emin F32.prec F32.emax) with (e - -149) in Hhi.
    replace (e + 149) with (e - -149) by lia. now destruct s.
Qed.

Lemma round_trip (z : Z) : Z.abs z < 16777216 -> F32.round_to_int (F32.of_int z) = z.
Proof.
  intros Hz.
  assert (z <= F32.round_to_int (F32.of_int z) <= z); [|lia].
  apply round_to_int_ord; [apply of_int_number | apply of_int_finite; lia|].
  rewrite (of_int_ord z Hz); lia.
Qed.

(** A float between two small [int]s rounds to an [int] between them. *)
Lemma round_between (lo hi : Z) (a : float) :
  Z.abs lo < 16777216 -> Z.abs hi < 16777216 -> number a ->
  F32.leb (F32.of_int lo) a = true -> F32.leb a (F32.of_int hi) = true ->
  lo <= F32.round_to_int a <= hi.
Proof.
  intros Hlo Hhi Na L U.
  assert (Fa : finite a).
  { apply (in_range_finite (F32.of_int lo) a (F32.of_int hi)); auto.
    - apply of_int_finite; lia.
    - apply of_int_finite; lia.
    - apply Na. }
  apply (leb_ord _ _ prec_pos prec_lt_emax) in L, U; auto using of_int_number.
  rewrite of_int_ord in L, U by assumption.
  now apply round_to_int_ord.
Qed.

Lemma in_box_interior (b : BattleBox) (h : Heart) :
  Z.abs (box_x b + 1) < 16777216 -> Z.abs (box_x b + width b - 1) < 16777216 ->
  Z.abs (box_y b + 1) < 16777216 -> Z.abs (box_y b + height b - 1) < 16777216 ->
  number (x h) -> number (y h) -> in_box b h -> interior b (cell h).
Proof.
  intros ? ? ? ? Nx Ny (X1 & X2 & Y1 & Y2); split; cbn [cell fst snd];
    now apply round_between.
Qed.

End Cells.

(** X12. A new entity is drawn where it was constructed: for start
    coordinates of at most 24 bits, which the conversion to [float] keeps
    exactly, the position rounds to the start cell, so that the first [draw]
    erases nothing and only puts the glyph there. *)
Theorem new_heart_draws_at_start (d startX startY : Z) :
  Z.abs startX < 16777216 -> Z.abs startY < 16777216 ->
  let h := Heart_.new d startX startY in
  cell h = (startY, startX) /\ Heart_.draw h = (glyph d (startY, startX), h).
Proof.
  intros Hx Hy h.
  assert (Ec : cell h = (startY, startX))
    by (unfold cell, h; cbn [x y Heart_.new]; now rewrite !Cells.round_trip).
  split; [exact Ec|].
  rewrite <- Ec; apply (Screen.draw_in_place h). exact Ec.
Qed.

Lemma new_heart_draws_at_start_witness :
  Heart_.draw (Heart_.new 96 40 12) = (glyph 96 (12, 40), Heart_.new 96 40 12).
Proof.
  refine (proj2 (new_heart_draws_at_start 96 40 12 _ _)); simpl; lia.
Defined.

(** ** Invariants of the loop *)

Module Loop.
Import Rounding RoundingFacts F32Facts.

(** What every iteration preserves holds at the end of every run. *)
Lemma game_loop_invariant (P : Main.World -> Prop) :
  (forall pending w, Main.running w = true -> P w -> P (fst (Main.frame pending w))) ->
  forall input carry w, P w -> P (Main.game_loop input carry w).
Proof.
  intros Hstep input; induction input as [|keys later IH]; intros carry w Hw;
    cbn [Main.game_loop]; [exact Hw|].
  destruct (Main.running w) eqn:Hrun; [|exact Hw].
  specialize (Hstep (carry ++ keys) w Hrun Hw).
  destruct (Main.frame (carry ++ keys) w) as [w' unread]; now apply IH.
Qed.

Lemma handle_key_drawn (ch : Z) (h : Heart) :
  drawn (Main.handle_key ch h) = drawn h /\ symbol (Main.handle_key ch h) = symbol h.
Proof.
  Tuning.key_cases; try (split; reflexivity);
    match goal with
    | |- context [Heart_.setDirection ?dx ?dy h] =>
        destruct (Frame.setDirection_keeps dx dy h) as (_ & _ & _ & Ex & Ey & Es);
        unfold drawn; now rewrite Ex, Ey, Es
    end.
Qed.

Lemma drain_drawn (pending : list Z) (h : Heart) (run : bool) :
  drawn (fst (fst (Main.drain pending h run))) = drawn h /\
  symbol (fst (fst (Main.drain pending h run))) = symbol h.
Proof.
  revert h; induction pending as [|k ks IH]; intros h; cbn [Main.drain fst]; [auto|].
  destruct (k =? ERR); [auto|]. destruct (Main.is_quit k); [auto|].
  destruct (IH (Main.handle_key k h)) as [-> ->]. apply handle_key_drawn.
Qed.

(** The entity as [draw] finds it in an iteration: drawn where the previous
    iteration left it, with the same glyph. *)
Lemma before_draw (b : BattleBox) (pending : list Z) (h : Heart) (run : bool) :
  let h2 := Main.constrain b (Heart_.update (fst (fst (Main.drain pending h run)))) in
  drawn h2 = drawn h /\ symbol h2 = symbol h.
Proof.
  intros h2; unfold h2.
  destruct (drain_drawn pending h run) as [Ed Es].
  set (h0 := fst (fst (Main.drain pending h run))) in *.
  destruct (Frame.update_keeps h0) as (_ & _ & _ & _ & Ux & Uy & Us).
  destruct (Frame.constrain_keeps b (Heart_.update h0)) as (_ & _ & _ & _ & Cx & Cy & Cs).
  unfold drawn in *; rewrite Cx, Cy, Cs, Ux, Uy, Us. auto.
Qed.

(** One iteration, around the [draw] it ends with. *)
Lemma frame_draw (pending : list Z) (w : Main.World) :
  let h2 := Main.constrain (Main.battleBox w)
              (Heart_.update (fst (fst (Main.drain pending (Main.heart w) (Main.running w))))) in
  let w' := fst (Main.frame pending w) in
  Main.heart w' = snd (Heart_.draw h2) /\
  Main.battleBox w' = Main.battleBox w /\
  Main.screen w' = Main.screen w ++ fst (Heart_.draw h2) ++ [Refresh; Usleep 16667].
Proof.
  intros h2 w'; unfold w'; rewrite Frame.frame_eq; cbv beta iota zeta.
  cbn [fst Main.heart Main.battleBox Main.screen].
  now rewrite Frame.rest_of_frame_eq.
Qed.

Lemma draw_events (h : Heart) (r c ch : Z) :
  In (Mvaddch r c ch) (fst (Heart_.draw h)) ->
  ((r, c) = drawn h /\ ch = SPACE) \/ ((r, c) = cell h /\ ch = symbol h).
Proof.
  destruct (Screen.draw_eq h) as [E _]; rewrite E; cbn [fst]; intros Hin.
  apply in_app_or in Hin as [Hin|Hin].
  - destruct (same_cell _ _); [contradiction|].
    destruct Hin as [[= <- <- <-]|[]]; now left.
  - destruct Hin as [Hin|[Hin|[Hin|[]]]]; try discriminate.
    injection Hin as <- <- <-. right; split; reflexivity.
Qed.

Lemma init_screen (d maxY maxX : Z) :
  let b := BattleBox_.new (Z.quot maxX 2 - 20) (Z.quot maxY 2 - 8) 40 16 in
  Main.screen (Main.init d maxY maxX) =
    ([Attron A_REVERSE] ++ border b ++ [Attroff A_REVERSE]) ++
    [Mvprintw (maxY - 3) 2 "Arrow keys to set direction, Space to stop/start";
     Mvprintw (maxY - 2) 2 "Q to quit"].
Proof.
  intros b; unfold Main.init, BattleBox_.draw, border.
  cbn [needsRedraw BattleBox_.new negb Main.screen]. fold b.
  now rewrite <- (app_assoc (BattleBox_.top_bottom b)).
Qed.

Lemma init_blank (d maxY maxX r c ch : Z) :
  In (Mvaddch r c ch) (Main.screen (Main.init d maxY maxX)) -> ch = SPACE.
Proof.
  rewrite init_screen; cbv zeta.
  set (b := BattleBox_.new _ _ _ _); unfold border.
  rewrite !in_app_iff; intros [[Hin|[[Hin|Hin]|Hin]]|Hin].
  - destruct Hin as [Hin|[]]; discriminate.
  - now apply in_top_bottom in Hin.
  - now apply in_left_right in Hin.
  - destruct Hin as [Hin|[]]; discriminate.
  - destruct Hin as [Hin|[Hin|[]]]; discriminate.
Qed.

Lemma init_box (d maxY maxX : Z) :
  0 <= maxX <= 2147483647 -> 0 <= maxY <= 2147483647 ->
  let b := Main.battleBox (Main.init d maxY maxX) in
  (box_x b = Z.quot maxX 2 - 20 /\ box_y b = Z.quot maxY 2 - 8 /\
   width b = 40 /\ height b = 16) /\
  0 <= Z.quot maxX 2 <= maxX / 2 /\ 0 <= Z.quot maxY 2 <= maxY / 2 /\
  well_placed b (Main.heart (Main.init d maxY maxX)).
Proof.
  intros Hx Hy b.
  assert (Qx : 0 <= Z.quot maxX 2 <= maxX / 2)
    by (rewrite Z.quot_div_nonneg by lia; split; [apply Z.div_pos; lia | lia]).
  assert (Qy : 0 <= Z.quot maxY 2 <= maxY / 2)
    by (rewrite Z.quot_div_nonneg by lia; split; [apply Z.div_pos; lia | lia]).
  split; [repeat split|]. split; [exact Qx|]. split; [exact Qy|].
  split; [apply Tuning.new_tuned|]. split; [left; reflexivity|].
  split; [apply of_int_number|]. split; [apply of_int_number|].
  unfold in_box, b; cbn [x y Heart_.new box_x box_y width height Main.init
    Main.battleBox Main.heart BattleBox_.draw BattleBox_.new needsRedraw negb snd].
  repeat split; apply of_int_le; lia.
Qed.

End Loop.

(** X2. What holds of the entity in every run of [main], on a terminal
    whose size is an [int], at the end of every iteration: the box is the
    one built at the start; the position is inside its interior, bounds
    included, and both coordinates are finite; the direction is (0, 0) or
    one of the four unit vectors of the arrow keys, never a diagonal; the
    glyph is the one given at construction. *)
Theorem run_invariant (d maxY maxX : Z) (input : list (list Z)) :
  0 <= maxX <= 2147483647 -> 0 <= maxY <= 2147483647 ->
  let w0 := Main.init d maxY maxX in
  let w := Main.game_loop input [] w0 in
  Main.battleBox w = Main.battleBox w0 /\
  in_box (Main.battleBox w) (Main.heart w) /\
  finite_float (x (Main.heart w)) = true /\ finite_float (y (Main.heart w)) = true /\
  In (direction (Main.heart w)) headings /\
  symbol (Main.heart w) = d.
Proof.
  intros Hx Hy w0 w.
  destruct (Loop.init_box d maxY maxX Hx Hy) as ((Bx & By & Bw & Bh) & Qx & Qy & Hwp0).
  fold w0 in Bx, By, Bw, Bh, Hwp0.
  assert (Dx : maxX / 2 < 1073741824) by (apply Z.div_lt_upper_bound; lia).
  assert (Dy : maxY / 2 < 1073741824) by (apply Z.div_lt_upper_bound; lia).
  destruct (Run.game_loop_well_placed input [] w0) as [Eb Hwp];
    rewrite ?Bx, ?By, ?Bw, ?Bh; try lia; try exact Hwp0.
  fold w in Eb, Hwp. split; [exact Eb|]. rewrite Eb.
  destruct Hwp as (_ & Hd & Nx & Ny & Hin).
  destruct (Run.in_box_finite (Main.battleBox w0) (Main.heart w)) as [Fx Fy];
    rewrite ?Bx, ?By, ?Bw, ?Bh; try lia; try assumption.
  split; [exact Hin|].
  assert (Hf : forall a, F32Facts.number a -> Rounding.finite a -> finite_float a = true).
  { intros a [Va _] Fa; unfold finite_float, F32.valid; rewrite Va.
    now destruct a. }
  split; [now apply Hf|]. split; [now apply Hf|]. split; [exact Hd|].
  apply (Loop.game_loop_invariant (fun w => symbol (Main.heart w) = d)); [|reflexivity].
  intros pending v _ Hv.
  destruct (Loop.frame_draw pending v) as (-> & _ & _).
  destruct (Frame.draw_keeps
              (Main.constrain (Main.battleBox v)
                 (Heart_.update (fst (fst (Main.drain pending (Main.heart v)
                                             (Main.running v)))))))
    as (_ & _ & _ & _ & _ & ->).
  now destruct (Loop.before_draw (Main.battleBox v) pending (Main.heart v) (Main.running v))
    as [_ ->].
Qed.

Lemma run_invariant_witness :
  let w := Main.game_loop [[KEY_RIGHT]; []; [KEY_UP; 43]] [] (Main.init 96 24 80) in
  in_box (Main.battleBox w) (Main.heart w).
Proof.
  intros w.
  refine (proj1 (proj2 (run_invariant 96 24 80 [[KEY_RIGHT]; []; [KEY_UP; 43]] _ _))); lia.
Defined.

(** X4. The entity leaves no trail.  In every run of [main] with a glyph
    that is not a blank, a cell where the last character put is the glyph is
    the cell the entity is recorded as drawn at; and once an iteration has
    run, that cell does hold the glyph and is the cell the current position
    rounds to. *)
Theorem no_trail (d maxY maxX : Z) (input : list (list Z)) :
  d <> SPACE ->
  let w := Main.game_loop input [] (Main.init d maxY maxX) in
  (forall r c, last_put (Main.screen w) r c = Some d -> (r, c) = drawn (Main.heart w)) /\
  (input <> [] ->
   last_put (Main.screen w) (fst (drawn (Main.heart w))) (snd (drawn (Main.heart w)))
     = Some d /\
   drawn (Main.heart w) = cell (Main.heart w)).
Proof.
  intros Hd w.
  assert (Hstep : forall pending v,
            symbol (Main.heart v) = d ->
            let v' := fst (Main.frame pending v) in
            symbol (Main.heart v') = d /\
            drawn (Main.heart v') = cell (Main.heart v') /\
            forall r c,
              last_put (Main.screen v') r c =
                if same_cell (r, c) (drawn (Main.heart v')) then Some d
                else if same_cell (r, c) (drawn (Main.heart v)) then Some SPACE
                else last_put (Main.screen v) r c).
  { intros pending v Hs v'.
    destruct (Loop.frame_draw pending v) as (Eh & _ & Es); fold v' in Eh, Es.
    destruct (Loop.before_draw (Main.battleBox v) pending (Main.heart v) (Main.running v))
      as [Bd Bs].
    set (h2 := Main.constrain _ _) in *.
    destruct (Screen.draw_eq h2) as [_ D].
    pose proof (Screen.draw_last_put h2 (Main.screen v)) as L.
    destruct (Frame.draw_keeps h2) as (Ep & _ & _ & _ & _ & Ey).
    injection Ep as Epx Epy.
    assert (Ec : cell (Main.heart v') = cell h2)
      by (rewrite Eh; unfold cell; now rewrite Epx, Epy).
    rewrite Eh at 1 2. rewrite Ey, Bs, Hs, D, Ec.
    split; [reflexivity|]. split; [reflexivity|].
    intros r c; rewrite Es, app_assoc, Screen.last_put_app; cbn [last_put put].
    rewrite L, Eh, D, Bd, Bs, Hs. reflexivity. }
  split.
  - apply (Loop.game_loop_invariant
             (fun v => symbol (Main.heart v) = d /\
                       forall r c, last_put (Main.screen v) r c = Some d ->
                                   (r, c) = drawn (Main.heart v))).
    + intros pending v _ [Hs Hv].
      destruct (Hstep pending v Hs) as (Hs' & _ & L).
      split; [exact Hs'|]. intros r c; rewrite L.
      destruct (same_cell (r, c) (drawn (Main.heart (fst (Main.frame pending v))))) eqn:E1;
        [intros _; now apply Screen.same_cell_eq|].
      destruct (same_cell (r, c) (drawn (Main.heart v))) eqn:E2;
        [intros [= E]; now elim Hd|].
      intros Hl; apply Hv, Screen.same_cell_eq in Hl; congruence.
    + split; [reflexivity|].
      intros r c Hl; apply Screen.last_put_In, Loop.init_blank in Hl. now elim Hd.
  - intros Hne.
    assert (Hsym : forall v, symbol (Main.heart v) = d ->
              forall pending, symbol (Main.heart (fst (Main.frame pending v))) = d)
      by (intros v Hs pending; apply (Hstep pending v Hs)).
    assert (H : symbol (Main.heart w) = d /\
                last_put (Main.screen w) (fst (drawn (Main.heart w)))
                  (snd (drawn (Main.heart w))) = Some d /\
                drawn (Main.heart w) = cell (Main.heart w)); [|tauto].
    unfold w; destruct input as [|keys later]; [congruence|].
    cbn [Main.game_loop]. change (Main.running (Main.init d maxY maxX)) with true.
    cbv iota.
    destruct (Hstep ([] ++ keys) (Main.init d maxY maxX) eq_refl) as (Hs1 & Hc1 & L1).
    destruct (Main.frame ([] ++ keys) (Main.init d maxY maxX)) as [w1 unread];
      cbn [fst] in Hs1, Hc1, L1.
    apply (Loop.game_loop_invariant
             (fun v => symbol (Main.heart v) = d /\
                last_put (Main.screen v) (fst (drawn (Main.heart v)))
                  (snd (drawn (Main.heart v))) = Some d /\
                drawn (Main.heart v) = cell (Main.heart v))).
    + intros pending v _ (Hs & _).
      destruct (Hstep pending v Hs) as (Hs' & Hc' & L').
      split; [exact Hs'|]. split; [|exact Hc'].
      rewrite L'.
      replace (same_cell _ _) with true; [reflexivity|].
      symmetry; apply Screen.same_cell_eq. now destruct (drawn _).
    + split; [exact Hs1|]. split; [|exact Hc1].
      rewrite L1.
      replace (same_cell _ _) with true; [reflexivity|].
      symmetry; apply Screen.same_cell_eq. now destruct (drawn _).
Qed.

Lemma no_trail_witness :
  let w := Main.game_loop [[KEY_RIGHT]; []; []; [KEY_DOWN]; []] [] (Main.init 96 24 80) in
  drawn (Main.heart w) = cell (Main.heart w).
Proof.
  intros w.
  refine (proj2 (proj2 (no_trail 96 24 80 [[KEY_RIGHT]; []; []; [KEY_DOWN]; []] _) _));
    discriminate.
Defined.

Module Inside.
Import Rounding RoundingFacts F32Facts.

Lemma border_not_interior (b : BattleBox) (r c ch : Z) :
  In (Mvaddch r c ch) (border b) -> ~ interior b (r, c).
Proof.
  unfold border, interior; cbn [fst snd]; rewrite in_app_iff; intros [Hin|Hin].
  - apply in_top_bottom in Hin as (_ & Hr & _); lia.
  - apply in_left_right in Hin as (_ & _ & Hc); lia.
Qed.

Lemma init_cells_not_interior (d maxY maxX r c : Z) :
  interior (Main.battleBox (Main.init d maxY maxX)) (r, c) ->
  ~ In (r, c) (cells (Main.screen (Main.init d maxY maxX))).
Proof.
  intros Hi Hin; apply in_cells in Hin as (ch & Hin).
  rewrite Loop.init_screen in Hin; cbv zeta in Hin.
  rewrite !in_app_iff in Hin; destruct Hin as [[Hin|[Hin|Hin]]|Hin].
  - destruct Hin as [Hin|[]]; discriminate.
  - now apply border_not_interior in Hin.
  - destruct Hin as [Hin|[]]; discriminate.
  - destruct Hin as [Hin|[Hin|[]]]; discriminate.
Qed.

(** One iteration in a box of at most 24 bits: the entity stays well placed,
    and every [mvaddch] is at the cell it was drawn at or at the cell it is
    drawn at now, both in the interior. *)
Lemma frame_inside (b : BattleBox) (pending : list Z) (w : Main.World) :
  2 <= width b -> 2 <= height b ->
  Z.abs (box_x b + 1) < 16777216 -> Z.abs (box_x b + width b - 1) < 16777216 ->
  Z.abs (box_y b + 1) < 16777216 -> Z.abs (box_y b + height b - 1) < 16777216 ->
  Main.battleBox w = b -> well_placed b (Main.heart w) ->
  interior b (drawn (Main.heart w)) ->
  let w' := fst (Main.frame pending w) in
  Main.battleBox w' = b /\ well_placed b (Main.heart w') /\
  interior b (drawn (Main.heart w')) /\
  symbol (Main.heart w') = symbol (Main.heart w) /\
  exists evs, Main.screen w' = Main.screen w ++ evs /\
    forall r c ch, In (Mvaddch r c ch) evs ->
      interior b (r, c) /\ (ch = SPACE \/ ch = symbol (Main.heart w)).
Proof.
  intros Hw Hh R1 R2 R3 R4 Eb Hwp Hi w'.
  destruct (Loop.frame_draw pending w) as (Eh & Eb' & Es); fold w' in Eh, Eb', Es.
  destruct (Loop.before_draw (Main.battleBox w) pending (Main.heart w) (Main.running w))
    as [Bd Bs].
  assert (Hwp' : well_placed b (Main.heart w')).
  { unfold w'; rewrite Frame.frame_eq; cbv beta iota zeta; cbn [fst Main.heart].
    rewrite Eb. apply Run.rest_of_frame_well_placed; try lia.
    now apply Run.drain_well_placed. }
  rewrite Eb in *. set (h2 := Main.constrain b _) in *.
  destruct (Screen.draw_eq h2) as [_ D].
  destruct (Frame.draw_keeps h2) as (Ep & _ & _ & _ & _ & Ey).
  injection Ep as Epx Epy.
  assert (Ec : cell (Main.heart w') = cell h2)
    by (rewrite Eh; unfold cell; now rewrite Epx, Epy).
  assert (Ic : interior b (cell h2)).
  { rewrite <- Ec; destruct Hwp' as (_ & _ & Nx & Ny & Hin).
    now apply Cells.in_box_interior. }
  split; [exact Eb'|]. split; [exact Hwp'|].
  split; [rewrite Eh, D; exact Ic|].
  split; [rewrite Eh, Ey; exact Bs|].
  eexists; split; [exact Es|].
  intros r c ch Hin; apply in_app_or in Hin as [Hin|Hin].
  - apply Loop.draw_events in Hin as [[E ->]|[E ->]].
    + rewrite E, Bd; auto.
    + rewrite E, Bs; auto.
  - destruct Hin as [Hin|[Hin|[]]]; discriminate.
Qed.

End Inside.

(** X5. The loop never draws on the border.  On a terminal of at most
    2^24 rows and columns, every [mvaddch] a run of [main] makes after the
    start-up is at a cell strictly inside the border, puts a blank or the
    glyph, and is at none of the cells the border was drawn on. *)
Theorem loop_draws_inside (d maxY maxX : Z) (input : list (list Z)) :
  0 <= maxX <= 16777216 -> 0 <= maxY <= 16777216 ->
  let w0 := Main.init d maxY maxX in
  let w := Main.game_loop input [] w0 in
  interior (Main.battleBox w0) (drawn (Main.heart w)) /\
  exists evs, Main.screen w = Main.screen w0 ++ evs /\
    forall r c ch, In (Mvaddch r c ch) evs ->
      interior (Main.battleBox w0) (r, c) /\ (ch = SPACE \/ ch = d) /\
      ~ In (r, c) (cells (Main.screen w0)).
Proof.
  intros Hx Hy w0 w.
  destruct (Loop.init_box d maxY maxX) as ((Bx & By & Bw & Bh) & Qx & Qy & Hwp0); try lia.
  fold w0 in Bx, By, Bw, Bh, Hwp0.
  set (b := Main.battleBox w0) in *.
  assert (Dx : maxX / 2 <= 8388608) by (apply Z.div_le_upper_bound; lia).
  assert (Dy : maxY / 2 <= 8388608) by (apply Z.div_le_upper_bound; lia).
  assert (H : Main.battleBox w = b /\ well_placed b (Main.heart w) /\
              interior b (drawn (Main.heart w)) /\ symbol (Main.heart w) = d /\
              exists evs, Main.screen w = Main.screen w0 ++ evs /\
                forall r c ch, In (Mvaddch r c ch) evs ->
                  interior b (r, c) /\ (ch = SPACE \/ ch = d)).
  { apply (Loop.game_loop_invariant
             (fun v => Main.battleBox v = b /\ well_placed b (Main.heart v) /\
                interior b (drawn (Main.heart v)) /\ symbol (Main.heart v) = d /\
                exists evs, Main.screen v = Main.screen w0 ++ evs /\
                  forall r c ch, In (Mvaddch r c ch) evs ->
                    interior b (r, c) /\ (ch = SPACE \/ ch = d))).
    - intros pending v _ (Eb & Hwp & Hi & Hs & evs & Es & Hevs).
      destruct (Inside.frame_inside b pending v) as (Eb' & Hwp' & Hi' & Hs' & evs' & Es' & Hevs');
        rewrite ?Bx, ?By, ?Bw, ?Bh; try lia; try assumption.
      split; [exact Eb'|]. split; [exact Hwp'|]. split; [exact Hi'|].
      split; [congruence|].
      exists (evs ++ evs'); split; [now rewrite Es', Es, app_assoc|].
      intros r c ch Hin; apply in_app_or in Hin as [Hin|Hin]; [now apply Hevs|].
      rewrite <- Hs; now apply Hevs'.
    - split; [reflexivity|]. split; [exact Hwp0|].
      split; [unfold interior, b, w0; cbn; lia|]. split; [reflexivity|].
      exists []; split; [now rewrite app_nil_r | intros r c ch []]. }
  destruct H as (_ & _ & Hi & _ & evs & Es & Hevs).
  split; [exact Hi|]. exists evs; split; [exact Es|].
  intros r c ch Hin; destruct (Hevs r c ch Hin) as [Hint Hch].
  split; [exact Hint|]. split; [exact Hch|].
  now apply Inside.init_cells_not_interior.
Qed.

Lemma loop_draws_inside_witness :
  let w0 := Main.init 96 24 80 in
  interior (Main.battleBox w0)
    (drawn (Main.heart (Main.game_loop [[KEY_RIGHT]; []; [KEY_UP]] [] w0))).
Proof.
  intros w0.
  refine (proj1 (loop_draws_inside 96 24 80 [[KEY_RIGHT]; []; [KEY_UP]] _ _)); lia.
Defined.

(** ** Without arrow keys *)

Module Still.
Import Rounding RoundingFacts F32Facts.

Lemma tuned_positive (h : Heart) :
  tuned h -> positive_float (baseSpeed h) = true /\ positive_float (aspectRatio h) = true.
Proof.
  assert (Ha : forallb positive_float aspect_values = true) by (vm_compute; reflexivity).
  assert (Hs : forallb positive_float speed_values = true) by (vm_compute; reflexivity).
  rewrite forallb_forall in Ha, Hs; intros [Ia Is]; auto.
Qed.

Lemma add_zero_of_int (z : Z) : F32.add (F32.of_int z) F32.zero = F32.of_int z.
Proof.
  pose proof (of_int_number z) as [_ Nn]; pose proof (of_int_zero z) as Hz.
  unfold F32.add, F32.zero; destruct (F32.of_int z) as [t|t| |t m e]; cbn [SFadd];
    try congruence.
  now rewrite (Hz t eq_refl).
Qed.

Lemma update_zero_direction (cx cy : Z) (h : Heart) :
  tuned h -> direction h = (F32.zero, F32.zero) ->
  position h = (F32.of_int cx, F32.of_int cy) ->
  position (Heart_.update h) = position h.
Proof.
  intros Ht Hd Hp; injection Hd as Hdx Hdy; injection Hp as Hx Hy.
  destruct (tuned_positive h Ht) as [Ps Pa].
  unfold Heart_.update; destruct (moving h); [|reflexivity].
  unfold position; cbn [x y Heart_.setPosition].
  fold (delta_x h); fold (delta_y h).
  rewrite (delta_y_zero h Ps Hdy).
  assert (Ex : delta_x h = F32.zero).
  { apply positive_float_inv in Ps as (ms & es & Es & _).
    apply positive_float_inv in Pa as (ma & ea & Ea & _).
    unfold delta_x; now rewrite Hdx, Es, Ea. }
  now rewrite Ex, Hx, Hy, !add_zero_of_int.
Qed.

Lemma arrow_key_false (ch : Z) :
  arrow_key ch = false ->
  (ch =? KEY_UP) = false /\ (ch =? KEY_DOWN) = false /\
  (ch =? KEY_LEFT) = false /\ (ch =? KEY_RIGHT) = false.
Proof.
  unfold arrow_key; intros H.
  repeat (apply orb_false_elim in H as [H ?]); auto.
Qed.

Lemma handle_key_no_arrow (ch : Z) (h : Heart) :
  arrow_key ch = false -> direction (Main.handle_key ch h) = direction h.
Proof.
  intros H; apply arrow_key_false in H as (H1 & H2 & H3 & H4).
  unfold Main.handle_key; rewrite H1, H2, H3, H4.
  repeat match goal with
         | |- context [if ?c then _ else _] => destruct c
         end; reflexivity.
Qed.

Lemma drain_no_arrow (pending : list Z) (h : Heart) (run : bool) :
  Forall (fun k => arrow_key k = false /\ Main.is_quit k = false) pending ->
  direction (fst (fst (Main.drain pending h run))) = direction h /\
  position (fst (fst (Main.drain pending h run))) = position h /\
  snd (fst (Main.drain pending h run)) = run.
Proof.
  intros Hp; revert h; induction Hp as [|k ks [Hk Hq] _ IH]; intros h; cbn [Main.drain].
  - auto.
  - destruct (k =? ERR); [auto|]. rewrite Hq.
    destruct (IH (Main.handle_key k h)) as (-> & -> & ->).
    rewrite (handle_key_no_arrow k h Hk), (Run.handle_key_position k h); auto.
Qed.

Lemma game_loop_still (d cx cy : Z) (input : list (list Z)) (carry : list Z)
  (w : Main.World) :
  Z.abs cx < 16777216 -> Z.abs cy < 16777216 ->
  centred cx cy (Main.battleBox w) -> Main.running w = true ->
  tuned (Main.heart w) -> direction (Main.heart w) = (F32.zero, F32.zero) ->
  position (Main.heart w) = (F32.of_int cx, F32.of_int cy) ->
  drawn (Main.heart w) = (cy, cx) -> symbol (Main.heart w) = d ->
  Forall (fun k => arrow_key k = false /\ Main.is_quit k = false) carry ->
  Forall (Forall (fun k => arrow_key k = false /\ Main.is_quit k = false)) input ->
  let w' := Main.game_loop input carry w in
  position (Main.heart w') = (F32.of_int cx, F32.of_int cy) /\
  Main.running w' = true /\
  Main.screen w' =
    Main.screen w ++ concat (repeat (redraw_in_place d (cy, cx)) (List.length input)).
Proof.
  intros Hcx Hcy Hb Hrun Ht Hd Hp Hl Hs Hc Hi.
  revert carry w Hb Hrun Ht Hd Hp Hl Hs Hc.
  induction Hi as [|keys later Hk _ IH]; intros carry w Hb Hrun Ht Hd Hp Hl Hs Hc;
    cbn [Main.game_loop List.length repeat concat].
  - now rewrite app_nil_r.
  - rewrite Hrun.
    assert (Hall : Forall (fun k => arrow_key k = false /\ Main.is_quit k = false)
                     (carry ++ keys)) by (apply Forall_app; auto).
    destruct (drain_no_arrow (carry ++ keys) (Main.heart w) (Main.running w) Hall)
      as (Dd & Dp & Dr).
    destruct (Loop.drain_drawn (carry ++ keys) (Main.heart w) (Main.running w)) as [Dl Ds].
    pose proof (Tuning.drain_tuned (carry ++ keys) (Main.heart w) (Main.running w) Ht) as Dt.
    pose proof (Drain.drain_unread _ (carry ++ keys) (Main.heart w) (Main.running w) Hall)
      as Du.
    rewrite Frame.frame_eq; cbv beta iota zeta.
    rewrite Frame.rest_of_frame_eq; cbn [fst snd].
    set (dr := Main.drain (carry ++ keys) (Main.heart w) (Main.running w)) in *.
    set (h0 := fst (fst dr)) in *.
    assert (Up : position (Heart_.update h0) = (F32.of_int cx, F32.of_int cy))
      by (rewrite (update_zero_direction cx cy h0); congruence).
    destruct (Frame.update_keeps h0) as (Ud & Us & Ua & _ & Ux & Uy & Uy').
    assert (Ec : Main.constrain (Main.battleBox w) (Heart_.update h0) = Heart_.update h0)
      by (now apply (Rest.constrain_centre cx cy)).
    rewrite Ec.
    assert (El : drawn (Heart_.update h0) = (cy, cx))
      by (unfold drawn in *; rewrite Ux, Uy; congruence).
    assert (Ecell : cell (Heart_.update h0) = (cy, cx)).
    { injection Up as Upx Upy; unfold cell; rewrite Upx, Upy.
      now rewrite !Cells.round_trip. }
    rewrite (Screen.draw_in_place (Heart_.update h0)) by congruence. cbn [fst snd].
    rewrite Ecell, Uy', Ds, Hs.
    match goal with
    | |- context [Main.game_loop later ?u ?v] =>
        destruct (IH u v) as (Ip & Ir & Is)
    end; cbn [Main.heart Main.battleBox Main.running Main.screen]; try assumption.
    + congruence.
    + unfold tuned; now rewrite Us, Ua.
    + congruence.
    + congruence.
    + rewrite Is; cbn [Main.screen]. split; [exact Ip|]. split; [exact Ir|].
      unfold redraw_in_place at 2. now rewrite <- !app_assoc.
Qed.

End Still.

(** X11. Until an arrow key arrives the entity stays where it was
    constructed, whether Space has set it moving or not: its direction is
    still (0, 0), so [update] adds zero.  In a run without arrow and quit
    keys, on a terminal of fewer than 2^25 rows and columns, every iteration
    only puts the glyph at the centre cell again, flushes and sleeps:
    nothing is erased. *)
Theorem without_arrows_redrawn_in_place (d maxY maxX : Z) (input : list (list Z)) :
  0 <= maxX < 33554432 -> 0 <= maxY < 33554432 ->
  Forall (Forall (fun k => arrow_key k = false /\ Main.is_quit k = false)) input ->
  let w0 := Main.init d maxY maxX in
  let w := Main.game_loop input [] w0 in
  position (Main.heart w) = position (Main.heart w0) /\
  Main.running w = true /\
  Main.screen w =
    Main.screen w0 ++
    concat (repeat (redraw_in_place d (Z.quot maxY 2, Z.quot maxX 2)) (List.length input)).
Proof.
  intros Hx Hy Hi w0 w.
  destruct (Loop.init_box d maxY maxX) as (_ & Qx & Qy & Ht & _); try lia.
  assert (Dx : maxX / 2 < 16777216) by (apply Z.div_lt_upper_bound; lia).
  assert (Dy : maxY / 2 < 16777216) by (apply Z.div_lt_upper_bound; lia).
  apply (Still.game_loop_still d (Z.quot maxX 2) (Z.quot maxY 2) input [] w0);
    try reflexivity; try assumption; try lia.
  - apply Rest.init_centred.
  - constructor.
Qed.

Lemma without_arrows_redrawn_in_place_witness :
  let w0 := Main.init 96 24 80 in
  Main.screen (Main.game_loop [[32]; [43; 93]; []] [] w0) =
    Main.screen w0 ++ concat (repeat (redraw_in_place 96 (12, 40)) 3).
Proof.
  intros w0.
  refine (proj2 (proj2 (without_arrows_redrawn_in_place 96 24 80 [[32]; [43; 93]; []]
                          _ _ _))); try lia.
  repeat constructor.
Defined.

(** ** Saturation of aspect ratio and speed *)

Module Saturation.
Import Rounding RoundingFacts F32Facts.

Lemma leb_trans (a b c : float) :
  number a -> number b -> number c ->
  F32.leb a b = true -> F32.leb b c = true -> F32.leb a c = true.
Proof.
  intros Na Nb Nc H1 H2.
  apply (leb_ord _ _ prec_pos prec_lt_emax) in H1, H2; auto.
  apply (leb_ord _ _ prec_pos prec_lt_emax); auto; lia.
Qed.

Section Steps.
Variable L : list float.
Variable f : float -> float.
Variable R : float -> float -> bool.
Hypothesis R_refl : forall a, In a L -> R a a = true.
Hypothesis R_trans : forall a b c, In a L -> In b L -> In c L ->
  R a b = true -> R b c = true -> R a c = true.
Hypothesis step : forall a, In a L -> In (f a) L /\ R a (f a) = true.

Lemma iter_related (n : nat) (a : float) :
  In a L -> In (Nat.iter n f a) L /\ R a (Nat.iter n f a) = true.
Proof.
  intros Ha; induction n as [|n [IHin IHle]]; [split; auto|].
  rewrite Nat.iter_succ; destruct (step _ IHin) as [Hin Hle].
  split; [exact Hin | now apply (R_trans a (Nat.iter n f a))].
Qed.

Variable t : float.
Variable k : nat.
Hypothesis fixed : f t = t.
Hypothesis reach : forall a, In a L -> Nat.iter k f a = t.

Lemma iter_saturates (n : nat) (a : float) :
  In a L -> (k <= n)%nat -> Nat.iter n f a = t.
Proof.
  intros Ha Hn; replace n with ((n - k) + k)%nat by lia.
  rewrite Nat.iter_add, (reach a Ha).
  induction (n - k)%nat as [|m IH]; [reflexivity|].
  now rewrite Nat.iter_succ, IH.
Qed.

End Steps.

Lemma values_numbers (a : float) :
  In a aspect_values \/ In a speed_values -> number a.
Proof.
  assert (Ha : forallb a_number aspect_values = true) by (vm_compute; reflexivity).
  assert (Hs : forallb a_number speed_values = true) by (vm_compute; reflexivity).
  rewrite forallb_forall in Ha, Hs.
  intros [H|H]; apply ClampMore.a_number_number; auto.
Qed.

Lemma leb_refl_values (a : float) :
  In a aspect_values \/ In a speed_values -> F32.leb a a = true.
Proof. intros H; apply Clamp.leb_refl, values_numbers, H. Qed.

(** A fact checked on every element of a list of values. *)
Lemma checked (L : list float) (p : float -> bool) :
  forallb p L = true -> forall a, In a L -> p a = true.
Proof. intros H; rewrite forallb_forall in H; apply H. Qed.

Lemma aspect_up_steps (n : nat) (a : float) :
  In a aspect_values ->
  F32.leb a (Nat.iter n aspect_up a) = true /\
  ((21 <= n)%nat -> Nat.iter n aspect_up a = F32.five).
Proof.
  intros Ha; split.
  - apply (iter_related aspect_values aspect_up F32.leb); auto.
    + intros b Hb; apply leb_refl_values; auto.
    + intros b c e Hb Hc He; apply leb_trans; apply values_numbers; auto.
    + intros b Hb; split; [now apply Tuning.aspect_values_closed|].
      revert b Hb; apply (checked aspect_values (fun b => F32.leb b (aspect_up b))); vm_compute; reflexivity.
  - apply (iter_saturates aspect_values aspect_up F32.five 21); auto.
    intros b Hb; apply same_eq; revert b Hb;
      apply (checked aspect_values (fun b => F32.same (Nat.iter 21 aspect_up b) F32.five)); vm_compute; reflexivity.
Qed.

Lemma aspect_down_steps (n : nat) (a : float) :
  In a aspect_values ->
  F32.leb (Nat.iter n aspect_down a) a = true /\
  ((21 <= n)%nat -> Nat.iter n aspect_down a = F32.one).
Proof.
  intros Ha; split.
  - apply (iter_related aspect_values aspect_down (fun u v => F32.leb v u)); auto.
    + intros b Hb; apply leb_refl_values; auto.
    + intros b c e Hb Hc He H1 H2. apply (leb_trans e c b); auto; apply values_numbers; auto.
    + intros b Hb; split; [now apply Tuning.aspect_values_closed|].
      revert b Hb; apply (checked aspect_values (fun b => F32.leb (aspect_down b) b)); vm_compute; reflexivity.
  - apply (iter_saturates aspect_values aspect_down F32.one 21); auto.
    intros b Hb; apply same_eq; revert b Hb;
      apply (checked aspect_values (fun b => F32.same (Nat.iter 21 aspect_down b) F32.one)); vm_compute; reflexivity.
Qed.

Lemma speed_up_steps (n : nat) (a : float) :
  In a speed_values ->
  F32.leb a (Nat.iter n speed_up a) = true /\
  ((19 <= n)%nat -> Nat.iter n speed_up a = F32.one).
Proof.
  intros Ha; split.
  - apply (iter_related speed_values speed_up F32.leb); auto.
    + intros b Hb; apply leb_refl_values; auto.
    + intros b c e Hb Hc He; apply leb_trans; apply values_numbers; auto.
    + intros b Hb; split; [now apply Tuning.speed_values_closed|].
      revert b Hb; apply (checked speed_values (fun b => F32.leb b (speed_up b))); vm_compute; reflexivity.
  - apply (iter_saturates speed_values speed_up F32.one 19); auto.
    intros b Hb; apply same_eq; revert b Hb;
      apply (checked speed_values (fun b => F32.same (Nat.iter 19 speed_up b) F32.one)); vm_compute; reflexivity.
Qed.

Lemma speed_down_steps (n : nat) (a : float) :
  In a speed_values ->
  F32.leb (Nat.iter n speed_down a) a = true /\
  ((19 <= n)%nat -> Nat.iter n speed_down a = F32.c0_05).
Proof.
  intros Ha; split.
  - apply (iter_related speed_values speed_down (fun u v => F32.leb v u)); auto.
    + intros b Hb; apply leb_refl_values; auto.
    + intros b c e Hb Hc He H1 H2. apply (leb_trans e c b); auto; apply values_numbers; auto.
    + intros b Hb; split; [now apply Tuning.speed_values_closed|].
      revert b Hb; apply (checked speed_values (fun b => F32.leb (speed_down b) b)); vm_compute; reflexivity.
  - apply (iter_saturates speed_values speed_down F32.c0_05 19); auto.
    intros b Hb; apply same_eq; revert b Hb;
      apply (checked speed_values (fun b => F32.same (Nat.iter 19 speed_down b) F32.c0_05)); vm_compute; reflexivity.
Qed.

(** A run of keys that all make the same step on one of the two values. *)
Lemma run_keys_steps (get : Heart -> float) (f : float -> float) (P : Z -> Prop)
  (ks : list Z) (h : Heart) :
  (forall k g, P k -> get (Main.handle_key k g) = f (get g)) ->
  Forall P ks -> get (run_keys ks h) = Nat.iter (List.length ks) f (get h).
Proof.
  intros Hstep Hks; revert h; induction Hks as [|k ks Hk _ IH]; intros h; [reflexivity|].
  change (run_keys (k :: ks) h) with (run_keys ks (Main.handle_key k h)).
  cbn [List.length]; rewrite IH, Nat.iter_succ_r, (Hstep k h Hk); reflexivity.
Qed.

End Saturation.

(** X9. The aspect-ratio and speed keys saturate.  From any aspect ratio
    and speed the keys can reach from the start values, a run of '+'/'='
    never lowers the aspect ratio and 21 of them make it exactly 5.0; a run
    of '-'/'_' never raises it and 21 make it exactly 1.0; a run of ']'
    never lowers the speed and 19 make it exactly 1.0; a run of '[' never
    raises it and 19 make it exactly 0.05f. *)
Theorem tuning_keys_saturate (ks : list Z) (h : Heart) :
  tuned h ->
  let h' := run_keys ks h in
  (Forall (fun k => k = 43 \/ k = 61) ks ->
     F32.leb (aspectRatio h) (aspectRatio h') = true /\
     ((21 <= List.length ks)%nat -> aspectRatio h' = F32.five)) /\
  (Forall (fun k => k = 45 \/ k = 95) ks ->
     F32.leb (aspectRatio h') (aspectRatio h) = true /\
     ((21 <= List.length ks)%nat -> aspectRatio h' = F32.one)) /\
  (Forall (fun k => k = 93) ks ->
     F32.leb (baseSpeed h) (baseSpeed h') = true /\
     ((19 <= List.length ks)%nat -> baseSpeed h' = F32.one)) /\
  (Forall (fun k => k = 91) ks ->
     F32.leb (baseSpeed h') (baseSpeed h) = true /\
     ((19 <= List.length ks)%nat -> baseSpeed h' = F32.c0_05)).
Proof.
  intros [Ha Hs] h'; unfold h'; split; [|split; [|split]]; intros Hks.
  - rewrite (Saturation.run_keys_steps aspectRatio aspect_up
               (fun k => k = 43 \/ k = 61) ks h) by
      (try exact Hks; intros k g [-> | ->]; reflexivity).
    now apply Saturation.aspect_up_steps.
  - rewrite (Saturation.run_keys_steps aspectRatio aspect_down
               (fun k => k = 45 \/ k = 95) ks h) by
      (try exact Hks; intros k g [-> | ->]; reflexivity).
    now apply Saturation.aspect_down_steps.
  - rewrite (Saturation.run_keys_steps baseSpeed speed_up (fun k => k = 93) ks h) by
      (try exact Hks; intros k g ->; reflexivity).
    now apply Saturation.speed_up_steps.
  - rewrite (Saturation.run_keys_steps baseSpeed speed_down (fun k => k = 91) ks h) by
      (try exact Hks; intros k g ->; reflexivity).
    now apply Saturation.speed_down_steps.
Qed.

Lemma tuning_keys_saturate_witness :
  aspectRatio (run_keys (repeat 43 21) (Heart_.new 96 40 12)) = F32.five.
Proof.
  refine (proj2 (proj1 (tuning_keys_saturate (repeat 43 21) (Heart_.new 96 40 12) _) _) _).
  - split; apply mem_In; vm_compute; reflexivity.
  - repeat constructor.
  - simpl; lia.
Defined.

(** ** The sense of the arrow keys *)

Module Arrows.
Import Rounding RoundingFacts F32Facts.

Lemma handle_arrow (h : Heart) :
  Main.handle_key KEY_UP h = headed F32.zero F32.m_one h /\
  Main.handle_key KEY_DOWN h = headed F32.zero F32.one h /\
  Main.handle_key KEY_LEFT h = headed F32.m_one F32.zero h /\
  Main.handle_key KEY_RIGHT h = headed F32.one F32.zero h.
Proof. repeat split; vm_compute; reflexivity. Qed.

Lemma mul_positive (sd : bool) (r s : float) :
  number r -> signed sd r -> positive_float s = true ->
  number (F32.mul r s) /\ signed sd (F32.mul r s).
Proof.
  intros [Vr Nr] Sr Ps; apply positive_float_inv in Ps as (ms & es & -> & Bs).
  unfold F32.mul; destruct r as [t|t| |t mr er]; try contradiction;
    cbn [signed] in Sr; subst t.
  - cbn [SFmul]; rewrite xorb_false_r. split; [split; [reflexivity | discriminate]|reflexivity].
  - cbn [SFmul]; rewrite xorb_false_r. split; [split; [reflexivity | discriminate]|reflexivity].
  - destruct (mul_finite_number _ _ prec_pos prec_lt_emax sd false mr ms er es Vr Bs)
      as [Hn Hsg].
    rewrite xorb_false_r in Hsg. split; assumption.
Qed.

Lemma mul_zero_positive (s : float) :
  positive_float s = true -> F32.mul F32.zero s = F32.zero.
Proof. intros Ps; apply positive_float_inv in Ps as (ms & es & -> & _); reflexivity. Qed.

Lemma unit_number (sd : bool) :
  number (S754_finite sd 8388608 (-23)) /\ signed sd (S754_finite sd 8388608 (-23)).
Proof. split; [split; [reflexivity | discriminate] | reflexivity]. Qed.

(** Adding a zero gives a float that compares equal. *)
Lemma add_zero_eqb (a : float) :
  number a -> F32.eqb (F32.add a F32.zero) a = true.
Proof.
  intros Na; unfold F32.eqb, SFeqb, F32.add, F32.zero.
  rewrite (proj1 (add_zero_compare F32.prec F32.emax a a false)).
  rewrite (compare_ord _ _ prec_pos prec_lt_emax a a Na Na), Z.compare_refl. reflexivity.
Qed.

(** Adding a float with the sign bit [sd] moves to that side, or not at
    all. *)
Lemma add_signed (sd : bool) (a d : float) :
  number a -> finite a -> number d -> signed sd d ->
  number (F32.add a d) /\
  if sd then F32.leb (F32.add a d) a = true else F32.leb a (F32.add a d) = true.
Proof.
  intros Na Fa Nd Sd; destruct sd.
  - destruct (add_negative_le _ _ prec_pos prec_lt_emax a d Na Fa Nd
                (signed_negative d Sd)) as [Ns Ho].
    split; [exact Ns | apply (leb_ord _ _ prec_pos prec_lt_emax); auto].
  - destruct (RoundingMore.add_nonnegative_ge _ _ prec_pos prec_lt_emax a d Na Fa Nd Sd)
      as [Ns Ho].
    split; [exact Ns | apply (leb_ord _ _ prec_pos prec_lt_emax); auto].
Qed.

Lemma update_headed (dx dy : float) (h : Heart) :
  x (Heart_.update (headed dx dy h)) =
    F32.add (x h) (F32.mul (F32.mul dx (baseSpeed h)) (aspectRatio h)) /\
  y (Heart_.update (headed dx dy h)) = F32.add (y h) (F32.mul dy (baseSpeed h)).
Proof. split; reflexivity. Qed.

End Arrows.

(** X6. The sense of the arrow keys.  With a positive finite speed and
    aspect ratio and a finite position, the [update] that follows an arrow
    key never moves the entity against the arrow, and leaves the other
    coordinate equal: after Left [x] is not greater than before, after
    Right not smaller; after Up [y] is not greater (rows are counted
    downwards), after Down not smaller. *)
Theorem arrow_keys_sense (h : Heart) :
  positive_float (baseSpeed h) = true -> positive_float (aspectRatio h) = true ->
  finite_float (x h) = true -> finite_float (y h) = true ->
  let next ch := Heart_.update (Main.handle_key ch h) in
  (F32.leb (x (next KEY_LEFT)) (x h) = true /\ F32.eqb (y (next KEY_LEFT)) (y h) = true) /\
  (F32.leb (x h) (x (next KEY_RIGHT)) = true /\ F32.eqb (y (next KEY_RIGHT)) (y h) = true) /\
  (F32.leb (y (next KEY_UP)) (y h) = true /\ F32.eqb (x (next KEY_UP)) (x h) = true) /\
  (F32.leb (y h) (y (next KEY_DOWN)) = true /\ F32.eqb (x (next KEY_DOWN)) (x h) = true).
Proof.
  intros Ps Pa Fx Fy next.
  apply andb_prop in Fx as [Vx Fx]; apply andb_prop in Fy as [Vy Fy].
  destruct (Run.valid_finite_number _ Vx Fx) as [Nx Fx'].
  destruct (Run.valid_finite_number _ Vy Fy) as [Ny Fy'].
  destruct (Arrows.handle_arrow h) as (Eu & Ed & El & Er).
  assert (Hx : forall sd, let u := S754_finite sd 8388608 (-23) in
            if sd then F32.leb (x (Heart_.update (headed u F32.zero h))) (x h) = true
            else F32.leb (x h) (x (Heart_.update (headed u F32.zero h))) = true).
  { intros sd u.
    rewrite (proj1 (Arrows.update_headed u F32.zero h)).
    destruct (Arrows.unit_number sd) as [Nu Su]; fold u in Nu, Su.
    destruct (Arrows.mul_positive sd u (baseSpeed h) Nu Su Ps) as [N1 S1].
    destruct (Arrows.mul_positive sd _ (aspectRatio h) N1 S1 Pa) as [N2 S2].
    exact (proj2 (Arrows.add_signed sd (x h) _ Nx Fx' N2 S2)). }
  assert (Hy : forall sd, let u := S754_finite sd 8388608 (-23) in
            if sd then F32.leb (y (Heart_.update (headed F32.zero u h))) (y h) = true
            else F32.leb (y h) (y (Heart_.update (headed F32.zero u h))) = true).
  { intros sd u.
    rewrite (proj2 (Arrows.update_headed F32.zero u h)).
    destruct (Arrows.unit_number sd) as [Nu Su]; fold u in Nu, Su.
    destruct (Arrows.mul_positive sd u (baseSpeed h) Nu Su Ps) as [N1 S1].
    exact (proj2 (Arrows.add_signed sd (y h) _ Ny Fy' N1 S1)). }
  assert (Zx : forall u, F32.eqb (x (Heart_.update (headed F32.zero u h))) (x h) = true).
  { intros u.
    rewrite (proj1 (Arrows.update_headed F32.zero u h)).
    rewrite (Arrows.mul_zero_positive _ Ps), (Arrows.mul_zero_positive _ Pa).
    now apply Arrows.add_zero_eqb. }
  assert (Zy : forall u, F32.eqb (y (Heart_.update (headed u F32.zero h))) (y h) = true).
  { intros u.
    rewrite (proj2 (Arrows.update_headed u F32.zero h)).
    rewrite (Arrows.mul_zero_positive _ Ps).
    now apply Arrows.add_zero_eqb. }
  unfold next; rewrite Eu, Ed, El, Er.
  split; [split; [exact (Hx true) | apply Zy]|].
  split; [split; [exact (Hx false) | apply Zy]|].
  split; [split; [exact (Hy true) | apply Zx] | split; [exact (Hy false) | apply Zx]].
Qed.

Lemma arrow_keys_sense_witness :
  let h := Heart_.new 96 40 12 in
  F32.leb (x (Heart_.update (Main.handle_key KEY_LEFT h))) (x h) = true.
Proof.
  intros h.
  refine (proj1 (proj1 (arrow_keys_sense h _ _ _ _))); reflexivity.
Defined.

(** ** Steps that are not absorbed *)

Module Strict.
Import Rounding RoundingFacts.

Section Format.
Variables prec emax : Z.
Hypothesis Hprec : 0 < prec.
Hypothesis Hemax : prec < emax.

Local Abbreviation emin := (SpecFloat.emin prec emax).
Local Abbreviation top := (Rounding.top prec emax).
Local Abbreviation ord := (Rounding.ord prec emax).
Local Abbreviation rounded := (Rounding.rounded prec emax).
Local Abbreviation clip := (Rounding.clip prec emax).
Local Abbreviation normalized := (Rounding.normalized prec emax).
Local Abbreviation number := (Rounding.number prec emax).

(** A mantissa of at most [prec] bits, or 2^prec, times a power of two is
    not changed by rounding. *)
Lemma rounded_grid (q p : positive) (k e : Z) :
  0 <= k -> emin <= e -> Zpos q <= 2 ^ prec -> Zpos p = Zpos q * 2 ^ k ->
  rounded p e = Zpos p * 2 ^ (e - emin).
Proof.
  intros Hk He Hq Hp.
  assert (Hd : dig p = dig q + k).
  { apply dig_unique; rewrite Hp. pose proof (scaled_bounds q k Hk).
    replace (dig q + k - 1) with (dig q - 1 + k) by lia. assumption. }
  unfold Rounding.rounded; destruct (Z.leb_spec (dig p) prec) as [H|H]; [reflexivity|].
  pose proof (dig_bounds q) as [Lq Uq]; pose proof (dig_pos q) as Pq.
  assert (Hc : exists c, Zpos p = c * 2 ^ (dig p - prec)).
  { destruct (Z_le_gt_dec (dig q) prec) as [Hs|Hl].
    - exists (Zpos q * 2 ^ (k - (dig p - prec))).
      rewrite <- Z.mul_assoc, <- Z.pow_add_r by lia. rewrite Hp; f_equal; f_equal; lia.
    - assert (dig q = prec + 1).
      { destruct (Z_le_gt_dec (dig q) (prec + 1)) as [|Hgt]; [lia|exfalso].
        assert (2 ^ (prec + 1) <= 2 ^ (dig q - 1)) by (apply pow2_le; lia).
        assert (2 ^ prec < 2 ^ (prec + 1)) by (apply Z.pow_lt_mono_r; lia). lia. }
      assert (Zpos q = 2 ^ prec)
        by (replace (dig q - 1) with prec in Lq by lia; lia).
      exists (2 ^ (prec - 1)).
      rewrite <- Z.pow_add_r by lia. rewrite Hp; replace (Zpos q) with (2 ^ prec).
      rewrite <- Z.pow_add_r by lia. f_equal; lia. }
  destruct Hc as [c Hc]; rewrite Hc at 1.
  rewrite nearest_exact by lia.
  rewrite Hc, <- Z.mul_assoc, <- Z.pow_add_r by lia. f_equal; f_equal; lia.
Qed.

Lemma normalized_opp (z e : Z) : normalized (- z) e = - normalized z e.
Proof. destruct z; cbn [Z.opp Rounding.normalized]; lia. Qed.

(** Adding at least one unit of the last place of a float gives, after
    rounding, more than the float. *)
Lemma normalized_step_up (s : bool) (m : positive) (e e' D : Z) :
  bounded prec emax m e = true -> emin <= e' <= e -> 2 ^ (e - e') <= D ->
  cond_Zopp s (Zpos m * 2 ^ (e - emin)) <
  normalized (cond_Zopp s (Zpos m * 2 ^ (e - e')) + D) e'.
Proof.
  intros Hb He HD.
  pose proof (ord_finite prec emax Hprec Hemax s m e Hb) as [L U].
  destruct (bounded_canonical prec emax m e Hb) as [Hc _].
  destruct (canonical_digits prec emax m e Hc) as (_ & Hdig & _).
  pose proof (dig_bounds m) as [_ Um].
  assert (Hm : Zpos m < 2 ^ prec).
  { assert (2 ^ dig m <= 2 ^ prec) by (apply pow2_le; pose proof (dig_pos m); lia). lia. }
  pose proof (pow2_pos (e - e') ltac:(lia)) as P1.
  pose proof (pow2_pos (e' - emin) ltac:(lia)) as P2.
  assert (Hsplit : 2 ^ (e - emin) = 2 ^ (e - e') * 2 ^ (e' - emin))
    by (rewrite <- Z.pow_add_r by lia; f_equal; lia).
  set (zf := cond_Zopp s (Zpos m * 2 ^ (e - e')) + 2 ^ (e - e')).
  apply Z.lt_le_trans with (normalized zf e');
    [|apply (normalized_mono prec emax Hprec Hemax); unfold zf; lia].
  destruct s; cbn [cond_Zopp] in *.
  - (* towards zero *)
    assert (Ezf : zf = - ((Zpos m - 1) * 2 ^ (e - e'))) by (unfold zf; lia).
    rewrite Ezf, normalized_opp.
    destruct (Z.eq_dec (Zpos m) 1) as [E1|N1].
    + replace ((Zpos m - 1) * 2 ^ (e - e')) with 0 by (rewrite E1; lia).
      cbn [Rounding.normalized]. lia.
    + destruct (Zpos m - 1) as [|q|q] eqn:Eq; try lia.
      destruct (Zpos q * 2 ^ (e - e')) as [|p|p] eqn:Ep; try lia.
      cbn [Rounding.normalized].
      rewrite (rounded_grid q p (e - e') e') by lia.
      rewrite <- Ep, <- Z.mul_assoc, <- Hsplit.
      assert (Rounding.clip prec emax (Zpos q * 2 ^ (e - emin)) <= Zpos q * 2 ^ (e - emin))
        by (unfold Rounding.clip; lia).
      pose proof (pow2_pos (e - emin) ltac:(lia)). nia.
  - (* away from zero *)
    assert (Ezf : zf = (Zpos m + 1) * 2 ^ (e - e')) by (unfold zf; lia).
    rewrite Ezf.
    destruct (Zpos m + 1) as [|q|q] eqn:Eq; try lia.
    destruct (Zpos q * 2 ^ (e - e')) as [|p|p] eqn:Ep; try lia.
    cbn [Rounding.normalized].
    rewrite (rounded_grid q p (e - e') e') by lia.
    rewrite <- Ep, <- Z.mul_assoc, <- Hsplit.
    pose proof (pow2_pos (e - emin) ltac:(lia)).
    unfold Rounding.clip. apply Z.min_glb_lt; [nia | lia].
Qed.

(** Adding a finite float [d] with sign bit [sd], of magnitude at least one
    unit of the last place of [a], moves [a] strictly to that side. *)
Lemma add_moves (sd : bool) (a : spec_float) (md : positive) (ed : Z) :
  number a -> finite a -> bounded prec emax md ed = true ->
  (forall sa ma ea, a = S754_finite sa ma ea ->
     2 ^ (ea - emin) <= Zpos md * 2 ^ (ed - emin)) ->
  let r := SFadd prec emax a (S754_finite sd md ed) in
  number r /\ if sd then ord r < ord a else ord a < ord r.
Proof.
  intros Ha Fa Bd Hgap r.
  assert (Nd : number (S754_finite sd md ed)) by (split; [exact Bd | discriminate]).
  pose proof (ord_finite prec emax Hprec Hemax sd md ed Bd) as [Ld Ud].
  destruct a as [sa|sa| |sa ma ea]; try contradiction; unfold r; cbn [SFadd].
  - split; [exact Nd|]. cbn [Rounding.ord]; destruct sd; lia.
  - destruct Ha as [Va _]; cbn [valid_binary] in Va.
    destruct (bounded_canonical prec emax ma ea Va) as [Ca _],
             (bounded_canonical prec emax md ed Bd) as [Cd _].
    apply (canonical_digits prec emax) in Ca, Cd.
    set (e' := Z.min ea ed).
    assert (He : emin <= e') by (unfold e'; lia).
    destruct (normalize_spec prec emax Hprec Hemax
                (cond_Zopp sa (Zpos (fst (shl_align ma ea e'))) +
                 cond_Zopp sd (Zpos (fst (shl_align md ed e'))))
                e' false He) as [Hn Ho].
    split; [exact Hn|]. rewrite Ho, !shl_align_value by (unfold e'; lia).
    specialize (Hgap sa ma ea eq_refl).
    pose proof (pow2_pos (e' - emin) ltac:(lia)) as P2.
    pose proof (pow2_pos (ea - e') ltac:(unfold e'; lia)) as P1.
    assert (HD : 2 ^ (ea - e') <= Zpos md * 2 ^ (ed - e')).
    { apply (Z.mul_le_mono_pos_r _ _ (2 ^ (e' - emin)) P2).
      rewrite <- Z.mul_assoc, <- !Z.pow_add_r by (unfold e'; lia).
      replace (ea - e' + (e' - emin)) with (ea - emin) by lia.
      replace (ed - e' + (e' - emin)) with (ed - emin) by lia. exact Hgap. }
    destruct sd; cbn [cond_Zopp Rounding.ord].
    + pose proof (normalized_step_up (negb sa) ma ea e' _ Va ltac:(unfold e'; lia) HD) as Hs.
      replace (cond_Zopp sa (Zpos ma * 2 ^ (ea - e')) + - (Zpos md * 2 ^ (ed - e')))
        with (- (cond_Zopp (negb sa) (Zpos ma * 2 ^ (ea - e')) + Zpos md * 2 ^ (ed - e')))
        by (destruct sa; cbn [cond_Zopp negb]; lia).
      rewrite normalized_opp. destruct sa; cbn [cond_Zopp negb] in *; lia.
    + pose proof (normalized_step_up sa ma ea e' _ Va ltac:(unfold e'; lia) HD) as Hs.
      destruct sa; cbn [cond_Zopp] in *; lia.
Qed.

End Format.

Import F32Facts.

(** A float strictly between -2^19 and 2^19 has a unit of the last place
    of at most 2^-5. *)
Lemma near_exponent (a : float) (s : bool) (m : positive) (e : Z) :
  near a = true -> a = S754_finite s m e ->
  bounded F32.prec F32.emax m e = true /\ e <= -5.
Proof.
  unfold near; intros H ->; apply andb_prop in H as [H Hhi]; apply andb_prop in H as [V Hlo].
  assert (Na : number (S754_finite s m e)) by (split; [exact V | discriminate]).
  split; [exact V|].
  apply (ltb_ord _ _ prec_pos prec_lt_emax) in Hhi, Hlo; auto using of_int_number.
  rewrite Cells.of_int_ord in Hhi, Hlo by (simpl; lia).
  cbn [Rounding.ord] in Hhi, Hlo.
  change (e - emin F32.prec F32.emax) with (e - -149) in Hhi, Hlo.
  destruct (Z_le_gt_dec e (-5)) as [|Hgt]; [assumption|exfalso].
  destruct (bounded_canonical _ _ m e V) as [Hc _].
  destruct (canonical_digits _ _ m e Hc) as (_ & _ & Hfull).
  assert (Hd : dig m = F32.prec) by (apply Hfull; change (emin F32.prec F32.emax) with (-149); lia).
  pose proof (dig_bounds m) as [Lm _]; rewrite Hd in Lm.
  change (2 ^ (F32.prec - 1)) with 8388608 in Lm.
  assert (H145 : 2 ^ 145 <= 2 ^ (e - -149)) by (apply pow2_le; lia).
  assert (P : 0 < 2 ^ 145) by (apply pow2_pos; lia).
  assert (E : 524288 * 2 ^ 149 = 8388608 * 2 ^ 145) by reflexivity.
  destruct s; nia.
Qed.

Lemma near_number (a : float) : near a = true -> number a /\ finite a.
Proof.
  unfold near; intros H; apply andb_prop in H as [H Hhi]; apply andb_prop in H as [V Hlo].
  assert (Nn : a <> S754_nan) by (intros ->; discriminate).
  split; [split; assumption|].
  apply (in_range_finite (F32.of_int (-524288)) a (F32.of_int 524288)); auto.
  - apply of_int_finite; lia.
  - apply of_int_finite; lia.
  - unfold SFleb; unfold F32.ltb, SFltb in Hlo. now destruct (SFcompare _ _) as [[| |]|].
  - unfold SFleb; unfold F32.ltb, SFltb in Hhi. now destruct (SFcompare _ _) as [[| |]|].
Qed.

(** A big step moves a near float strictly. *)
Lemma big_step_moves (sd : bool) (a d : float) :
  near a = true -> big_step sd d = true ->
  if sd then F32.ltb (F32.add a d) a = true else F32.ltb a (F32.add a d) = true.
Proof.
  intros Ha Hd; destruct (near_number a Ha) as [Na Fa].
  destruct d as [t|t| |t md ed]; try discriminate; cbn [big_step] in Hd.
  apply andb_prop in Hd as [Hd Hbig]; apply andb_prop in Hd as [Hs Bd].
  apply eqb_prop in Hs; subst t; apply Z.leb_le in Hbig.
  destruct (add_moves _ _ prec_pos prec_lt_emax sd a md ed Na Fa Bd) as [Nr Hr].
  { intros sa ma ea E; destruct (near_exponent a sa ma ea Ha E) as [Ba He].
    destruct (bounded_canonical _ _ ma ea Ba) as [Hc _].
    destruct (canonical_digits _ _ ma ea Hc) as (Hmin & _).
    change (emin F32.prec F32.emax) with (-149) in *.
    replace (ed - -149) with (ed + 149) by lia.
    apply Z.le_trans with (2 ^ 144); [apply pow2_le; lia | exact Hbig]. }
  unfold F32.ltb, F32.add; destruct sd;
    apply (ltb_ord _ _ prec_pos prec_lt_emax); auto.
Qed.

(** The displacements of the four arrow keys are big steps, for every
    speed and aspect ratio the keys reach. *)
Lemma tuned_big_steps (h : Heart) :
  tuned h ->
  big_step true (F32.mul (F32.mul F32.m_one (baseSpeed h)) (aspectRatio h)) = true /\
  big_step false (F32.mul (F32.mul F32.one (baseSpeed h)) (aspectRatio h)) = true /\
  big_step true (F32.mul F32.m_one (baseSpeed h)) = true /\
  big_step false (F32.mul F32.one (baseSpeed h)) = true.
Proof.
  assert (H : forallb (fun s =>
                big_step true (F32.mul F32.m_one s) && big_step false (F32.mul F32.one s) &&
                forallb (fun a =>
                  big_step true (F32.mul (F32.mul F32.m_one s) a) &&
                  big_step false (F32.mul (F32.mul F32.one s) a)) aspect_values)
              speed_values = true) by (vm_compute; reflexivity).
  rewrite forallb_forall in H; intros [Ha Hs]; specialize (H _ Hs).
  apply andb_prop in H as [H Hx]; apply andb_prop in H as [Hu Hd].
  rewrite forallb_forall in Hx; specialize (Hx _ Ha); apply andb_prop in Hx as [Hl Hr].
  auto.
Qed.

End Strict.

(** Far from the origin a step is absorbed by the rounding of the sum: at
    x = 2^22 with speed 0.05f and aspect ratio 1.0, Right leaves x
    unchanged. *)
Lemma far_step_is_absorbed :
  let h := Heart_.setSpeed F32.c0_05 (Heart_.setAspectRatio F32.one
             (Heart_.setPosition (F32.of_int 4194304) (F32.of_int 12)
                (Heart_.new 96 40 12))) in
  x (Heart_.update (Main.handle_key KEY_RIGHT h)) = x h.
Proof. vm_compute; reflexivity. Qed.

(** X13. The arrow keys do move the entity.  With an aspect ratio and a
    speed the keys can reach, and both coordinates strictly between -2^19
    and 2^19, the [update] that follows an arrow key changes the coordinate
    of the arrow strictly: Left makes [x] smaller, Right greater, Up makes
    [y] smaller, Down greater.  (Every step is at least 2^-5, and a float of
    that range is spaced at most 2^-5 from its neighbours.) *)
Theorem arrow_keys_move (h : Heart) :
  tuned h -> near (x h) = true -> near (y h) = true ->
  let next ch := Heart_.update (Main.handle_key ch h) in
  F32.ltb (x (next KEY_LEFT)) (x h) = true /\
  F32.ltb (x h) (x (next KEY_RIGHT)) = true /\
  F32.ltb (y (next KEY_UP)) (y h) = true /\
  F32.ltb (y h) (y (next KEY_DOWN)) = true.
Proof.
  intros Ht Hx Hy next.
  destruct (Arrows.handle_arrow h) as (Eu & Ed & El & Er).
  destruct (Strict.tuned_big_steps h Ht) as (Bl & Br & Bu & Bd).
  unfold next; rewrite Eu, Ed, El, Er.
  rewrite (proj1 (Arrows.update_headed F32.m_one F32.zero h)).
  rewrite (proj1 (Arrows.update_headed F32.one F32.zero h)).
  rewrite (proj2 (Arrows.update_headed F32.zero F32.m_one h)).
  rewrite (proj2 (Arrows.update_headed F32.zero F32.one h)).
  split; [exact (Strict.big_step_moves true _ _ Hx Bl)|].
  split; [exact (Strict.big_step_moves false _ _ Hx Br)|].
  split; [exact (Strict.big_step_moves true _ _ Hy Bu)|].
  exact (Strict.big_step_moves false _ _ Hy Bd).
Qed.

Lemma arrow_keys_move_witness :
  let h := Heart_.new 96 40 12 in
  F32.ltb (x h) (x (Heart_.update (Main.handle_key KEY_RIGHT h))) = true.
Proof.
  intros h.
  refine (proj1 (proj2 (arrow_keys_move h _ _ _))); try reflexivity.
  split; apply mem_In; vm_compute; reflexivity.
Defined.

(** ** The layout of the screen *)

Module Layout.

Lemma border_cells (b : BattleBox) (r c ch : Z) :
  0 <= width b -> 0 <= height b ->
  In (Mvaddch r c ch) (border b) ->
  box_y b <= r <= box_y b + height b /\ box_x b - 1 <= c <= box_x b + width b + 1.
Proof.
  unfold border; rewrite in_app_iff; intros Hw Hh [Hin|Hin].
  - apply in_top_bottom in Hin as (_ & Hr & Hc); lia.
  - apply in_left_right in Hin as (_ & Hr & Hc); lia.
Qed.

Lemma in_written_text (r c : Z) (s : string) (p : Z * Z) :
  In p (written_cells (Mvprintw r c s)) <->
  fst p = r /\ c <= snd p < c + Z.of_nat (String.length s).
Proof.
  cbn [written_cells]; rewrite in_map_iff; split.
  - intros (i & <- & Hi); apply in_seq in Hi; cbn [fst snd]; lia.
  - intros [Hr Hc]; exists (Z.to_nat (snd p - c)); split.
    + destruct p as [pr pc]; cbn [fst snd] in *; subst; f_equal; lia.
    + apply in_seq; lia.
Qed.

End Layout.

(** X14. The layout [main] sets up, on a terminal of at least 23 rows and
    50 columns.  Every cell of the border, every cell inside it and both
    lines of help text are on the screen; the help text fits in its rows,
    which lie below the bottom border.  (On 22 rows the first help line is
    on the row of the bottom border.) *)
Theorem layout_fits (d maxY maxX : Z) :
  23 <= maxY -> 50 <= maxX ->
  let w0 := Main.init d maxY maxX in
  let b := Main.battleBox w0 in
  (forall e p, In e (Main.screen w0) -> In p (written_cells e) -> on_screen maxY maxX p) /\
  (forall p, interior b p -> on_screen maxY maxX p) /\
  (forall r c s p, In (Mvprintw r c s) (Main.screen w0) ->
     In p (written_cells (Mvprintw r c s)) -> box_y b + height b < fst p).
Proof.
  intros Hy Hx w0 b.
  assert (Qx : 2 * Z.quot maxX 2 <= maxX < 2 * Z.quot maxX 2 + 2).
  { rewrite Z.quot_div_nonneg by lia.
    pose proof (Z.div_mod maxX 2 ltac:(lia)); pose proof (Z.mod_pos_bound maxX 2 ltac:(lia)).
    lia. }
  assert (Qy : 2 * Z.quot maxY 2 <= maxY < 2 * Z.quot maxY 2 + 2).
  { rewrite Z.quot_div_nonneg by lia.
    pose proof (Z.div_mod maxY 2 ltac:(lia)); pose proof (Z.mod_pos_bound maxY 2 ltac:(lia)).
    lia. }
  assert (Hb : box_x b = Z.quot maxX 2 - 20 /\ box_y b = Z.quot maxY 2 - 8 /\
               width b = 40 /\ height b = 16) by (repeat split).
  destruct Hb as (Bx & By & Bw & Bh).
  assert (Htext : forall r c s p, In (Mvprintw r c s) (Main.screen w0) ->
            In p (written_cells (Mvprintw r c s)) ->
            maxY - 3 <= fst p <= maxY - 2 /\ 2 <= snd p < 50).
  { intros r c s p Hin Hp; unfold w0 in Hin; rewrite Loop.init_screen in Hin.
    cbv zeta in Hin; rewrite !in_app_iff in Hin.
    apply Layout.in_written_text in Hp as [Hr Hc].
    destruct Hin as [[Hin|[Hin|Hin]]|Hin].
    - destruct Hin as [Hin|[]]; discriminate.
    - unfold border in Hin; apply in_app_or in Hin as [Hin|Hin].
      + unfold BattleBox_.top_bottom in Hin.
        apply in_flat_map in Hin as (i & _ & [Hin|[Hin|[]]]); discriminate.
      + unfold BattleBox_.left_right in Hin.
        apply in_flat_map in Hin as (i & _ & [Hin|[Hin|[Hin|[Hin|[]]]]]); discriminate.
    - destruct Hin as [Hin|[]]; discriminate.
    - destruct Hin as [Hin|[Hin|[]]]; injection Hin as <- <- <-;
        cbn [String.length] in Hc; lia. }
  split; [|split].
  - intros e p Hin Hp; destruct e as [a|a|r c ch|r c s| |us]; try contradiction.
    + destruct Hp as [<-|[]].
      unfold w0 in Hin; rewrite Loop.init_screen in Hin; cbv zeta in Hin.
      rewrite !in_app_iff in Hin; destruct Hin as [[Hin|[Hin|Hin]]|Hin].
      * destruct Hin as [Hin|[]]; discriminate.
      * apply Layout.border_cells in Hin;
          cbn [box_x box_y width height BattleBox_.new] in *; try lia.
        unfold on_screen; cbn [fst snd]; lia.
      * destruct Hin as [Hin|[]]; discriminate.
      * destruct Hin as [Hin|[Hin|[]]]; discriminate.
    + destruct (Htext r c s p Hin Hp); unfold on_screen; lia.
  - intros [r c] [Hr Hc]; unfold on_screen; cbn [fst snd] in *; lia.
  - intros r c s p Hin Hp; destruct (Htext r c s p Hin Hp); lia.
Qed.

Lemma layout_fits_witness : on_screen 24 80 (5, 21).
Proof.
  refine (proj1 (proj2 (layout_fits 96 24 80 _ _)) (5, 21) _); try lia.
  unfold interior; cbn; lia.
Defined.

(** On 22 rows the first help line is written on the row of the bottom
    border. *)
Lemma help_line_on_border_row :
  let w0 := Main.init 96 22 80 in
  In (Mvprintw (box_y (Main.battleBox w0) + height (Main.battleBox w0)) 2
        "Arrow keys to set direction, Space to stop/start") (Main.screen w0).
Proof. vm_compute; auto 200. Qed.

(** ** On a wall, heading into it *)

Module Walls.
Import Rounding RoundingFacts F32Facts.

Lemma number_a_number (a : float) : number a -> a_number a = true.
Proof.
  intros [V N]; unfold a_number, F32.valid; rewrite V.
  destruct a; try reflexivity; congruence.
Qed.

Lemma eqb_ord (a b : float) :
  number a -> number b -> F32.eqb a b = true <-> ord a = ord b.
Proof.
  intros Na Nb; unfold F32.eqb, SFeqb.
  rewrite (compare_ord _ _ prec_pos prec_lt_emax a b Na Nb).
  destruct (Z.compare_spec (ord a) (ord b)); split; intros; (reflexivity || lia || discriminate).
Qed.

Lemma eqb_finite (a : float) (z : Z) :
  - 2147483648 <= z <= 2147483647 -> F32.eqb a (F32.of_int z) = true -> finite a.
Proof.
  intros Hz H; pose proof (of_int_finite z Hz) as Fz.
  unfold F32.eqb, SFeqb in H.
  destruct (SFcompare a (F32.of_int z)) as [[| |]|] eqn:E; try discriminate.
  destruct (compare_Eq _ _ E) as [->|(s & t & -> & _)]; [exact Fz | exact I].
Qed.

(** The coordinate along the arrow: pushed against the bound it equals, it
    equals the bound again after the clamp. *)
Lemma along_coord (lo hi : Z) (sd : bool) (c d : float) :
  lo <= hi -> - 2147483648 <= lo -> hi <= 2147483647 ->
  number c -> number d -> signed sd d ->
  F32.eqb c (F32.of_int (if sd then lo else hi)) = true ->
  let c1 := F32.add c d in
  number c1 /\ a_number (clamped lo hi c1) = true /\
  F32.eqb (clamped lo hi c1) (F32.of_int (if sd then lo else hi)) = true.
Proof.
  intros Hl R1 R2 Nc Nd Sd He c1.
  pose proof (of_int_number lo) as Nlo; pose proof (of_int_number hi) as Nhi.
  assert (Hz : - 2147483648 <= (if sd then lo else hi) <= 2147483647)
    by (destruct sd; lia).
  pose proof (eqb_finite c _ Hz He) as Fc.
  destruct (Arrows.add_signed sd c d Nc Fc Nd Sd) as [N1 Hm]; fold c1 in N1, Hm.
  split; [exact N1|].
  pose proof (of_int_le lo hi Hl) as Hlh.
  apply (leb_ord _ _ prec_pos prec_lt_emax) in Hlh; auto.
  unfold clamped, F32.gtb.
  destruct (F32.ltb c1 (F32.of_int lo)) eqn:T1; [|destruct (SFltb (F32.of_int hi) c1) eqn:T2].
  - split; [now apply number_a_number|].
    apply (ltb_ord _ _ prec_pos prec_lt_emax) in T1; auto.
    destruct sd; [apply eqb_ord; auto|exfalso].
    apply (leb_ord _ _ prec_pos prec_lt_emax) in Hm; auto.
    apply eqb_ord in He; auto. lia.
  - split; [now apply number_a_number|].
    apply (ltb_ord _ _ prec_pos prec_lt_emax) in T2; auto.
    destruct sd; [exfalso|apply eqb_ord; auto].
    apply (leb_ord _ _ prec_pos prec_lt_emax) in Hm; auto.
    apply eqb_ord in He; auto. lia.
  - split; [now apply number_a_number|].
    apply Clamp.not_ltb_leb in T1; auto.
    assert (T2' : F32.leb c1 (F32.of_int hi) = true) by (apply Clamp.not_ltb_leb; auto).
    apply (leb_ord _ _ prec_pos prec_lt_emax) in T1, T2'; auto.
    apply eqb_ord; [assumption | destruct sd; assumption|].
    destruct sd; apply (leb_ord _ _ prec_pos prec_lt_emax) in Hm; auto;
      apply eqb_ord in He; auto; lia.
Qed.

(** The coordinate across the arrow: a zero is added, it stays inside. *)
Lemma across_coord (lo hi : Z) (c : float) :
  number c ->
  F32.leb (F32.of_int lo) c = true -> F32.leb c (F32.of_int hi) = true ->
  let c1 := F32.add c F32.zero in
  number c1 /\ F32.leb (F32.of_int lo) c1 = true /\ F32.leb c1 (F32.of_int hi) = true /\
  clamped lo hi c1 = c1.
Proof.
  intros Nc L U c1.
  destruct (Run.add_zero_same c F32.zero eq_refl) as (A1 & A2 & A3); fold c1 in A1, A2, A3.
  assert (L1 : F32.leb (F32.of_int lo) c1 = true) by (now rewrite A2).
  assert (U1 : F32.leb c1 (F32.of_int hi) = true) by (now rewrite A1).
  split; [auto|]. split; [exact L1|]. split; [exact U1|].
  unfold clamped, F32.gtb, F32.ltb.
  now rewrite (leb_not_ltb _ _ L1), (leb_not_ltb _ _ U1).
Qed.

Lemma arrow_key_cases (ch : Z) :
  arrow_key ch = true -> ch = KEY_UP \/ ch = KEY_DOWN \/ ch = KEY_LEFT \/ ch = KEY_RIGHT.
Proof.
  unfold arrow_key; intros H.
  repeat (apply orb_prop in H as [H|H]); apply Z.eqb_eq in H; auto.
Qed.

(** The position after [update] and the clamp, for an entity that is moving
    in direction [(dx, dy)]. *)
Lemma moved_clamped (b : BattleBox) (h : Heart) :
  2 <= width b -> 2 <= height b -> moving h = true ->
  let x1 := F32.add (x h) (delta_x h) in
  let y1 := F32.add (y h) (delta_y h) in
  number x1 -> number y1 ->
  (F32.leb (F32.of_int (box_x b + 1)) x1 = true /\
   F32.leb x1 (F32.of_int (box_x b + width b - 1)) = true) \/
  (F32.leb (F32.of_int (box_y b + 1)) y1 = true /\
   F32.leb y1 (F32.of_int (box_y b + height b - 1)) = true) ->
  position (idle_frame b h) =
    (clamped (box_x b + 1) (box_x b + width b - 1) x1,
     clamped (box_y b + 1) (box_y b + height b - 1) y1).
Proof.
  intros Hw Hh Hm x1 y1 Nx Ny Hin.
  rewrite Pinned.idle_frame_eq.
  destruct (Frame.draw_keeps (Main.constrain b (Heart_.update h))) as (-> & _).
  rewrite (update_moving h Hm).
  apply (ClampMore.constrain_clamped b
           (Heart_.setPosition x1 y1 h) Hw Hh Nx Ny Hin).
Qed.

Lemma idle_frame_at_wall (b : BattleBox) (ch : Z) (h : Heart) :
  2 <= width b -> 2 <= height b ->
  - 2147483648 <= box_x b + 1 -> box_x b + width b - 1 <= 2147483647 ->
  - 2147483648 <= box_y b + 1 -> box_y b + height b - 1 <= 2147483647 ->
  arrow_key ch = true ->
  positive_float (baseSpeed h) = true -> positive_float (aspectRatio h) = true ->
  at_wall b ch h -> at_wall b ch (idle_frame b h).
Proof.
  intros Hw Hh R1 R2 R3 R4 Hk Ps Pa (Hm & Hd & Nx & Ny & Hat).
  apply ClampMore.a_number_number in Nx, Ny.
  destruct (Frame.rest_of_frame_keeps b h) as (Kd & _ & _ & Km & _).
  fold (idle_frame b h) in Kd, Km.
  assert (Hdx : forall sd, directionX h = S754_finite sd 8388608 (-23) ->
            number (delta_x h) /\ signed sd (delta_x h)).
  { intros sd E; unfold delta_x; rewrite E.
    destruct (Arrows.unit_number sd) as [Nu Su].
    destruct (Arrows.mul_positive sd _ (baseSpeed h) Nu Su Ps) as [N1 S1].
    apply (Arrows.mul_positive sd _ (aspectRatio h) N1 S1 Pa). }
  assert (Hdy : forall sd, directionY h = S754_finite sd 8388608 (-23) ->
            number (delta_y h) /\ signed sd (delta_y h)).
  { intros sd E; unfold delta_y; rewrite E.
    destruct (Arrows.unit_number sd) as [Nu Su].
    apply (Arrows.mul_positive sd _ (baseSpeed h) Nu Su Ps). }
  assert (Zx : directionX h = F32.zero -> delta_x h = F32.zero).
  { intros E; unfold delta_x; rewrite E.
    now rewrite (Arrows.mul_zero_positive _ Ps), (Arrows.mul_zero_positive _ Pa). }
  assert (Zy : directionY h = F32.zero -> delta_y h = F32.zero).
  { intros E; unfold delta_y; rewrite E. now rewrite (Arrows.mul_zero_positive _ Ps). }
  unfold at_wall; rewrite Kd, Km. split; [exact Hm|]. split; [exact Hd|].
  assert (Hx : forall sd : bool, ch = (if sd then KEY_LEFT else KEY_RIGHT) ->
            a_number (x (idle_frame b h)) = true /\ a_number (y (idle_frame b h)) = true /\
            F32.eqb (x (idle_frame b h)) (F32.of_int (wall b ch)) = true /\
            inside_y b (idle_frame b h)).
  { intros sd E.
    assert (Ed : direction h = (S754_finite sd 8388608 (-23), F32.zero))
      by (rewrite Hd, E; now destruct sd).
    injection Ed as Edx Edy.
    assert (Ew : wall b ch = if sd then box_x b + 1 else box_x b + width b - 1)
      by (rewrite E; now destruct sd).
    assert (Hh' : horizontal ch = true) by (rewrite E; now destruct sd).
    rewrite Hh', Ew in Hat; destruct Hat as [He [Y1 Y2]].
    destruct (Hdx sd Edx) as [Nd Sd].
    destruct (along_coord (box_x b + 1) (box_x b + width b - 1) sd (x h) (delta_x h))
      as (N1 & A1 & E1); try assumption; try lia.
    destruct (across_coord (box_y b + 1) (box_y b + height b - 1) (y h) Ny Y1 Y2)
      as (N2 & L2 & U2 & C2).
    rewrite <- (Zy Edy) in N2, L2, U2, C2.
    pose proof (moved_clamped b h Hw Hh Hm N1 N2 (or_intror (conj L2 U2))) as Ep.
    injection Ep as Epx Epy. rewrite C2 in Epy.
    unfold inside_y; rewrite Epx, Epy, Ew.
    split; [exact A1|]. split; [now apply number_a_number|]. split; [exact E1|]. auto. }
  assert (Hy : forall sd : bool, ch = (if sd then KEY_UP else KEY_DOWN) ->
            a_number (x (idle_frame b h)) = true /\ a_number (y (idle_frame b h)) = true /\
            F32.eqb (y (idle_frame b h)) (F32.of_int (wall b ch)) = true /\
            inside_x b (idle_frame b h)).
  { intros sd E.
    assert (Ed : direction h = (F32.zero, S754_finite sd 8388608 (-23)))
      by (rewrite Hd, E; now destruct sd).
    injection Ed as Edx Edy.
    assert (Ew : wall b ch = if sd then box_y b + 1 else box_y b + height b - 1)
      by (rewrite E; now destruct sd).
    assert (Hh' : horizontal ch = false) by (rewrite E; now destruct sd).
    rewrite Hh', Ew in Hat; destruct Hat as [He [X1 X2]].
    destruct (Hdy sd Edy) as [Nd Sd].
    destruct (along_coord (box_y b + 1) (box_y b + height b - 1) sd (y h) (delta_y h))
      as (N1 & A1 & E1); try assumption; try lia.
    destruct (across_coord (box_x b + 1) (box_x b + width b - 1) (x h) Nx X1 X2)
      as (N2 & L2 & U2 & C2).
    rewrite <- (Zx Edx) in N2, L2, U2, C2.
    pose proof (moved_clamped b h Hw Hh Hm N2 N1 (or_introl (conj L2 U2))) as Ep.
    injection Ep as Epx Epy. rewrite C2 in Epx.
    unfold inside_x; rewrite Epx, Epy, Ew.
    split; [now apply number_a_number|]. split; [exact A1|]. split; [exact E1|]. auto. }
  destruct (arrow_key_cases ch Hk) as [E|[E|[E|E]]].
  - destruct (Hy true E) as (A & B & C & D).
    replace (horizontal ch) with false by (now rewrite E). auto.
  - destruct (Hy false E) as (A & B & C & D).
    replace (horizontal ch) with false by (now rewrite E). auto.
  - destruct (Hx true E) as (A & B & C & D).
    replace (horizontal ch) with true by (now rewrite E). auto.
  - destruct (Hx false E) as (A & B & C & D).
    replace (horizontal ch) with true by (now rewrite E). auto.
Qed.

End Walls.

(** X15. On any of the four walls, heading into it, the entity stays there.
    If the coordinate along the arrow equals the bound of the interior on
    that side, the other coordinate is inside and the entity is moving in
    the direction of the arrow, at a positive finite speed and aspect ratio,
    then after every number of iterations without input (update, clamp,
    redraw) the same holds again: each [update] pushes the coordinate
    outwards or not at all, and the clamp puts it back on the bound. *)
Theorem stays_at_wall (b : BattleBox) (ch : Z) (h : Heart) (n : nat) :
  2 <= width b -> 2 <= height b ->
  - 2147483648 <= box_x b + 1 -> box_x b + width b - 1 <= 2147483647 ->
  - 2147483648 <= box_y b + 1 -> box_y b + height b - 1 <= 2147483647 ->
  arrow_key ch = true ->
  positive_float (baseSpeed h) = true -> positive_float (aspectRatio h) = true ->
  at_wall b ch h -> at_wall b ch (Nat.iter n (idle_frame b) h).
Proof.
  intros Hw Hh R1 R2 R3 R4 Hk Ps Pa Hat.
  assert (H : at_wall b ch (Nat.iter n (idle_frame b) h) /\
              baseSpeed (Nat.iter n (idle_frame b) h) = baseSpeed h /\
              aspectRatio (Nat.iter n (idle_frame b) h) = aspectRatio h); [|apply H].
  induction n as [|k (IH & Es & Ea)]; [auto|].
  rewrite Nat.iter_succ.
  destruct (Frame.rest_of_frame_keeps b (Nat.iter k (idle_frame b) h)) as (_ & Ks & Ka & _).
  fold (idle_frame b (Nat.iter k (idle_frame b) h)) in Ks, Ka.
  split; [|split; congruence].
  apply Walls.idle_frame_at_wall; try assumption; congruence.
Qed.

Lemma stays_at_wall_witness :
  let b := BattleBox_.new 20 4 40 16 in
  let h := Main.handle_key KEY_DOWN
             (Heart_.setPosition (F32.of_int 30) (F32.of_int 19) (Heart_.new 96 40 12)) in
  at_wall b KEY_DOWN (Nat.iter 4 (idle_frame b) h).
Proof.
  intros b h.
  refine (stays_at_wall b KEY_DOWN h 4 _ _ _ _ _ _ _ _ _ _);
    try (simpl; lia); try reflexivity.
  repeat split; reflexivity.
Defined.

(** ** The clamp in the frames of a run *)

Module Reach.
Import Rounding RoundingFacts F32Facts.


End Reach.





(** ** Pinned against the left boundary, again *)

Module PinnedMore.
Import Rounding RoundingFacts F32Facts.



End PinnedMore.




(** ** Rounding with a location, and its error *)

Module RoundingLoc.
Import Rounding RoundingFacts Rel.

(** The number the two extra bits of a location stand for. *)
Lemma nearest_error (M n : Z) :
  0 <= n -> 2 * Z.abs (nearest M n * 2 ^ n - M) <= 2 ^ n.
Proof.
  intros Hn; assert (Hp : 0 < 2 ^ n) by (apply pow2_pos; lia).
  pose proof (Z.div_mod M (2 ^ n) ltac:(lia)) as Hdm.
  pose proof (Z.mod_pos_bound M (2 ^ n) Hp) as Hb.
  unfold nearest.
  destruct (Z.compare_spec (2 * (M mod 2 ^ n)) (2 ^ n)) as [E|L|G];
    [destruct (Z.even (M / 2 ^ n))| |]; nia.
Qed.

Lemma shifted_unique (M n : Z) (r1 r2 : shr_record) :
  shifted M n r1 -> shifted M n r2 -> r1 = r2.
Proof.
  intros (A1 & B1 & C1) (A2 & B2 & C2); destruct r1, r2; simpl in *.
  congruence.
Qed.

(** A mantissa with a location is the mantissa with two more bits, shifted
    right twice. *)
Lemma shifted_loc (m : Z) (l : location) :
  0 <= m ->
  shifted (4 * m + code l) 2 (shr_record_of_loc m l).
Proof.
  intros Hm.
  assert (H : shr_record_of_loc m l =
              shr_1 (shr_1 (shr_record_of_loc (4 * m + code l) loc_Exact))).
  { cbn [shr_record_of_loc]. rewrite shr_1_spec by (destruct l as [|[| |]]; cbn [code]; lia).
    rewrite shr_1_spec
      by (apply Z.div_pos; destruct l as [|[| |]]; cbn [code]; lia).
    destruct l as [|[| |]]; cbn [code shr_record_of_loc orb].
    - replace ((4 * m + 0) / 2) with (2 * m) by (apply Z.div_unique with (r:=0); lia).
      replace (2 * m / 2) with m by (apply Z.div_unique with (r:=0); lia).
      f_equal; [rewrite Z.odd_mul | rewrite Z.add_0_r, Z.odd_mul]; reflexivity.
    - replace ((4 * m + 2) / 2) with (2 * m + 1) by (apply Z.div_unique with (r:=0); lia).
      replace ((2 * m + 1) / 2) with m by (apply Z.div_unique with (r:=1); lia).
      f_equal.
      + rewrite Z.add_comm, Z.odd_add_mul_2. reflexivity.
      + replace (4 * m + 2) with (0 + 2 * (2 * m + 1)) by lia.
        rewrite Z.odd_add_mul_2. reflexivity.
    - replace ((4 * m + 1) / 2) with (2 * m) by (apply Z.div_unique with (r:=1); lia).
      replace (2 * m / 2) with m by (apply Z.div_unique with (r:=0); lia).
      f_equal; [rewrite Z.odd_mul; reflexivity|].
      replace (4 * m + 1) with (1 + 2 * (2 * m)) by lia.
      rewrite Z.odd_add_mul_2. reflexivity.
    - replace ((4 * m + 3) / 2) with (2 * m + 1) by (apply Z.div_unique with (r:=1); lia).
      replace ((2 * m + 1) / 2) with m by (apply Z.div_unique with (r:=1); lia).
      f_equal.
      + rewrite Z.add_comm, Z.odd_add_mul_2. reflexivity.
      + replace (4 * m + 3) with (1 + 2 * (2 * m + 1)) by lia.
        rewrite Z.odd_add_mul_2. reflexivity. }
  rewrite H.
  assert (HN : 0 <= 4 * m + code l) by (destruct l as [|[| |]]; cbn [code]; lia).
  apply (shifted_step _ 1); try lia.
  apply (shifted_step _ 0); try lia.
  apply shifted_0.
Qed.

Section Format.
Variables prec emax : Z.
Hypothesis Hprec : 0 < prec.
Hypothesis Hemax : prec < emax.

Local Abbreviation emin := (SpecFloat.emin prec emax).
Local Abbreviation fexp := (SpecFloat.fexp prec emax).

(** Rounding a mantissa with a location is rounding the mantissa with two
    more bits, when the mantissa is long enough not to be shifted left. *)
Lemma round_aux_loc (s : bool) (m N : positive) (e : Z) (l : location) :
  Zpos N = 4 * Zpos m + code l -> e <= fexp (dig m + e) ->
  binary_round_aux prec emax s (Zpos m) e l =
  binary_round_aux prec emax s (Zpos N) (e - 2) loc_Exact.
Proof.
  intros HN Hn.
  assert (Hd : dig N = dig m + 2).
  { apply dig_unique; rewrite HN. pose proof (dig_bounds m) as [L U]; pose proof (dig_pos m).
    replace (dig m + 2 - 1) with (dig m - 1 + 2) by lia.
    rewrite !Z.pow_add_r by lia. change (2 ^ 2) with 4.
    destruct l as [|[| |]]; cbn [code]; lia. }
  assert (Hsh : shr_fexp prec emax (Zpos m) e l =
                shr_fexp prec emax (Zpos N) (e - 2) loc_Exact).
  { unfold shr_fexp; cbn [Zdigits2]; fold (dig m); fold (dig N); rewrite Hd.
    replace (dig m + 2 + (e - 2)) with (dig m + e) by lia.
    set (E := fexp (dig m + e)) in *.
    pose proof (shifted_loc (Zpos m) l ltac:(lia)) as H2; rewrite <- HN in H2.
    destruct (E - (e - 2)) as [|q|q] eqn:Eq2; try lia.
    cbn [shr].
    pose proof (shifted_iter (Zpos N) q ltac:(lia)) as Hq.
    destruct (E - e) as [|p|p] eqn:Ep; try lia; cbn [shr].
    - f_equal; [|lia]. apply (shifted_unique (Zpos N) 2); [exact H2|].
      replace 2 with (Zpos q) by lia. exact Hq.
    - f_equal; [|lia]. apply (shifted_unique (Zpos N) (Zpos q)); [|exact Hq].
      replace (Zpos q) with (2 + Zpos p) by lia.
      apply (iter_pos_invariant shr_1 (fun n mrs => shifted (Zpos N) n mrs)
               (fun n a Hn' Ha => shifted_step (Zpos N) n a ltac:(lia) Hn' Ha) p 2);
        [lia | exact H2]. }
  unfold binary_round_aux; now rewrite Hsh.
Qed.

(** Rounding a long mantissa whose rounded value is in the normal range:
    the result is the finite float of the nearest [prec]-bit mantissa. *)
Lemma round_aux_normal (s : bool) (N : positive) (e : Z) :
  prec < dig N -> emin <= dig N + e - prec -> dig N + e < emax ->
  exists mz ez,
    binary_round_aux prec emax s (Zpos N) e loc_Exact = S754_finite s mz ez /\
    bounded prec emax mz ez = true /\
    Zpos mz * 2 ^ (ez - emin) =
      nearest (Zpos N) (dig N - prec) * 2 ^ (dig N + e - prec - emin) /\
    2 ^ (prec - 1) <= nearest (Zpos N) (dig N - prec) <= 2 ^ prec.
Proof.
  intros Hd Hlo Hhi.
  assert (HE : fexp (dig N + e) = dig N + e - prec) by (unfold SpecFloat.fexp; lia).
  pose proof (nearest_bounds prec Hprec N Hd) as [Lk Uk].
  pose proof (pow2_pos (prec - 1) ltac:(lia)) as Hpp.
  destruct (binary_round_aux_shift prec emax Hprec s N e ltac:(lia))
    as [[Hk _]|(mz & ez & Hv & HEz & Hc & Hr)];
    rewrite HE in *; replace (dig N + e - prec - e) with (dig N - prec) in * by lia;
    [lia|].
  destruct (canonical_digits prec emax mz ez Hc) as (C1 & C2 & C3).
  pose proof (dig_bounds mz) as [Lm Um]; pose proof (dig_pos mz) as Pm.
  assert (Hez : ez <= dig N + e - prec + 1).
  { destruct (Z_le_gt_dec ez (dig N + e - prec + 1)) as [|Hgt]; [assumption|exfalso].
    assert (dig mz = prec) by (apply C3; lia).
    assert (2 ^ 2 <= 2 ^ (ez - (dig N + e - prec))) by (apply pow2_le; lia).
    change (2 ^ 2) with 4 in *. replace (dig mz - 1) with (prec - 1) in Lm by lia.
    assert (2 ^ prec = 2 * 2 ^ (prec - 1)).
    { replace prec with (prec - 1 + 1) at 1 by lia. rewrite Z.pow_add_r by lia. lia. }
    nia. }
  exists mz, ez.
  assert (Hle : (ez <=? emax - prec) = true) by (apply Z.leb_le; lia).
  rewrite Hle in Hr. split; [exact Hr|]. split.
  - unfold bounded, canonical_mantissa. fold (dig mz). rewrite Hc, Z.eqb_refl, Hle. reflexivity.
  - split; [|lia]. rewrite <- Hv.
    replace (ez - emin) with (ez - (dig N + e - prec) + (dig N + e - prec - emin)) by lia.
    rewrite Z.pow_add_r by lia. ring.
Qed.

End Format.

End RoundingLoc.

(** ** The relative error of the operations *)

Module Accuracy.
Import Rounding RoundingFacts RoundingLoc Rel.

Lemma new_location_code (m r : Z) :
  0 <= r < m -> Z.abs (4 * r - code (new_location m r) * m) < m.
Proof.
  intros Hr; unfold new_location, new_location_even, new_location_odd.
  destruct (Z.even m) eqn:Ev; destruct (Z.eqb_spec r 0) as [->|Hnz]; cbn [code]; try lia.
  - destruct (Z.compare_spec (2 * r) m); cbv beta iota delta [code]; lia.
  - rewrite <- Z.negb_odd in Ev; apply negb_false_iff, Z.odd_spec in Ev as [k Hk].
    destruct (Z.compare_spec (2 * r + 1) m); cbv beta iota delta [code]; lia.
Qed.

(** The mantissa the cores of division and square root shift left. *)
Lemma shift_left (m s : Z) :
  0 < s ->
  match s with 0 => m | Zpos _ => Z.shiftl m s | Zneg _ => 0 end = m * 2 ^ s.
Proof. intros Hs; destruct s; try lia. apply Z.shiftl_mul_pow2; lia. Qed.

Section Format.
Variables prec emax : Z.
Hypothesis Hprec : 0 < prec.
Hypothesis Hemax : prec < emax.

Local Abbreviation emin := (SpecFloat.emin prec emax).
Local Abbreviation fexp := (SpecFloat.fexp prec emax).
Local Abbreviation top := (Rounding.top prec emax).
Local Abbreviation ord := (Rounding.ord prec emax).
Local Abbreviation number := (Rounding.number prec emax).
Local Abbreviation normal := (Rel.normal prec emax).
Local Abbreviation T := (2 ^ (prec - 1)).

Lemma T_pos : 0 < T.
Proof. apply pow2_pos; lia. Qed.

(** Rounding to [prec] bits moves a number by at most one part in [2 T]. *)
Lemma nearest_rel (N : positive) :
  prec < dig N ->
  let w := nearest (Zpos N) (dig N - prec) * 2 ^ (dig N - prec) in
  (2 * T - 1) * Zpos N <= 2 * T * w <= (2 * T + 1) * Zpos N.
Proof.
  intros Hd w; pose proof (nearest_error (Zpos N) (dig N - prec) ltac:(lia)) as He.
  fold w in He. pose proof (dig_bounds N) as [L _].
  replace (dig N - 1) with (prec - 1 + (dig N - prec)) in L by lia.
  rewrite Z.pow_add_r in L by lia.
  pose proof T_pos; pose proof (pow2_pos (dig N - prec) ltac:(lia)).
  assert (2 * T * Z.abs (w - Zpos N) <= Zpos N) by nia.
  nia.
Qed.

Lemma round_rel (s : bool) (N : positive) (e g : Z) :
  prec < dig N -> emin <= dig N + e - prec -> dig N + e < emax ->
  0 <= g -> 0 <= e - emin + g ->
  exists mz ez,
    binary_round_aux prec emax s (Zpos N) e loc_Exact = S754_finite s mz ez /\
    bounded prec emax mz ez = true /\
    let v := Zpos mz * 2 ^ (ez - emin) in
    let x := Zpos N * 2 ^ (e - emin + g) in
    (2 * T - 1) * x <= 2 * T * (v * 2 ^ g) <= (2 * T + 1) * x.
Proof.
  intros Hd Hlo Hhi Hg Hge.
  destruct (round_aux_normal prec emax Hprec s N e Hd Hlo Hhi)
    as (mz & ez & Hr & Hb & Hv & _).
  exists mz, ez; split; [exact Hr | split; [exact Hb|]].
  intros v x; unfold v; rewrite Hv.
  pose proof (nearest_rel N Hd) as Hn; cbv zeta in Hn.
  set (k := nearest (Zpos N) (dig N - prec)) in *.
  replace (k * 2 ^ (dig N + e - prec - emin) * 2 ^ g)
    with (k * 2 ^ (dig N - prec) * 2 ^ (e - emin + g)).
  2:{ rewrite <- !Z.mul_assoc, <- !Z.pow_add_r by lia. f_equal; f_equal; lia. }
  unfold x. pose proof (pow2_pos (e - emin + g) Hge).
  set (P := 2 ^ (e - emin + g)) in *. set (w := k * 2 ^ (dig N - prec)) in *.
  nia.
Qed.

(** A quotient or a root comes as a mantissa with a location. *)
Lemma round_loc_rel (s : bool) (q N : positive) (e : Z) (l : location) (g : Z) :
  Zpos N = 4 * Zpos q + code l -> prec <= dig q ->
  emin <= dig q + e - prec -> dig q + e < emax ->
  0 <= g -> 0 <= e - 2 - emin + g ->
  exists mz ez,
    binary_round_aux prec emax s (Zpos q) e l = S754_finite s mz ez /\
    bounded prec emax mz ez = true /\
    let v := Zpos mz * 2 ^ (ez - emin) in
    let x := Zpos N * 2 ^ (e - 2 - emin + g) in
    (2 * T - 1) * x <= 2 * T * (v * 2 ^ g) <= (2 * T + 1) * x.
Proof.
  intros HN Hq Hlo Hhi Hg Hge.
  assert (Hd : dig N = dig q + 2).
  { apply dig_unique; rewrite HN. pose proof (dig_bounds q) as [L U]; pose proof (dig_pos q).
    replace (dig q + 2 - 1) with (dig q - 1 + 2) by lia.
    rewrite !Z.pow_add_r by lia. change (2 ^ 2) with 4.
    destruct l as [|[| |]]; cbn [code]; lia. }
  rewrite (round_aux_loc prec emax s q N e l HN)
    by (unfold SpecFloat.fexp; lia).
  apply round_rel; lia.
Qed.

(** *** Normal numbers *)

Lemma normal_number (a : spec_float) : normal a -> number a.
Proof.
  destruct a as [| | |s m e]; try contradiction; intros [Hb _]; split;
    [exact Hb | discriminate].
Qed.

Lemma normal_of_ord (a : spec_float) :
  number a -> 2 ^ (prec - 1) <= Z.abs (ord a) < top -> normal a.
Proof.
  intros [Hv Hn] Ho; pose proof T_pos.
  destruct a as [s|s| |s m e]; cbn [Rounding.ord] in Ho; try lia.
  - destruct s; lia.
  - cbn [valid_binary] in Hv; split; [exact Hv|].
    apply bounded_canonical in Hv as [Hc _].
    destruct (canonical_digits prec emax m e Hc) as (C1 & C2 & C3).
    destruct (Z.eq_dec e emin) as [->|Hne]; [|apply C3; lia].
    rewrite Z.sub_diag in Ho; change (2 ^ 0) with 1 in Ho.
    pose proof (dig_bounds m) as [_ U]; pose proof (dig_pos m).
    destruct (Z_le_gt_dec prec (dig m)) as [|Hlt]; [lia|exfalso].
    assert (2 ^ dig m <= 2 ^ (prec - 1)) by (apply pow2_le; lia).
    destruct s; lia.
Qed.

(** The exponent of a normal number, from bounds on its value. *)
Lemma normal_exponent (s : bool) (m : positive) (e a b : Z) :
  normal (S754_finite s m e) -> 0 <= a -> 0 <= b ->
  2 ^ a <= Zpos m * 2 ^ (e - emin) < 2 ^ b ->
  emin <= e /\ a - prec < e - emin < b - prec + 1.
Proof.
  intros [Hb Hd] Ha Hb' [Lo Hi].
  apply bounded_canonical in Hb as [Hc _].
  destruct (canonical_digits prec emax m e Hc) as (C1 & _).
  pose proof (scaled_bounds m (e - emin) ltac:(lia)) as [L U]; rewrite Hd in L, U.
  split; [exact C1|]. split.
  - assert (2 ^ a < 2 ^ (prec + (e - emin))) by lia.
    apply Z.pow_lt_mono_r_iff in H; lia.
  - assert (2 ^ (prec - 1 + (e - emin)) < 2 ^ b) by lia.
    apply Z.pow_lt_mono_r_iff in H; lia.
Qed.

Lemma emin_nonpos : emin <= 0.
Proof. unfold SpecFloat.emin; lia. Qed.

(** *** Products *)

Lemma mul_rel (sa sb : bool) (ma mb : positive) (ea eb : Z) :
  1 < prec ->
  normal (S754_finite sa ma ea) -> normal (S754_finite sb mb eb) ->
  emin <= prec - 1 + (ea + eb) -> 2 * prec + (ea + eb) < emax ->
  exists mz ez,
    SFmul prec emax (S754_finite sa ma ea) (S754_finite sb mb eb) =
      S754_finite (xorb sa sb) mz ez /\
    bounded prec emax mz ez = true /\
    let v := Zpos mz * 2 ^ (ez - emin) in
    let x := (Zpos ma * 2 ^ (ea - emin)) * (Zpos mb * 2 ^ (eb - emin)) in
    (2 * T - 1) * x <= 2 * T * (v * 2 ^ (- emin)) <= (2 * T + 1) * x.
Proof.
  intros Hp2 [Ba Da] [Bb Db] Hlo Hhi; cbn [SFmul].
  apply bounded_canonical in Ba as [Ca _], Bb as [Cb _].
  destruct (canonical_digits prec emax ma ea Ca) as (A1 & _).
  destruct (canonical_digits prec emax mb eb Cb) as (B1 & _).
  pose proof emin_nonpos as E0.
  assert (Hd : 2 * prec - 1 <= dig (ma * mb) <= 2 * prec).
  { pose proof (dig_mul ma mb). split; [lia|].
    pose proof (dig_bounds ma) as [_ Ua]; pose proof (dig_bounds mb) as [_ Ub].
    pose proof (dig_bounds (ma * mb)) as [Lp _]; pose proof (dig_pos (ma * mb)).
    rewrite Da in Ua; rewrite Db in Ub.
    destruct (Z_le_gt_dec (dig (ma * mb)) (2 * prec)) as [|Hgt]; [assumption|exfalso].
    assert (Hp : 2 ^ (prec + prec) <= 2 ^ (dig (ma * mb) - 1)) by (apply pow2_le; lia).
    rewrite Z.pow_add_r in Hp by lia.
    rewrite Pos2Z.inj_mul in Lp. nia. }
  destruct (round_rel (xorb sa sb) (ma * mb) (ea + eb) (- emin)
              ltac:(lia) ltac:(lia) ltac:(lia) ltac:(lia) ltac:(lia))
    as (mz & ez & Hr & Hb & Hs).
  exists mz, ez; split; [exact Hr | split; [exact Hb|]].
  cbv zeta in Hs |- *.
  replace (Zpos ma * 2 ^ (ea - emin) * (Zpos mb * 2 ^ (eb - emin)))
    with (Zpos (ma * mb) * 2 ^ (ea + eb - emin + - emin)); [exact Hs|].
  rewrite Pos2Z.inj_mul.
  replace (ea + eb - emin + - emin) with ((ea - emin) + (eb - emin)) by lia.
  rewrite Z.pow_add_r by lia. ring.
Qed.

(** *** Sums of positive numbers *)

Lemma add_rel (ma mb : positive) (ea eb : Z) :
  bounded prec emax ma ea = true -> bounded prec emax mb eb = true ->
  let r := SFadd prec emax (S754_finite false ma ea) (S754_finite false mb eb) in
  let x := Zpos ma * 2 ^ (ea - emin) + Zpos mb * 2 ^ (eb - emin) in
  number r /\
  exists w, ord r = Z.min w top /\
            (2 * T - 1) * x <= 2 * T * w <= (2 * T + 1) * x.
Proof.
  intros Ba Bb r x; unfold r; cbn [SFadd cond_Zopp].
  destruct (bounded_canonical prec emax ma ea Ba) as [Ca _].
  destruct (bounded_canonical prec emax mb eb Bb) as [Cb _].
  apply canonical_digits in Ca as (A1 & _), Cb as (B1 & _).
  set (e := Z.min ea eb). assert (He : emin <= e) by (unfold e; lia).
  destruct (normalize_spec prec emax Hprec Hemax
              (Zpos (fst (shl_align ma ea e)) + Zpos (fst (shl_align mb eb e))) e false He)
    as [Hn Ho].
  split; [exact Hn|]. rewrite Ho.
  rewrite !shl_align_value by (unfold e; lia).
  pose proof (pow2_pos (ea - e) ltac:(unfold e; lia)).
  pose proof (pow2_pos (eb - e) ltac:(unfold e; lia)).
  destruct (Zpos ma * 2 ^ (ea - e) + Zpos mb * 2 ^ (eb - e)) as [|p|p] eqn:Ep; try lia.
  assert (Hx : x = Zpos p * 2 ^ (e - emin)).
  { rewrite <- Ep, Z.mul_add_distr_r, <- !Z.mul_assoc, <- !Z.pow_add_r by (unfold e; lia).
    unfold x; f_equal; f_equal; f_equal; unfold e; lia. }
  cbn [Rounding.normalized]; unfold Rounding.clip, Rounding.rounded.
  pose proof (pow2_pos (e - emin) ltac:(lia)); pose proof T_pos.
  destruct (Z.leb_spec (dig p) prec) as [Hd|Hd].
  - exists (Zpos p * 2 ^ (e - emin)); split; [reflexivity|]. rewrite Hx. nia.
  - exists (nearest (Zpos p) (dig p - prec) * 2 ^ (dig p - prec + e - emin)).
    split; [reflexivity|]. rewrite Hx.
    pose proof (nearest_rel p Hd) as Hr; cbv zeta in Hr.
    replace (dig p - prec + e - emin) with ((dig p - prec) + (e - emin)) by lia.
    rewrite Z.pow_add_r by lia.
    set (w := nearest (Zpos p) (dig p - prec) * 2 ^ (dig p - prec)) in *.
    rewrite Z.mul_assoc; fold w. nia.
Qed.

(** *** Quotients *)

Lemma div_core (ma mb : positive) (ea eb : Z) :
  1 < prec -> dig ma = prec -> dig mb = prec -> emin <= ea - eb - prec ->
  exists (q : positive) (l : location),
    SFdiv_core_binary prec emax (Zpos ma) ea (Zpos mb) eb = (Zpos q, ea - eb - prec, l) /\
    prec <= dig q <= prec + 1 /\
    Z.abs (4 * (Zpos ma * 2 ^ prec) - (4 * Zpos q + code l) * Zpos mb) < Zpos mb.
Proof.
  intros Hp2 Da Db Hlo; unfold SFdiv_core_binary; cbn [Zdigits2].
  fold (dig ma); fold (dig mb); rewrite Da, Db.
  replace (fexp (prec + ea - (prec + eb))) with (ea - eb - prec)
    by (unfold SpecFloat.fexp; lia).
  replace (Z.min (ea - eb - prec) (ea - eb)) with (ea - eb - prec) by lia.
  replace (ea - eb - (ea - eb - prec)) with prec by lia.
  rewrite shift_left by lia.
  pose proof (Z.div_eucl_eq (Zpos ma * 2 ^ prec) (Zpos mb) ltac:(lia)) as Heq.
  pose proof (Z.mod_pos_bound (Zpos ma * 2 ^ prec) (Zpos mb) ltac:(lia)) as Hr.
  unfold Z.modulo in Hr.
  destruct (Z.div_eucl (Zpos ma * 2 ^ prec) (Zpos mb)) as [q r].
  pose proof (dig_bounds ma) as [La Ua]; pose proof (dig_bounds mb) as [Lb Ub].
  rewrite Da in La, Ua; rewrite Db in Lb, Ub.
  pose proof T_pos as HT. pose proof (pow2_pos prec ltac:(lia)) as HP.
  assert (E2 : 2 ^ prec = 2 * T).
  { replace prec with (prec - 1 + 1) at 1 by lia. rewrite Z.pow_add_r by lia. lia. }
  assert (Hq : T <= q < 4 * T) by nia.
  destruct q as [|q|q]; try lia.
  exists q, (new_location (Zpos mb) r); split; [reflexivity|]. split.
  - pose proof (dig_bounds q) as [Lq Uq]; pose proof (dig_pos q). split.
    + destruct (Z_le_gt_dec prec (dig q)); [assumption|exfalso].
      assert (2 ^ dig q <= 2 ^ (prec - 1)) by (apply pow2_le; lia). lia.
    + destruct (Z_le_gt_dec (dig q) (prec + 1)); [assumption|exfalso].
      assert (2 ^ (prec + 1) <= 2 ^ (dig q - 1)) by (apply pow2_le; lia).
      rewrite Z.pow_add_r in H0 by lia. lia.
  - pose proof (new_location_code (Zpos mb) r Hr) as Hc.
    replace (4 * (Zpos ma * 2 ^ prec) - (4 * Zpos q + code (new_location (Zpos mb) r)) * Zpos mb)
      with (4 * r - code (new_location (Zpos mb) r) * Zpos mb); [exact Hc|].
    rewrite Heq; ring.
Qed.

Lemma div_rel (sa sb : bool) (ma mb : positive) (ea eb : Z) :
  1 < prec -> prec + 2 <= - emin ->
  normal (S754_finite sa ma ea) -> normal (S754_finite sb mb eb) ->
  emin <= ea - eb - prec -> ea - eb + 1 < emax ->
  exists mz ez,
    SFdiv prec emax (S754_finite sa ma ea) (S754_finite sb mb eb) =
      S754_finite (xorb sa sb) mz ez /\
    bounded prec emax mz ez = true /\
    let v := Zpos mz * 2 ^ (ez - emin) in
    let x := Zpos ma * 2 ^ (ea - emin) * 2 ^ (- emin) in
    let y := Zpos mb * 2 ^ (eb - emin) in
    (T - 1) * x <= T * (v * y) <= (T + 1) * x.
Proof.
  intros Hp2 Hem [Ba Da] [Bb Db] Hlo Hhi; cbn [SFdiv].
  apply bounded_canonical in Ba as [Ca _], Bb as [Cb _].
  destruct (canonical_digits prec emax ma ea Ca) as (A1 & _).
  destruct (canonical_digits prec emax mb eb Cb) as (B1 & _).
  destruct (div_core ma mb ea eb Hp2 Da Db Hlo) as (q & l & -> & Hq & Hc).
  assert (HN : exists N, Zpos N = 4 * Zpos q + code l).
  { destruct (4 * Zpos q + code l) as [|N|N] eqn:E;
      try (destruct l as [|[| |]]; cbn [code] in E; lia).
    now exists N. }
  destruct HN as [N HN]. rewrite <- HN in Hc.
  destruct (round_loc_rel (xorb sa sb) q N (ea - eb - prec) l (eb - emin) HN
              ltac:(lia) ltac:(lia) ltac:(lia) ltac:(lia) ltac:(lia))
    as (mz & ez & Hr & Hb & Hs).
  exists mz, ez; split; [exact Hr | split; [exact Hb|]].
  cbv zeta in Hs |- *.
  set (v := Zpos mz * 2 ^ (ez - emin)) in *.
  replace (ea - eb - prec - 2 - emin + (eb - emin)) with (ea - prec - 2 - 2 * emin) in Hs by lia.
  set (P := 2 ^ (ea - prec - 2 - 2 * emin)) in *.
  assert (HP : 0 < P) by (apply pow2_pos; lia).
  assert (Hx : Zpos ma * 2 ^ (ea - emin) * 2 ^ (- emin) = 4 * (Zpos ma * 2 ^ prec) * P).
  { unfold P. rewrite <- Z.mul_assoc, <- Z.pow_add_r by lia.
    replace (ea - emin + - emin) with (2 + prec + (ea - prec - 2 - 2 * emin)) by lia.
    rewrite !Z.pow_add_r by lia. change (2 ^ 2) with 4. ring. }
  rewrite Hx.
  pose proof (dig_bounds ma) as [La Ua]; pose proof (dig_bounds mb) as [Lb Ub].
  rewrite Da in La, Ua; rewrite Db in Lb, Ub.
  pose proof T_pos as HT.
  assert (E2 : 2 ^ prec = 2 * T).
  { replace prec with (prec - 1 + 1) at 1 by lia. rewrite Z.pow_add_r by lia. lia. }
  rewrite E2 in *.
  set (m' := Zpos ma * (2 * T)) in *.
  set (g := 2 ^ (eb - emin)) in *.
  assert (Hm' : 2 * T * Zpos mb <= 2 * m') by (unfold m'; nia).
  destruct Hs as [Hs1 Hs2].
  (* in units of P *)
  assert (U1 : (2 * T + 1) * (Zpos N * Zpos mb) <= (2 * T + 2) * (4 * m')) by nia.
  assert (U2 : (2 * T - 2) * (4 * m') <= (2 * T - 1) * (Zpos N * Zpos mb)) by nia.
  replace (T * (v * (Zpos mb * g))) with (T * (v * g) * Zpos mb) by ring.
  split.
  - apply Z.mul_le_mono_pos_l with (p := 2); [lia|].
    apply Z.le_trans with ((2 * T - 1) * (Zpos N * Zpos mb) * P).
    + replace (2 * ((T - 1) * (4 * m' * P))) with ((2 * T - 2) * (4 * m') * P) by ring.
      apply Z.mul_le_mono_nonneg_r; lia.
    + replace ((2 * T - 1) * (Zpos N * Zpos mb) * P)
        with ((2 * T - 1) * (Zpos N * P) * Zpos mb) by ring.
      replace (2 * (T * (v * g) * Zpos mb)) with (2 * T * (v * g) * Zpos mb) by ring.
      apply Z.mul_le_mono_nonneg_r; lia.
  - apply Z.mul_le_mono_pos_l with (p := 2); [lia|].
    apply Z.le_trans with ((2 * T + 1) * (Zpos N * Zpos mb) * P).
    + replace ((2 * T + 1) * (Zpos N * Zpos mb) * P)
        with ((2 * T + 1) * (Zpos N * P) * Zpos mb) by ring.
      replace (2 * (T * (v * g) * Zpos mb)) with (2 * T * (v * g) * Zpos mb) by ring.
      apply Z.mul_le_mono_nonneg_r; lia.
    + replace (2 * ((T + 1) * (4 * m' * P))) with ((2 * T + 2) * (4 * m') * P) by ring.
      apply Z.mul_le_mono_nonneg_r; lia.
Qed.

(** *** Square roots *)

Lemma sqrt_core_raw (ma : positive) (ea : Z) :
  1 < prec -> dig ma = prec -> emin <= (prec + ea + 1) / 2 - prec ->
  let e' := (prec + ea + 1) / 2 - prec in
  exists (q : positive) (r : Z),
    SFsqrt_core_binary prec emax (Zpos ma) ea =
      (Zpos q, e',
       if r =? 0 then loc_Exact else loc_Inexact (if r <=? Zpos q then Lt else Gt)) /\
    dig q = prec /\ 0 <= ea - 2 * e' /\
    Zpos ma * 2 ^ (ea - 2 * e') = Zpos q * Zpos q + r /\ 0 <= r <= 2 * Zpos q.
Proof.
  intros Hp2 Da Hlo e'; unfold SFsqrt_core_binary; cbn [Zdigits2].
  fold (dig ma); rewrite Da, !Z.div2_div.
  pose proof (Z.div_mod (prec + ea + 1) 2 ltac:(lia)) as Hh.
  pose proof (Z.mod_pos_bound (prec + ea + 1) 2 ltac:(lia)) as Hh'.
  pose proof (Z.div_mod ea 2 ltac:(lia)) as Hj.
  pose proof (Z.mod_pos_bound ea 2 ltac:(lia)) as Hj'.
  replace (fexp ((prec + ea + 1) / 2)) with e' by (unfold SpecFloat.fexp, e'; lia).
  replace (Z.min e' (ea / 2)) with e' by (unfold e'; lia).
  assert (Hs : prec - 1 <= ea - 2 * e' <= prec) by (unfold e'; lia).
  rewrite shift_left by lia.
  set (s := ea - 2 * e') in *. set (m' := Zpos ma * 2 ^ s).
  pose proof (dig_bounds ma) as [La Ua]; rewrite Da in La, Ua.
  pose proof T_pos as HT.
  assert (E2 : 2 ^ prec = 2 * T).
  { replace prec with (prec - 1 + 1) at 1 by lia. rewrite Z.pow_add_r by lia. lia. }
  assert (Hm' : T * T <= m' < 4 * T * T).
  { unfold m'. assert (s = prec - 1 \/ s = prec) as [->| ->] by lia; [|rewrite E2] ; nia. }
  pose proof (Z.sqrtrem_spec m' ltac:(lia)) as Hq.
  destruct (Z.sqrtrem m') as [q r]. destruct Hq as [Hq Hr].
  assert (Hqb : T <= q < 2 * T) by nia.
  destruct q as [|q|q]; try lia.
  exists q, r.
  split; [reflexivity|]. split; [|split; [lia | split; [exact Hq | exact Hr]]].
  apply dig_unique. rewrite E2. lia.
Qed.

Lemma sqrt_core (ma : positive) (ea : Z) :
  1 < prec -> dig ma = prec -> emin <= (prec + ea + 1) / 2 - prec ->
  let e' := (prec + ea + 1) / 2 - prec in
  exists (q : positive) (l : location) (m' : Z),
    SFsqrt_core_binary prec emax (Zpos ma) ea = (Zpos q, e', l) /\
    dig q = prec /\ m' = Zpos ma * 2 ^ (ea - 2 * e') /\ 0 <= ea - 2 * e' /\
    (4 * Zpos q + code l - 1) ^ 2 <= 16 * m' <= (4 * Zpos q + code l + 1) ^ 2.
Proof.
  intros Hp2 Da Hlo e'.
  destruct (sqrt_core_raw ma ea Hp2 Da Hlo) as (q & r & Hc & Dq & Hs & Hm & Hr).
  fold e' in Hc, Hs, Hm.
  exists q, (if r =? 0 then loc_Exact else loc_Inexact (if r <=? Zpos q then Lt else Gt)),
    (Zpos ma * 2 ^ (ea - 2 * e')).
  split; [exact Hc | split; [exact Dq | split; [reflexivity | split; [exact Hs|]]]].
  destruct (Z.eqb_spec r 0) as [E|Hnz]; [|destruct (Z.leb_spec r (Zpos q))];
    cbn [code]; rewrite Hm; nia.
Qed.

Lemma sqrt_rel (ma : positive) (ea : Z) :
  1 < prec -> normal (S754_finite false ma ea) ->
  emin <= (prec + ea + 1) / 2 - prec -> (prec + ea + 1) / 2 < emax ->
  exists mz ez,
    SFsqrt prec emax (S754_finite false ma ea) = S754_finite false mz ez /\
    bounded prec emax mz ez = true /\
    let v := Zpos mz * 2 ^ (ez - emin) in
    let x := Zpos ma * 2 ^ (ea - emin) * 2 ^ (- emin) in
    (T - 1) ^ 2 * x <= T ^ 2 * v ^ 2 <= (T + 1) ^ 2 * x.
Proof.
  intros Hp2 [Ba Da] Hlo Hhi; cbn [SFsqrt].
  apply bounded_canonical in Ba as [Ca _].
  destruct (canonical_digits prec emax ma ea Ca) as (A1 & _).
  destruct (sqrt_core ma ea Hp2 Da Hlo) as (q & l & m' & -> & Dq & Hm' & Hs & Hc).
  set (e' := (prec + ea + 1) / 2 - prec) in *.
  assert (HN : exists N, Zpos N = 4 * Zpos q + code l).
  { destruct (4 * Zpos q + code l) as [|N|N] eqn:E;
      try (destruct l as [|[| |]]; cbn [code] in E; lia).
    now exists N. }
  destruct HN as [N HN]. rewrite <- HN in Hc.
  destruct (round_loc_rel false q N e' l 2 HN
              ltac:(lia) ltac:(lia) ltac:(lia) ltac:(lia) ltac:(lia))
    as (mz & ez & Hr & Hb & Hv).
  exists mz, ez; split; [exact Hr | split; [exact Hb|]].
  cbv zeta in Hv |- *.
  set (v := Zpos mz * 2 ^ (ez - emin)) in *.
  replace (e' - 2 - emin + 2) with (e' - emin) in Hv by lia.
  change (2 ^ 2) with 4 in Hv.
  set (P := 2 ^ (e' - emin)) in *.
  assert (HP : 0 < P) by (apply pow2_pos; lia).
  assert (Hx : Zpos ma * 2 ^ (ea - emin) * 2 ^ (- emin) = m' * P ^ 2).
  { pose proof emin_nonpos as E0.
    assert (Hpw : 2 ^ (ea - emin) * 2 ^ (- emin) = 2 ^ (ea - 2 * e') * (P * P)).
    { unfold P. rewrite <- !Z.pow_add_r by lia. f_equal. lia. }
    rewrite Hm', Z.pow_2_r, <- Z.mul_assoc, Hpw. ring. }
  rewrite Hx.
  pose proof (dig_bounds q) as [Lq _]; rewrite Dq in Lq.
  pose proof T_pos as HT. destruct Hv as [Hv1 Hv2], Hc as [Hc1 Hc2].
  assert (Hv0 : 0 <= v) by (unfold v; pose proof (pow2_pos (ez - emin)); nia).
  assert (HN4 : 4 * T <= Zpos N) by (destruct l as [|[| |]]; cbn [code] in HN; lia).
  assert (HNP : 0 < Zpos N * P) by nia.
  assert (Up : 4 * T * v <= (T + 1) * (Zpos N - 1) * P).
  { assert ((2 * T + 1) * (Zpos N * P) <= 2 * ((T + 1) * (Zpos N - 1) * P)); [|lia].
    replace ((2 * T + 1) * (Zpos N * P)) with ((2 * T + 1) * Zpos N * P) by ring.
    replace (2 * ((T + 1) * (Zpos N - 1) * P)) with (2 * (T + 1) * (Zpos N - 1) * P) by ring.
    apply Z.mul_le_mono_nonneg_r; [lia|]. nia. }
  assert (Lo : (T - 1) * (Zpos N + 1) * P <= 4 * T * v).
  { assert (2 * ((T - 1) * (Zpos N + 1) * P) <= (2 * T - 1) * (Zpos N * P)); [|lia].
    replace ((2 * T - 1) * (Zpos N * P)) with ((2 * T - 1) * Zpos N * P) by ring.
    replace (2 * ((T - 1) * (Zpos N + 1) * P)) with (2 * (T - 1) * (Zpos N + 1) * P) by ring.
    apply Z.mul_le_mono_nonneg_r; [lia|]. nia. }
  assert (HP2 : 0 <= P ^ 2) by (apply Z.pow_nonneg; lia).
  split.
  - apply Z.mul_le_mono_pos_l with (p := 16); [lia|].
    apply Z.le_trans with (((T - 1) * (Zpos N + 1) * P) ^ 2).
    + replace (((T - 1) * (Zpos N + 1) * P) ^ 2)
        with ((T - 1) ^ 2 * P ^ 2 * (Zpos N + 1) ^ 2) by ring.
      replace (16 * ((T - 1) ^ 2 * (m' * P ^ 2))) with ((T - 1) ^ 2 * P ^ 2 * (16 * m')) by ring.
      apply Z.mul_le_mono_nonneg_l; [|exact Hc2].
      apply Z.mul_nonneg_nonneg; [apply Z.pow_nonneg; lia | exact HP2].
    + replace (16 * (T ^ 2 * v ^ 2)) with ((4 * T * v) ^ 2) by ring.
      apply Z.pow_le_mono_l. split; [|exact Lo].
      apply Z.mul_nonneg_nonneg; [apply Z.mul_nonneg_nonneg|]; lia.
  - apply Z.mul_le_mono_pos_l with (p := 16); [lia|].
    apply Z.le_trans with (((T + 1) * (Zpos N - 1) * P) ^ 2).
    + replace (16 * (T ^ 2 * v ^ 2)) with ((4 * T * v) ^ 2) by ring.
      apply Z.pow_le_mono_l. split; [|exact Up].
      apply Z.mul_nonneg_nonneg; lia.
    + replace (((T + 1) * (Zpos N - 1) * P) ^ 2)
        with ((T + 1) ^ 2 * P ^ 2 * (Zpos N - 1) ^ 2) by ring.
      replace (16 * ((T + 1) ^ 2 * (m' * P ^ 2))) with ((T + 1) ^ 2 * P ^ 2 * (16 * m')) by ring.
      apply Z.mul_le_mono_nonneg_l; [|exact Hc1].
      apply Z.mul_nonneg_nonneg; [apply Z.pow_nonneg; lia | exact HP2].
Qed.

End Format.

End Accuracy.

(** ** The length of the stored direction *)

Module Direction.
Import Rounding RoundingFacts F32Facts RoundingLoc Accuracy Rel.

Local Abbreviation normal := (Rel.normal F32.prec F32.emax).
Local Abbreviation K := (2 ^ 149).
Local Abbreviation T := (2 ^ 23).

(** The value of a finite float, in units of 2^-149. *)
Local Abbreviation val m e := (Zpos m * 2 ^ (e + 149)).

Lemma val_pos (m : positive) (e : Z) : -149 <= e -> 0 < val m e.
Proof. intros He; pose proof (pow2_pos (e + 149) ltac:(lia)); nia. Qed.

Lemma normal_of_val (s : bool) (m : positive) (e : Z) :
  bounded F32.prec F32.emax m e = true -> 2 ^ 23 <= val m e ->
  normal (S754_finite s m e).
Proof.
  intros Hb Hv.
  apply (normal_of_ord F32.prec F32.emax prec_pos); [split; [exact Hb | discriminate]|].
  pose proof (ord_finite _ _ prec_pos prec_lt_emax s m e Hb) as [L U].
  change (emin F32.prec F32.emax) with (-149) in *.
  replace (e - -149) with (e + 149) in * by lia.
  cbn [Rounding.ord]. change (emin F32.prec F32.emax) with (-149).
  replace (e - -149) with (e + 149) by lia.
  change (2 ^ (F32.prec - 1)) with (2 ^ 23).
  destruct s; lia.
Qed.

Lemma exponent_of_val (s : bool) (m : positive) (e a b : Z) :
  normal (S754_finite s m e) -> 0 <= a -> 0 <= b ->
  2 ^ a <= val m e < 2 ^ b ->
  a - 172 <= e <= b - 173.
Proof.
  intros Hn Ha Hb Hv.
  pose proof (normal_exponent F32.prec F32.emax prec_pos s m e a b Hn Ha Hb) as He.
  change (emin F32.prec F32.emax) with (-149) in He.
  replace (e - -149) with (e + 149) in He by lia.
  specialize (He Hv). change F32.prec with 24 in He. lia.
Qed.

Lemma moderate_inv (a : float) :
  moderate a = true ->
  (exists s, a = S754_zero s) \/
  (exists s m e, a = S754_finite s m e /\ normal a /\ -83 <= e <= 36 /\
                 2 ^ 89 <= val m e < 2 ^ 209).
Proof.
  destruct a as [s|s| |s m e]; try discriminate; intros H; [left; now exists s|right].
  cbn [moderate] in H. apply andb_prop in H as [H H3]. apply andb_prop in H as [H1 H2].
  apply Z.leb_le in H2. apply Z.ltb_lt in H3.
  assert (Hn : normal (S754_finite s m e)).
  { apply normal_of_val; [exact H1|].
    apply Z.le_trans with (2 ^ 89); [apply pow2_le; lia | exact H2]. }
  exists s, m, e; split; [reflexivity | split; [exact Hn|]].
  pose proof (exponent_of_val s m e 89 209 Hn ltac:(lia) ltac:(lia) (conj H2 H3)).
  split; [lia | split; assumption].
Qed.

(** *** The four operations, in the range *)

Lemma square_acc (s : bool) (m : positive) (e : Z) :
  normal (S754_finite s m e) -> -83 <= e <= 36 -> 2 ^ 89 <= val m e < 2 ^ 209 ->
  exists mz ez,
    F32.mul (S754_finite s m e) (S754_finite s m e) = S754_finite false mz ez /\
    normal (S754_finite false mz ez) /\
    (T - 1) * (val m e * val m e) <= T * (val mz ez * K) <= (T + 1) * (val m e * val m e) /\
    2 ^ 28 <= val mz ez < 2 ^ 270.
Proof.
  intros Hn He [Lo Hi].
  destruct (mul_rel F32.prec F32.emax prec_pos prec_lt_emax s s m m e e eq_refl Hn Hn)
    as (mz & ez & Hr & Hb & Hs).
  - change (emin F32.prec F32.emax) with (-149); change F32.prec with 24; lia.
  - change F32.prec with 24; change F32.emax with 128; lia.
  - cbv zeta in Hs. change (emin F32.prec F32.emax) with (-149) in Hs.
    change (2 ^ (F32.prec - 1)) with T in Hs. change (- -149) with 149 in Hs.
    replace (e - -149) with (e + 149) in Hs by lia.
    replace (ez - -149) with (ez + 149) in Hs by lia.
    rewrite xorb_nilpotent in Hr.
    set (d := val m e) in *. set (v := val mz ez) in *.
    assert (Hdd : 2 ^ 178 <= d * d < 2 ^ 418).
    { change (2 ^ 178) with (2 ^ 89 * 2 ^ 89). change (2 ^ 418) with (2 ^ 209 * 2 ^ 209).
      split; [apply Z.mul_le_mono_nonneg | apply Z.mul_lt_mono_nonneg]; lia. }
    set (dd := d * d) in *.
    assert (Hv : 2 ^ 28 <= v < 2 ^ 270) by lia.
    exists mz, ez; split; [exact Hr|]. split; [|split; [lia | exact Hv]].
    apply normal_of_val; [exact Hb|]. fold v. lia.
Qed.

Lemma add_acc (ma mb : positive) (ea eb : Z) :
  normal (S754_finite false ma ea) -> normal (S754_finite false mb eb) ->
  2 ^ 28 <= val ma ea < 2 ^ 270 -> 2 ^ 28 <= val mb eb < 2 ^ 270 ->
  exists ms es,
    F32.add (S754_finite false ma ea) (S754_finite false mb eb) = S754_finite false ms es /\
    normal (S754_finite false ms es) /\
    (T - 1) * (val ma ea + val mb eb) <= T * val ms es <= (T + 1) * (val ma ea + val mb eb) /\
    2 ^ 28 <= val ms es < 2 ^ 272.
Proof.
  intros [Ba _] [Bb _] Ha Hb.
  destruct (add_rel F32.prec F32.emax prec_pos prec_lt_emax ma mb ea eb Ba Bb)
    as (Hn & w & Ho & Hw).
  change (emin F32.prec F32.emax) with (-149) in Hw.
  change (2 ^ (F32.prec - 1)) with T in Hw.
  replace (ea - -149) with (ea + 149) in Hw by lia.
  replace (eb - -149) with (eb + 149) in Hw by lia.
  change (Rounding.top F32.prec F32.emax) with (2 ^ 277) in Ho.
  set (a := val ma ea) in *. set (b := val mb eb) in *.
  assert (Hww : 2 ^ 28 <= w < 2 ^ 272) by lia.
  rewrite Z.min_l in Ho by lia.
  fold (F32.add (S754_finite false ma ea) (S754_finite false mb eb)) in Hn, Ho.
  destruct (F32.add (S754_finite false ma ea) (S754_finite false mb eb))
    as [s|s| |s ms es]; cbn [Rounding.ord] in Ho.
  - lia.
  - change (Rounding.top F32.prec F32.emax) with (2 ^ 277) in Ho. destruct s; lia.
  - lia.
  - destruct Hn as [Hv _]; cbn [valid_binary] in Hv.
    change (emin F32.prec F32.emax) with (-149) in Ho.
    replace (es - -149) with (es + 149) in Ho by lia.
    apply bounded_canonical in Hv as Hc. destruct Hc as [Hc _].
    apply canonical_digits in Hc as (C1 & _).
    change (emin F32.prec F32.emax) with (-149) in C1.
    pose proof (val_pos ms es C1).
    destruct s; [lia|].
    exists ms, es; split; [reflexivity|]. rewrite Ho.
    split; [apply normal_of_val; [exact Hv | lia] | split; lia].
Qed.

Lemma sqrt_acc (ms : positive) (es : Z) :
  normal (S754_finite false ms es) -> 2 ^ 28 <= val ms es < 2 ^ 272 ->
  exists ml el,
    F32.sqrt (S754_finite false ms es) = S754_finite false ml el /\
    normal (S754_finite false ml el) /\
    (T - 1) ^ 2 * (val ms es * K) <= T ^ 2 * val ml el ^ 2 <= (T + 1) ^ 2 * (val ms es * K) /\
    2 ^ 88 <= val ml el < 2 ^ 211.
Proof.
  intros Hn Hs.
  pose proof (exponent_of_val false ms es 28 272 Hn ltac:(lia) ltac:(lia) Hs) as He.
  destruct (sqrt_rel F32.prec F32.emax prec_pos prec_lt_emax ms es eq_refl Hn)
    as (ml & el & Hr & Hb & Hv).
  - change (emin F32.prec F32.emax) with (-149); change F32.prec with 24.
    pose proof (Z.div_mod (24 + es + 1) 2 ltac:(lia)).
    pose proof (Z.mod_pos_bound (24 + es + 1) 2 ltac:(lia)). lia.
  - change F32.emax with 128; change F32.prec with 24.
    pose proof (Z.div_mod (24 + es + 1) 2 ltac:(lia)).
    pose proof (Z.mod_pos_bound (24 + es + 1) 2 ltac:(lia)). lia.
  - cbv zeta in Hv. change (emin F32.prec F32.emax) with (-149) in Hv.
    change (2 ^ (F32.prec - 1)) with T in Hv. change (- -149) with 149 in Hv.
    replace (es - -149) with (es + 149) in Hv by lia.
    replace (el - -149) with (el + 149) in Hv by lia.
    apply bounded_canonical in Hb as Hc. destruct Hc as [Hc _].
    apply canonical_digits in Hc as (C1 & _).
    change (emin F32.prec F32.emax) with (-149) in C1.
    pose proof (val_pos ml el C1) as Hl0.
    set (S := val ms es) in *. set (L := val ml el) in *.
    assert (HL : 2 ^ 88 <= L < 2 ^ 211).
    { rewrite Z.pow_2_r in Hv. split.
      - destruct (Z_le_gt_dec (2 ^ 88) L) as [|Hgt]; [assumption|exfalso].
        assert (L * L <= 2 ^ 88 * 2 ^ 88) by (apply Z.mul_le_mono_nonneg; lia).
        lia.
      - destruct (Z_lt_le_dec L (2 ^ 211)) as [|Hge]; [assumption|exfalso].
        assert (2 ^ 211 * 2 ^ 211 <= L * L) by (apply Z.mul_le_mono_nonneg; lia).
        lia. }
    exists ml, el; split; [exact Hr|]. split; [|split; [exact Hv | exact HL]].
    apply normal_of_val; [exact Hb|]. fold L. lia.
Qed.

Lemma div_acc (s : bool) (m ml : positive) (e el : Z) :
  normal (S754_finite s m e) -> -83 <= e <= 36 ->
  normal (S754_finite false ml el) -> 2 ^ 88 <= val ml el < 2 ^ 211 ->
  exists mz ez,
    F32.div (S754_finite s m e) (S754_finite false ml el) = S754_finite s mz ez /\
    bounded F32.prec F32.emax mz ez = true /\
    (T - 1) * (val m e * K) <= T * (val mz ez * val ml el) <= (T + 1) * (val m e * K).
Proof.
  intros Hn He Hl HL.
  pose proof (exponent_of_val false ml el 88 211 Hl ltac:(lia) ltac:(lia) HL) as Hel.
  destruct (div_rel F32.prec F32.emax prec_pos prec_lt_emax s false m ml e el eq_refl)
    as (mz & ez & Hr & Hb & Hv); try assumption.
  - change (emin F32.prec F32.emax) with (-149); change F32.prec with 24; lia.
  - change (emin F32.prec F32.emax) with (-149); change F32.prec with 24; lia.
  - change F32.emax with 128; lia.
  - cbv zeta in Hv. change (emin F32.prec F32.emax) with (-149) in Hv.
    change (2 ^ (F32.prec - 1)) with T in Hv. change (- -149) with 149 in Hv.
    replace (e - -149) with (e + 149) in Hv by lia.
    replace (el - -149) with (el + 149) in Hv by lia.
    replace (ez - -149) with (ez + 149) in Hv by lia.
    rewrite xorb_false_r in Hr.
    exists mz, ez; split; [exact Hr | split; [exact Hb | exact Hv]].
Qed.

(** *** From the four error bounds to the length *)

Lemma unit_algebra (dx dy A B S L X Y : Z) :
  0 < dx * dx + dy * dy -> 0 < L -> 0 <= X -> 0 <= Y ->
  (T - 1) * (dx * dx) <= T * (A * K) <= (T + 1) * (dx * dx) ->
  (T - 1) * (dy * dy) <= T * (B * K) <= (T + 1) * (dy * dy) ->
  (T - 1) * (A + B) <= T * S <= (T + 1) * (A + B) ->
  (T - 1) ^ 2 * (S * K) <= T ^ 2 * L ^ 2 <= (T + 1) ^ 2 * (S * K) ->
  (T - 1) * (Z.abs dx * K) <= T * (X * L) <= (T + 1) * (Z.abs dx * K) ->
  (T - 1) * (Z.abs dy * K) <= T * (Y * L) <= (T + 1) * (Z.abs dy * K) ->
  (2 ^ 20 - 1) * (K * K) <= 2 ^ 20 * (X * X + Y * Y) <= (2 ^ 20 + 1) * (K * K).
Proof.
  intros HM HL HX HY H1 H2 H3 H4 H5 H6.
  assert (Sq : forall d V, 0 <= V ->
             (T - 1) * (Z.abs d * K) <= T * (V * L) <= (T + 1) * (Z.abs d * K) ->
             (T - 1) ^ 2 * (d * d) * (K * K) <= T ^ 2 * (V * V * (L * L))
               <= (T + 1) ^ 2 * (d * d) * (K * K)).
  { intros d V HV [Lo Hi]. rewrite <- (Z.abs_square d).
    pose proof (Z.abs_nonneg d) as Hd. set (a := Z.abs d) in *.
    split.
    - replace ((T - 1) ^ 2 * (a * a) * (K * K)) with (((T - 1) * (a * K)) ^ 2) by ring.
      replace (T ^ 2 * (V * V * (L * L))) with ((T * (V * L)) ^ 2) by ring.
      apply Z.pow_le_mono_l. split; [|exact Lo].
      apply Z.mul_nonneg_nonneg; [lia|]. apply Z.mul_nonneg_nonneg; lia.
    - replace ((T + 1) ^ 2 * (a * a) * (K * K)) with (((T + 1) * (a * K)) ^ 2) by ring.
      replace (T ^ 2 * (V * V * (L * L))) with ((T * (V * L)) ^ 2) by ring.
      apply Z.pow_le_mono_l. split; [|exact Hi].
      apply Z.mul_nonneg_nonneg; [lia|]. apply Z.mul_nonneg_nonneg; lia. }
  pose proof (Sq dx X HX H5) as [X1 X2]. pose proof (Sq dy Y HY H6) as [Y1 Y2].
  clear Sq H5 H6.
  rewrite Z.pow_2_r in H4.
  set (M := dx * dx + dy * dy) in *. set (W := X * X + Y * Y).
  set (LL := L * L) in *.
  assert (HW : 0 <= W) by (unfold W; nia).
  assert (HLL : 0 < LL) by (unfold LL; nia).
  assert (S1 : (T - 1) ^ 2 * M * (K * K) <= T ^ 2 * (W * LL)).
  { unfold M, W. replace ((X * X + Y * Y) * LL) with (X * X * LL + Y * Y * LL) by ring.
    lia. }
  assert (S2 : T ^ 2 * (W * LL) <= (T + 1) ^ 2 * M * (K * K)).
  { unfold M, W. replace ((X * X + Y * Y) * LL) with (X * X * LL + Y * Y * LL) by ring.
    lia. }
  assert (C1 : (T - 1) ^ 4 * M <= T ^ 4 * LL) by (unfold M; lia).
  assert (C2 : T ^ 4 * LL <= (T + 1) ^ 4 * M) by (unfold M; lia).
  assert (D1 : (T - 1) ^ 4 * W <= T ^ 2 * (T + 1) ^ 2 * (K * K)).
  { apply (Z.mul_le_mono_pos_l _ _ M HM).
    apply Z.le_trans with (T ^ 4 * LL * W).
    - replace (M * ((T - 1) ^ 4 * W)) with ((T - 1) ^ 4 * M * W) by ring.
      apply Z.mul_le_mono_nonneg_r; assumption.
    - replace (T ^ 4 * LL * W) with (T ^ 2 * (T ^ 2 * (W * LL))) by ring.
      replace (M * (T ^ 2 * (T + 1) ^ 2 * (K * K)))
        with (T ^ 2 * ((T + 1) ^ 2 * M * (K * K))) by ring.
      apply Z.mul_le_mono_nonneg_l; [lia | exact S2]. }
  assert (D2 : T ^ 2 * (T - 1) ^ 2 * (K * K) <= (T + 1) ^ 4 * W).
  { apply (Z.mul_le_mono_pos_l _ _ M HM).
    apply Z.le_trans with (T ^ 4 * LL * W).
    - replace (T ^ 4 * LL * W) with (T ^ 2 * (T ^ 2 * (W * LL))) by ring.
      replace (M * (T ^ 2 * (T - 1) ^ 2 * (K * K)))
        with (T ^ 2 * ((T - 1) ^ 2 * M * (K * K))) by ring.
      apply Z.mul_le_mono_nonneg_l; [lia | exact S1].
    - replace (M * ((T + 1) ^ 4 * W)) with ((T + 1) ^ 4 * M * W) by ring.
      apply Z.mul_le_mono_nonneg_r; assumption. }
  fold W. clearbody W. clear - D1 D2. lia.
Qed.

(** *** Exact values *)

Local Abbreviation Kp := (2 ^ 149)%positive.

Lemma within_Q (a b : Z) (Kp : positive) (qx qy : Q) :
  (qx * qx == a # (Kp * Kp))%Q -> (qy * qy == b # (Kp * Kp))%Q ->
  (2 ^ 20 - 1) * (Zpos Kp * Zpos Kp) <= 2 ^ 20 * (a + b)
    <= (2 ^ 20 + 1) * (Zpos Kp * Zpos Kp) ->
  (1 - (1 # 1048576) <= qx * qx + qy * qy <= 1 + (1 # 1048576))%Q.
Proof.
  intros Hx Hy [Lo Hi]; rewrite Hx, Hy.
  change (2 ^ 20) with 1048576 in *.
  set (P := (Kp * Kp)%positive) in *.
  assert (HP : Zpos P = Zpos Kp * Zpos Kp) by (unfold P; lia).
  rewrite <- HP in *. clear HP. clearbody P.
  change (1 - (1 # 1048576))%Q with (1048575 # 1048576)%Q.
  change (1 + (1 # 1048576))%Q with (1048577 # 1048576)%Q.
  unfold Qle, Qplus; cbn [Qnum Qden].
  rewrite !Pos2Z.inj_mul. split; nia.
Qed.

Lemma to_Q_square (s : bool) (m : positive) (e : Z) :
  bounded F32.prec F32.emax m e = true ->
  exists q, F32.to_Q (S754_finite s m e) = Some q /\
            (q * q == (val m e * val m e) # (Kp * Kp))%Q.
Proof.
  intros Hb. apply bounded_canonical in Hb as [Hc _].
  apply canonical_digits in Hc as (C1 & _).
  change (emin F32.prec F32.emax) with (-149) in C1.
  assert (HK : Zpos Kp = 2 ^ 149) by reflexivity.
  assert (Hv : forall v : Q, (v == val m e # Kp)%Q ->
               ((if s then - v else v) * (if s then - v else v) ==
                (val m e * val m e) # (Kp * Kp))%Q).
  { intros v E. destruct s; rewrite E; unfold Qeq, Qmult, Qopp; cbn [Qnum Qden]; ring. }
  cbn [F32.to_Q]; eexists; split; [reflexivity|]. apply Hv.
  destruct e as [|p|p]; unfold Qeq, inject_Z; cbn [Qnum Qden]; rewrite HK.
  - change (0 + 149) with 149. ring.
  - rewrite Z.pow_add_r by lia. ring.
  - rewrite Pos2Z.inj_pow.
    replace (2 ^ 149) with (2 ^ (Zneg p + 149) * 2 ^ Zpos p); [ring|].
    rewrite <- Z.pow_add_r by lia. f_equal. lia.
Qed.

(** *** One component, then both *)

Lemma component (a : float) :
  moderate a = true ->
  exists d A : Z,
    ((T - 1) * (d * d) <= T * (A * K) <= (T + 1) * (d * d)) /\
    ((d = 0 /\ A = 0 /\ F32.neb a F32.zero = false /\ F32.mul a a = S754_zero false) \/
     (0 < d /\
      exists mz ez, F32.mul a a = S754_finite false mz ez /\
                    normal (S754_finite false mz ez) /\ A = val mz ez /\
                    2 ^ 28 <= A < 2 ^ 270)) /\
    forall ml el,
      normal (S754_finite false ml el) -> 2 ^ 88 <= val ml el < 2 ^ 211 ->
      let g := F32.div a (S754_finite false ml el) in
      finite_float g = true /\
      exists (q : Q) (X : Z),
        F32.to_Q g = Some q /\ (q * q == (X * X) # (Kp * Kp))%Q /\ 0 <= X /\
        (T - 1) * (Z.abs d * K) <= T * (X * val ml el) <= (T + 1) * (Z.abs d * K).
Proof.
  intros Hm; destruct (moderate_inv a Hm) as [[s ->]|(s & m & e & -> & Hn & He & Hv)].
  - exists 0, 0; split; [lia|]. split.
    + left; repeat split; destruct s; reflexivity.
    + intros ml el Hl HL g; split; [reflexivity|].
      exists 0%Q, 0; repeat split; try reflexivity; lia.
  - destruct (square_acc s m e Hn He Hv) as (mz & ez & Hr & Nz & Hs & Hb).
    exists (val m e), (val mz ez); split; [exact Hs|]. split.
    + right; split; [lia|]. exists mz, ez.
      split; [exact Hr | split; [exact Nz | split; [reflexivity | exact Hb]]].
    + intros ml el Hl HL g.
      destruct (div_acc s m ml e el Hn He Hl HL) as (mg & eg & Hg & Bg & Hd).
      unfold g; rewrite Hg; split.
      * unfold finite_float, F32.valid; cbn [valid_binary F32.is_finite].
        now rewrite Bg.
      * destruct (to_Q_square s mg eg Bg) as (q & Hq & Hqq).
        exists q, (val mg eg); split; [exact Hq | split; [exact Hqq|]].
        apply bounded_canonical in Bg as [Hc _].
        apply canonical_digits in Hc as (C1 & _).
        change (emin F32.prec F32.emax) with (-149) in C1.
        pose proof (val_pos mg eg C1). split; [lia|].
        rewrite Z.abs_eq by lia. exact Hd.
Qed.

Lemma normalise_acc (dx dy : float) :
  moderate dx = true -> moderate dy = true ->
  F32.neb dx F32.zero = true \/ F32.neb dy F32.zero = true ->
  let length := F32.sqrt (F32.add (F32.mul dx dx) (F32.mul dy dy)) in
  let gx := F32.div dx length in
  let gy := F32.div dy length in
  finite_float gx = true /\ finite_float gy = true /\
  exists qx qy : Q,
    F32.to_Q gx = Some qx /\ F32.to_Q gy = Some qy /\
    (1 - (1 # 1048576) <= qx * qx + qy * qy <= 1 + (1 # 1048576))%Q.
Proof.
  intros Hx Hy Hnz.
  destruct (component dx Hx) as (d1 & A & H1 & C1 & G1).
  destruct (component dy Hy) as (d2 & B & H2 & C2 & G2).
  assert (HS : 0 < d1 * d1 + d2 * d2 /\
               exists ms es,
                 F32.add (F32.mul dx dx) (F32.mul dy dy) = S754_finite false ms es /\
                 normal (S754_finite false ms es) /\
                 (T - 1) * (A + B) <= T * val ms es <= (T + 1) * (A + B) /\
                 2 ^ 28 <= val ms es < 2 ^ 272).
  { destruct C1 as [(-> & -> & N1 & ->)|(P1 & ma & ea & -> & Na & -> & Ba)];
      destruct C2 as [(-> & -> & N2 & ->)|(P2 & mb & eb & -> & Nb & -> & Bb)].
    - destruct Hnz; congruence.
    - split; [nia|]. exists mb, eb.
      split; [reflexivity | split; [exact Nb | split; lia]].
    - split; [nia|]. exists ma, ea.
      split; [reflexivity | split; [exact Na | split; lia]].
    - split; [nia|]. apply add_acc; assumption. }
  destruct HS as (HM & ms & es & -> & Ns & H3 & Bs).
  destruct (sqrt_acc ms es Ns Bs) as (ml & el & -> & Nl & H4 & Bl).
  destruct (G1 ml el Nl Bl) as (F1 & qx & X & Qx & Sx & X0 & H5).
  destruct (G2 ml el Nl Bl) as (F2 & qy & Y & Qy & Sy & Y0 & H6).
  cbv zeta. split; [exact F1 | split; [exact F2|]].
  exists qx, qy; split; [exact Qx | split; [exact Qy|]].
  apply (within_Q (X * X) (Y * Y) Kp qx qy Sx Sy).
  change (Zpos Kp) with K.
  apply (unit_algebra d1 d2 A B (val ms es) (val ml el) X Y); try assumption.
  lia.
Qed.

End Direction.

(** ** Along one axis the length is exact *)

Module Axis.
Import Rounding RoundingFacts F32Facts RoundingLoc Accuracy Rel.

Local Abbreviation normal := (Rel.normal F32.prec F32.emax).
Local Abbreviation val m e := (Zpos m * 2 ^ (e + 149)).

Lemma nearest_quarter (m N : Z) : Z.abs (N - 4 * m) <= 1 -> nearest N 2 = m.
Proof.
  intros H; unfold nearest; change (2 ^ 2) with 4.
  pose proof (Z.div_mod N 4 ltac:(lia)); pose proof (Z.mod_pos_bound N 4 ltac:(lia)).
  destruct (Z.compare_spec (2 * (N mod 4)) 4); [exfalso; lia | lia | lia].
Qed.

Lemma mantissa_bounds (s : bool) (m : positive) (e : Z) :
  normal (S754_finite s m e) -> 2 ^ 23 <= Zpos m < 2 ^ 24.
Proof. intros [_ D]; pose proof (dig_bounds m) as H; rewrite D in H; exact H. Qed.

(** The square, rounded: within less than [m] of [m * m], in units of the
    square of the last place of the argument. *)
Lemma square_round (s : bool) (m : positive) (e : Z) :
  normal (S754_finite s m e) -> -83 <= e <= 36 ->
  exists mz ez kn,
    F32.mul (S754_finite s m e) (S754_finite s m e) = S754_finite false mz ez /\
    normal (S754_finite false mz ez) /\ -144 <= ez <= 97 /\
    val mz ez * 2 ^ 149 = kn * (2 ^ (e + 149) * 2 ^ (e + 149)) /\
    Z.abs (kn - Zpos m * Zpos m) < Zpos m /\ 2 ^ 46 <= kn < 2 ^ 48.
Proof.
  intros Hn He; pose proof (mantissa_bounds s m e Hn) as Hm.
  assert (Hv : 2 ^ 89 <= val m e < 2 ^ 209).
  { pose proof (pow2_le 66 (e + 149) ltac:(lia)).
    pose proof (pow2_le (e + 149) 185 ltac:(lia)).
    change (2 ^ 89) with (2 ^ 23 * 2 ^ 66). change (2 ^ 209) with (2 ^ 24 * 2 ^ 185).
    split; [apply Z.mul_le_mono_nonneg; lia|].
    apply Z.lt_le_trans with (2 ^ 24 * 2 ^ (e + 149)).
    - apply Z.mul_lt_mono_pos_r; [apply pow2_pos|]; lia.
    - apply Z.mul_le_mono_nonneg_l; lia. }
  destruct (Direction.square_acc s m e Hn He Hv) as (mz & ez & Hr & Nz & _ & Bz).
  pose proof (Direction.exponent_of_val false mz ez 28 270 Nz ltac:(lia) ltac:(lia) Bz) as Hez.
  assert (Hmm : 2 ^ 46 <= Zpos (m * m) < 2 ^ 48).
  { rewrite Pos2Z.inj_mul. change (2 ^ 46) with (2 ^ 23 * 2 ^ 23).
    change (2 ^ 48) with (2 ^ 24 * 2 ^ 24).
    split; [apply Z.mul_le_mono_nonneg | apply Z.mul_lt_mono_nonneg]; lia. }
  assert (Hd : (dig (m * m) = 47 /\ Zpos (m * m) < 2 ^ 47) \/
               (dig (m * m) = 48 /\ 2 ^ 47 <= Zpos (m * m))).
  { destruct (Z_lt_le_dec (Zpos (m * m)) (2 ^ 47)); [left|right];
      (split; [apply dig_unique|]; simpl Z.sub; lia). }
  assert (Hdd : 47 <= dig (m * m) <= 48) by (destruct Hd as [[-> _]|[-> _]]; lia).
  destruct (round_aux_normal F32.prec F32.emax prec_pos false (m * m) (e + e))
    as (mz' & ez' & Hr' & _ & Hv' & Hk).
  { change F32.prec with 24; lia. }
  { change (emin F32.prec F32.emax) with (-149); change F32.prec with 24; lia. }
  { change F32.emax with 128; lia. }
  unfold F32.mul in Hr; cbn [SFmul] in Hr; rewrite xorb_nilpotent, Hr' in Hr.
  injection Hr as -> ->.
  change (emin F32.prec F32.emax) with (-149) in Hv'. change F32.prec with 24 in Hv', Hk.
  replace (ez - -149) with (ez + 149) in Hv' by lia.
  pose proof (nearest_error (Zpos (m * m)) (dig (m * m) - 24) ltac:(lia)) as Herr.
  set (n := dig (m * m) - 24) in *. set (k := nearest (Zpos (m * m)) n) in *.
  exists mz, ez, (k * 2 ^ n).
  split; [unfold F32.mul; cbn [SFmul]; rewrite xorb_nilpotent; exact Hr'|].
  split; [exact Nz|]. split; [lia|]. split; [|split].
  - rewrite Hv'. rewrite <- !Z.mul_assoc, <- !Z.pow_add_r by lia.
    f_equal; f_equal; lia.
  - rewrite Pos2Z.inj_mul in *.
    destruct Hd as [[D Hlt]|[D Hge]]; unfold n in *; rewrite D in *; simpl Z.sub in *.
    + change (2 ^ 23) with 8388608 in *. lia.
    + assert (2 ^ 23 < Zpos m) by nia. change (2 ^ 24) with 16777216 in *. lia.
  - assert (23 <= n <= 24) by (unfold n; lia).
    pose proof (pow2_le 23 n ltac:(lia)). pose proof (pow2_pos n ltac:(lia)).
    split; [change (2 ^ 46) with (2 ^ 23 * 2 ^ 23); apply Z.mul_le_mono_nonneg; lia|].
    rewrite Pos2Z.inj_mul in *.
    assert (Zpos m * Zpos m + Zpos m < 2 ^ 48) by nia.
    assert (Z.abs (k * 2 ^ n - Zpos m * Zpos m) < Zpos m); [|lia].
    destruct Hd as [[D Hlt]|[D Hge]]; unfold n in *; rewrite D in *; simpl Z.sub in *.
    + change (2 ^ 23) with 8388608 in *. lia.
    + assert (2 ^ 23 < Zpos m) by nia. change (2 ^ 24) with 16777216 in *. lia.
Qed.

(** The square root of the rounded square is the magnitude. *)
Lemma sqrt_square (s : bool) (m : positive) (e : Z) :
  normal (S754_finite s m e) -> -83 <= e <= 36 ->
  exists mz ez,
    F32.mul (S754_finite s m e) (S754_finite s m e) = S754_finite false mz ez /\
    F32.sqrt (S754_finite false mz ez) = S754_finite false m e.
Proof.
  intros Hn He; pose proof (mantissa_bounds s m e Hn) as Hm.
  destruct (square_round s m e Hn He) as (mz & ez & kn & Hr & Nz & Hez & HvK & Hcl & Hkn).
  exists mz, ez; split; [exact Hr|].
  unfold F32.sqrt; cbn [SFsqrt].
  destruct Nz as [Bz Dz].
  assert (Hlo : emin F32.prec F32.emax <= (F32.prec + ez + 1) / 2 - F32.prec).
  { change (emin F32.prec F32.emax) with (-149); change F32.prec with 24.
    pose proof (Z.div_mod (24 + ez + 1) 2 ltac:(lia)).
    pose proof (Z.mod_pos_bound (24 + ez + 1) 2 ltac:(lia)). lia. }
  destruct (sqrt_core_raw F32.prec F32.emax prec_pos mz ez eq_refl Dz Hlo)
    as (q & r & Hc & Dq & Hs & Hm' & Hr2).
  rewrite Hc; clear Hc.
  change F32.prec with 24 in Hs, Hm', Hlo, Dq |- *.
  change (emin 24 F32.emax) with (-149) in Hlo.
  set (e' := (24 + ez + 1) / 2 - 24) in *.
  pose proof (dig_bounds q) as Hq; rewrite Dq in Hq; simpl Z.sub in Hq.
  set (m' := Zpos q * Zpos q + r) in *.
  assert (Hmb : 2 ^ 46 <= m' < 2 ^ 48).
  { unfold m'. change (2 ^ 46) with (2 ^ 23 * 2 ^ 23). change (2 ^ 48) with (2 ^ 24 * 2 ^ 24).
    nia. }
  (* the exponent *)
  assert (HvK' : val mz ez * 2 ^ 149 = m' * (2 ^ (e' + 149) * 2 ^ (e' + 149))).
  { rewrite <- Hm'. rewrite <- !Z.mul_assoc, <- !Z.pow_add_r by lia.
    f_equal; f_equal; lia. }
  rewrite HvK in HvK'.
  assert (Ee : e' = e).
  { destruct (Z.lt_trichotomy e' e) as [Hlt|[Heq|Hgt]]; [exfalso|exact Heq|exfalso].
    - replace (e + 149) with ((e' + 149) + (e - e')) in HvK' by lia.
      rewrite (Z.pow_add_r 2 (e' + 149) (e - e')) in HvK' by lia.
      pose proof (pow2_pos (e' + 149) ltac:(lia)) as HP.
      pose proof (pow2_le 1 (e - e') ltac:(lia)) as HD. change (2 ^ 1) with 2 in HD.
      set (P := 2 ^ (e' + 149)) in *. set (D := 2 ^ (e - e')) in *.
      assert (m' = kn * (D * D)).
      { apply (Z.mul_cancel_r _ _ (P * P)); [nia|]. rewrite <- HvK'. ring. }
      nia.
    - replace (e' + 149) with ((e + 149) + (e' - e)) in HvK' by lia.
      rewrite (Z.pow_add_r 2 (e + 149) (e' - e)) in HvK' by lia.
      pose proof (pow2_pos (e + 149) ltac:(lia)) as HP.
      pose proof (pow2_le 1 (e' - e) ltac:(lia)) as HD. change (2 ^ 1) with 2 in HD.
      set (P := 2 ^ (e + 149)) in *. set (D := 2 ^ (e' - e)) in *.
      assert (kn = m' * (D * D)).
      { apply (Z.mul_cancel_r _ _ (P * P)); [nia|]. rewrite HvK'. ring. }
      nia. }
  rewrite Ee in *.
  assert (Ekn : m' = kn).
  { pose proof (pow2_pos (e + 149) ltac:(lia)) as HP.
    apply (Z.mul_cancel_r _ _ (2 ^ (e + 149) * 2 ^ (e + 149))); [nia | now symmetry]. }
  (* the mantissa with its location *)
  set (l := if r =? 0 then loc_Exact else loc_Inexact (if r <=? Zpos q then Lt else Gt)).
  assert (HN : Z.abs (4 * Zpos q + code l - 4 * Zpos m) <= 1).
  { assert (Hqm : Zpos q = Zpos m \/ Zpos q = Zpos m - 1) by (unfold m' in Ekn; nia).
    unfold l; destruct Hqm as [Eq|Eq].
    - destruct (Z.eqb_spec r 0); [cbn [code]; lia|].
      destruct (Z.leb_spec r (Zpos q)); [cbn [code]; lia|]. unfold m' in Ekn. nia.
    - destruct (Z.eqb_spec r 0); [unfold m' in Ekn; nia|].
      destruct (Z.leb_spec r (Zpos q)); [unfold m' in Ekn; nia|]. cbn [code]; lia. }
  assert (HNp : exists N, Zpos N = 4 * Zpos q + code l).
  { destruct (4 * Zpos q + code l) as [|N|N] eqn:E;
      try (destruct l as [|[| |]]; cbn [code] in E; lia).
    now exists N. }
  destruct HNp as [N EN]. rewrite <- EN in HN.
  assert (DN : dig N = 26).
  { apply dig_unique; simpl Z.sub; rewrite EN.
    change (2 ^ 25) with (4 * 2 ^ 23). change (2 ^ 26) with (4 * 2 ^ 24).
    destruct l as [|[| |]]; cbn [code]; lia. }
  rewrite (round_aux_loc 24 F32.emax false q N e l EN)
    by (rewrite Dq; unfold fexp; lia).
  destruct (round_aux_normal 24 F32.emax prec_pos false N (e - 2))
    as (mr & er & -> & Br & Hv & _).
  { rewrite DN; reflexivity. }
  { rewrite DN; change (emin 24 F32.emax) with (-149); lia. }
  { rewrite DN; change F32.emax with 128; lia. }
  rewrite DN in Hv; change (26 - 24) with 2 in Hv.
  rewrite (nearest_quarter (Zpos m) (Zpos N) HN) in Hv.
  replace (26 + (e - 2) - 24 - emin 24 F32.emax) with (e - emin 24 F32.emax) in Hv by lia.
  destruct Hn as [Bm _].
  apply (ord_inj F32.prec F32.emax prec_pos prec_lt_emax).
  - split; [exact Br | discriminate].
  - split; [exact Bm | discriminate].
  - cbn [Rounding.ord]. exact Hv.
  - cbn [Rounding.ord]. change F32.prec with 24. rewrite Hv.
    pose proof (pow2_pos (e - emin 24 F32.emax)
                  ltac:(change (emin 24 F32.emax) with (-149); lia)). nia.
Qed.

(** A number divided by its magnitude. *)
Lemma div_self (s : bool) (m : positive) (e : Z) :
  normal (S754_finite s m e) ->
  F32.div (S754_finite s m e) (S754_finite false m e) = if s then F32.m_one else F32.one.
Proof.
  intros Hn; pose proof (mantissa_bounds s m e Hn) as Hm. destruct Hn as [Bm Dm].
  unfold F32.div; cbn [SFdiv].
  destruct (div_core F32.prec F32.emax prec_pos m m e e eq_refl Dm Dm)
    as (q & l & -> & Hq & Hc).
  { change (emin F32.prec F32.emax) with (-149); change F32.prec with 24; lia. }
  change F32.prec with 24 in Hc, Hq |- *.
  replace (e - e - 24) with (-24) by lia.
  assert (HN : 4 * Zpos q + code l = 2 ^ 26).
  { change (2 ^ 24) with 16777216 in Hc. change (2 ^ 26) with 67108864.
    destruct (Z.lt_trichotomy (4 * Zpos q + code l) 67108864) as [H|[H|H]];
      [exfalso; nia | exact H | exfalso; nia]. }
  assert (El : l = loc_Exact /\ q = 16777216%positive).
  { change (2 ^ 26) with 67108864 in HN.
    destruct l as [|[| |]]; cbn [code] in HN; try lia. split; [reflexivity | lia]. }
  destruct El as [-> ->]. rewrite xorb_false_r. destruct s; reflexivity.
Qed.

(** One component in the range, the other a zero. *)
Lemma along_axis (a z : float) :
  moderate a = true -> is_zero a = false -> is_zero z = true ->
  let l1 := F32.sqrt (F32.add (F32.mul a a) (F32.mul z z)) in
  let l2 := F32.sqrt (F32.add (F32.mul z z) (F32.mul a a)) in
  F32.neb a F32.zero = true /\
  F32.div a l1 = signum a /\ F32.div z l1 = z /\
  F32.div a l2 = signum a /\ F32.div z l2 = z.
Proof.
  intros Hm Ha Hz.
  destruct z as [sz| | |]; try discriminate.
  destruct (Direction.moderate_inv a Hm) as [[s ->]|(s & m & e & -> & Hn & He & _)];
    [discriminate|].
  destruct (sqrt_square s m e Hn He) as (mz & ez & Hr & Hq).
  cbv zeta; rewrite Hr.
  replace (F32.mul (S754_zero sz) (S754_zero sz)) with (S754_zero false)
    by (destruct sz; reflexivity).
  change (F32.add (S754_finite false mz ez) (S754_zero false))
    with (S754_finite false mz ez).
  change (F32.add (S754_zero false) (S754_finite false mz ez))
    with (S754_finite false mz ez).
  rewrite Hq, (div_self s m e Hn). cbn [signum].
  split; [destruct s; reflexivity|].
  repeat split; destruct sz; reflexivity.
Qed.

End Axis.

(** ** Setting the direction, in the range *)

(** The diagonal shows why the length is one only up to rounding: the
    stored components are both 11863283 * 2^-24, and twice their square is
    not 1. *)
Lemma setDirection_diagonal_rounded :
  let h := Heart_.setDirection F32.one F32.one (Heart_.new 96 40 12) in
  direction h = (S754_finite false 11863283 (-24), S754_finite false 11863283 (-24)) /\
  ~ unit_length h.
Proof.
  split; [reflexivity|].
  intros (qx & qy & Hx & Hy & Hq).
  vm_compute in Hx, Hy; injection Hx as <-; injection Hy as <-.
  vm_compute in Hq; discriminate.
Qed.

(** C5 (amended). [setDirection(dx, dy)] with [dx == 0] and [dy == 0] leaves
    the entity as it is.  Otherwise it stores [dx / length] and
    [dy / length], where [length = sqrt(dx*dx + dy*dy)] and every operation
    is rounded to single precision, sets [moving], and leaves position,
    speed and aspect ratio alone.  When each of [dx] and [dy] is zero or of
    magnitude at least 2^-60 and less than 2^60, and they are not both zero,
    the stored components are finite and the square of their Euclidean
    length, in exact arithmetic, is within 2^-20 of 1; when exactly one of
    them is zero, the stored direction is 1.0f or -1.0f along the axis of
    the other, and its length is exactly 1.  For the four directions the
    arrow keys pass, the stored direction is the argument itself. *)
Theorem setDirection_spec (dx dy : float) (h : Heart) :
  let h' := Heart_.setDirection dx dy h in
  (F32.eqb dx F32.zero = true -> F32.eqb dy F32.zero = true -> h' = h) /\
  (F32.neb dx F32.zero = true \/ F32.neb dy F32.zero = true ->
   let length := F32.sqrt (F32.add (F32.mul dx dx) (F32.mul dy dy)) in
   direction h' = (F32.div dx length, F32.div dy length) /\ moving h' = true /\
   position h' = position h /\ baseSpeed h' = baseSpeed h /\
   aspectRatio h' = aspectRatio h) /\
  (moderate dx = true -> moderate dy = true ->
   F32.neb dx F32.zero = true \/ F32.neb dy F32.zero = true ->
   finite_float (directionX h') = true /\ finite_float (directionY h') = true /\
   unit_within (1 # 1048576) h') /\
  (moderate dx = true -> moderate dy = true ->
   xorb (is_zero dx) (is_zero dy) = true ->
   direction h' = (signum dx, signum dy) /\ unit_length h' /\ moving h' = true) /\
  (In (dx, dy) cardinal ->
   direction h' = (dx, dy) /\ unit_length h' /\ moving h' = true).
Proof.
  intros h'.
  assert (Hnz : F32.neb dx F32.zero = true \/ F32.neb dy F32.zero = true ->
                h' = headed (F32.div dx (F32.sqrt (F32.add (F32.mul dx dx) (F32.mul dy dy))))
                            (F32.div dy (F32.sqrt (F32.add (F32.mul dx dx) (F32.mul dy dy)))) h).
  { intros H; unfold h', Heart_.setDirection.
    destruct H as [-> | ->]; now rewrite ?orb_true_r. }
  split; [|split; [|split; [|split]]].
  - intros Hx Hy; unfold F32.eqb in Hx, Hy.
    unfold h', Heart_.setDirection, F32.neb; now rewrite Hx, Hy.
  - intros H; rewrite (Hnz H); repeat split.
  - intros Mx My H; rewrite (Hnz H).
    destruct (Direction.normalise_acc dx dy Mx My H) as (Fx & Fy & qx & qy & Qx & Qy & Hq).
    split; [exact Fx | split; [exact Fy|]].
    exists qx, qy; split; [exact Qx | split; [exact Qy | exact Hq]].
  - intros Mx My Hz.
    assert (Hu : forall a b : float,
              (is_zero a = false /\ is_zero b = true) \/
              (is_zero a = true /\ is_zero b = false) ->
              moderate a = true -> moderate b = true ->
              unit_length (headed (signum a) (signum b) h)).
    { intros a b Hab Ma Mb.
      destruct a as [sa| | |sa ma ea], b as [sb| | |sb mb eb]; try discriminate;
        try (destruct Hab as [[? ?]|[? ?]]; discriminate).
      - destruct sa, sb; exists 0%Q; eexists;
          (split; [reflexivity | split; [reflexivity | vm_compute; reflexivity]]).
      - destruct sa, sb; eexists; exists 0%Q;
          (split; [reflexivity | split; [reflexivity | vm_compute; reflexivity]]). }
    destruct (is_zero dx) eqn:Zx, (is_zero dy) eqn:Zy; try discriminate.
    + destruct (Axis.along_axis dy dx My Zy Zx) as (Ny & _ & _ & Ey & Ex).
      rewrite (Hnz (or_intror Ny)), Ex, Ey.
      replace dx with (signum dx) at 1 by (destruct dx; try discriminate; reflexivity).
      split; [reflexivity | split; [|reflexivity]].
      replace dx with (signum dx) at 1 by (destruct dx; try discriminate; reflexivity).
      apply Hu; auto.
    + destruct (Axis.along_axis dx dy Mx Zx Zy) as (Nx & Ex & Ey & _ & _).
      rewrite (Hnz (or_introl Nx)), Ex, Ey.
      replace dy with (signum dy) at 1 by (destruct dy; try discriminate; reflexivity).
      split; [reflexivity | split; [|reflexivity]].
      replace dy with (signum dy) at 1 by (destruct dy; try discriminate; reflexivity).
      apply Hu; auto.
  - intros H; unfold h'.
    destruct H as [[= <- <-]|[[= <- <-]|[[= <- <-]|[[= <- <-]|[]]]]];
      (split; [reflexivity | split; [|reflexivity]]);
      (eexists; eexists; split; [reflexivity | split; [reflexivity | vm_compute; reflexivity]]).
Qed.

Lemma setDirection_spec_witness :
  let h := Heart_.new 96 40 12 in
  Heart_.setDirection (S754_zero true) F32.zero h = h /\
  moving (Heart_.setDirection F32.one F32.one h) = true /\
  unit_within (1 # 1048576) (Heart_.setDirection (F32.of_int 3) (F32.of_int 4) h) /\
  unit_within (1 # 1048576) (Heart_.setDirection F32.one F32.one h) /\
  direction (Heart_.setDirection (F32.of_int 3) F32.zero h) = (F32.one, F32.zero) /\
  unit_length (Heart_.setDirection (F32.of_int 3) F32.zero h) /\
  direction (Heart_.setDirection F32.zero F32.m_one h) = (F32.zero, F32.m_one).
Proof.
  intros h.
  destruct (setDirection_spec (S754_zero true) F32.zero h) as (Hzero & _ & _ & _ & _).
  destruct (setDirection_spec F32.one F32.one h) as (_ & Hnz & Hone & _ & _).
  destruct (setDirection_spec (F32.of_int 3) (F32.of_int 4) h) as (_ & _ & Hmod & _ & _).
  destruct (setDirection_spec (F32.of_int 3) F32.zero h) as (_ & _ & _ & Haxis & _).
  destruct (setDirection_spec F32.zero F32.m_one h) as (_ & _ & _ & _ & Hcard).
  split; [exact (Hzero eq_refl eq_refl) | split; [|split; [|split; [|split; [|split]]]]].
  - exact (proj1 (proj2 (Hnz (or_introl eq_refl)))).
  - exact (proj2 (proj2 (Hmod eq_refl eq_refl (or_introl eq_refl)))).
  - exact (proj2 (proj2 (Hone eq_refl eq_refl (or_introl eq_refl)))).
  - exact (proj1 (Haxis eq_refl eq_refl eq_refl)).
  - exact (proj1 (proj2 (Haxis eq_refl eq_refl eq_refl))).
  - exact (proj1 (Hcard (or_introl eq_refl))).
Defined.
